(** * MKint: a shallow embedding of the integer-bug pass of [mkint/mkint.cpp]

    The pass runs over an LLVM module.  It marks taint sources and sinks,
    propagates taint along use-def chains, runs an iterative range analysis
    over [llvm::ConstantRange] and finally attaches [mkint.err] metadata.

    The embedding follows the C++ text function by function and keeps its
    names.  Mutable members of [MKintPass] and the metadata attached to the
    module are threaded as one explicit [state]; a call that stops the pass
    ([MKINT_CHECK_ABORT], a null dereference) yields [Aborted]; recursion that
    the C++ does not bound is given a fuel argument and yields [NoFuel] when
    the budget is used up.

    LLVM itself is not part of the repository.  The operations of
    [llvm::ConstantRange] with real content (union, intersection, comparison
    regions, extensions, arithmetic) are a parameter of the development, a
    record [ConstantRange.Ops]; only constructors and observers are defined
    here.  [demangle] (a wrapper of [abi::__cxa_demangle]) is a parameter as
    well.  The closed examples at the end instantiate both. *)

From stdpp Require Import gmap strings list fin_maps pretty.
From Stdlib Require Import ZArith Lia.

Set Default Proof Using "Type".
Open Scope Z_scope.

(** ** Results of calls that may stop the pass *)

Inductive result (A : Type) : Type :=
| Done (a : A)
| Aborted
| NoFuel.
Arguments Done {A} a.
Arguments Aborted {A}.
Arguments NoFuel {A}.

#[global] Instance result_ret : MRet result := @Done.
#[global] Instance result_bind : MBind result := λ A B k r,
  match r with
  | Done a => k a
  | Aborted => Aborted
  | NoFuel => NoFuel
  end.

#[global] Instance result_fmap : FMap result := λ A B g r,
  match r with
  | Done a => Done (g a)
  | Aborted => Aborted
  | NoFuel => NoFuel
  end.

(** [for (x : l) body(x)] over a state, stopping at the first call that does
    not return. *)
Fixpoint for_each {A S : Type} (body : A → S → result S) (l : list A) (s : S) : result S :=
  match l with
  | [] => Done s
  | x :: l' => s' ← body x s; for_each body l' s'
  end.

(** The same loop for bodies that accumulate a flag with [|=]. *)
Fixpoint for_each_or {A S : Type} (body : A → S → result (bool * S)) (l : list A)
    (acc : bool) (s : S) : result (bool * S) :=
  match l with
  | [] => Done (acc, s)
  | x :: l' => '(b, s') ← body x s; for_each_or body l' (acc || b) s'
  end.

(** Modelled from the spec: [MKINT_CHECK_ABORT] is a macro of [log.hpp], which
    is not among the sources; the pass only ever writes
    [MKINT_CHECK_ABORT(false) << msg].  The spec calls the conditions so
    guarded analysis-fatal, they "abort the current invocation": nothing
    behind the macro runs.  ([MKINT_CHECK_RELAX], [MKINT_LOG] and
    [MKINT_WARN] of the same header only write to the log.) *)
Definition MKINT_CHECK_ABORT {A : Type} : result A := Aborted.

(** ** The IR *)

(** Types.  [getIntegerBitWidth] is an unchecked cast in a build of LLVM without
    assertions: on a type that is no integer it reads the type's subclass
    data, which [TOther] carries ([TPtr] carries the address space, which is
    that data for a pointer; void and array types have none). *)
Inductive ty : Type :=
| TInt (bits : N)
| TVoid
| TPtr (addrspace : N)
| TArray (n : N) (elt : ty)
| TOther (subclass_data : N).

Definition isIntegerTy (t : ty) : bool :=
  match t with TInt _ => true | _ => false end.

Definition isVoidTy (t : ty) : bool :=
  match t with TVoid => true | _ => false end.

Definition getIntegerBitWidth (t : ty) : N :=
  match t with
  | TInt bits => bits
  | TPtr addrspace => addrspace
  | TOther d => d
  | TVoid | TArray _ _ => 0%N
  end.

(** Values.  Instructions, blocks, functions and globals are identified by
    what LLVM identifies them with inside one module: instructions and blocks
    by a number standing for their address, functions and globals by name. *)
Inductive value : Type :=
| VConstInt (bits : N) (v : Z)        (* ConstantInt, an APInt of that width *)
| VArg (f : string) (no : nat)         (* Argument [no] of function [f] *)
| VInst (id : N)                       (* the value an instruction defines *)
| VGlobal (g : string)                 (* GlobalVariable *)
| VFunc (f : string)                   (* Function used as an operand *)
| VOther (bits : option N) (n : N).    (* undef, null, constant expressions *)

#[global] Instance value_eq_dec : EqDecision value.
Proof. solve_decision. Defined.

#[global] Instance value_countable : Countable value.
Proof.
  refine (inj_countable'
    (λ v, match v with
          | VConstInt b z => inl (inl (b, z))
          | VArg f n => inl (inr (f, n))
          | VInst i => inr (inl (inl i))
          | VGlobal g => inr (inl (inr g))
          | VFunc f => inr (inr (inl f))
          | VOther b n => inr (inr (inr (b, n)))
          end)
    (λ e, match e with
          | inl (inl (b, z)) => VConstInt b z
          | inl (inr (f, n)) => VArg f n
          | inr (inl (inl i)) => VInst i
          | inr (inl (inr g)) => VGlobal g
          | inr (inr (inl f)) => VFunc f
          | inr (inr (inr (b, n))) => VOther b n
          end) _).
  by intros [].
Defined.

Inductive binop : Type :=
| Add | Sub | Mul | UDiv | SDiv | URem | SRem | Shl | LShr | AShr | And | Or | Xor
| OtherBinop.                          (* FAdd, FSub, ...: the default case *)

Inductive castop : Type :=
| Trunc | ZExt | SExt
| OtherCast.                           (* PtrToInt, BitCast, FPToUI, ... *)

Inductive icmp_pred : Type :=
| ICMP_EQ | ICMP_NE | ICMP_UGT | ICMP_UGE | ICMP_ULT | ICMP_ULE
| ICMP_SGT | ICMP_SGE | ICMP_SLT | ICMP_SLE.

Inductive inst_kind : Type :=
| Binary (op : binop) (lhs rhs : value)
| Cast (op : castop) (x : value)
| Select (c tval fval : value)
| Phi (incoming : list (value * N))
| Load (addr : value)
| Store (val ptr : value)
| Call (callee : value) (args : list value)
| ICmp (p : icmp_pred) (lhs rhs : value)
| FCmp (lhs rhs : value)
| Br (dest : N)
| CondBr (cond : value) (iftrue iffalse : N)
| Switch (cond : value) (default : N) (cases : list (Z * N))
| Ret (v : option value)
| GetElementPtr (base : value) (indices : list value)
| OtherInst (is_terminator : bool) (operands : list value) (succs : list N).

Record instruction : Type := MkInstruction {
  i_id : N;
  i_ty : ty;
  i_kind : inst_kind
}.

Record block : Type := MkBlock {
  b_id : N;
  b_insts : list instruction
}.

(** A function with no block is a declaration. *)
Record function : Type := MkFunction {
  f_name : string;
  f_ret : ty;
  f_params : list ty;
  f_blocks : list block
}.

Inductive initializer : Type :=
| InitInt (bits : N) (v : Z)           (* ConstantInt *)
| InitDataArray (elts : list (option (N * Z)))
                                       (* ConstantDataArray; [None]: an element that
                                          is no ConstantInt (a float) *)
| InitOther.                           (* zeroinitializer, undef, structs, ... *)

Record global : Type := MkGlobal {
  g_name : string;
  g_valty : ty;
  g_addrspace : N;
  g_init : option initializer
}.

Record module : Type := MkModule {
  m_funcs : list function;
  m_globals : list global
}.

(** ** [llvm::ConstantRange] *)

Module ConstantRange.

(** A range of [getBitWidth] bits is the pair of APInts [Lower, Upper),
    kept as integers in [0, 2^getBitWidth). *)
Record t : Type := Make {
  getBitWidth : N;
  getLower : Z;
  getUpper : Z
}.

#[global] Instance t_eq_dec : EqDecision t.
Proof. solve_decision. Defined.

Definition max_value (bits : N) : Z := 2 ^ Z.of_N bits - 1.
Definition wrap (bits : N) (z : Z) : Z := z mod 2 ^ Z.of_N bits.

(** [ConstantRange(BitWidth, Full)]: both bounds are the maximal value for
    the full set and the minimal value for the empty set. *)
Definition getFull (bits : N) : t := Make bits (max_value bits) (max_value bits).
Definition getEmpty (bits : N) : t := Make bits 0 0.

(** [ConstantRange(APInt V)]: the single element [V]. *)
Definition ofAPInt (bits : N) (v : Z) : t :=
  Make bits (wrap bits v) (wrap bits (v + 1)).

Definition isFullSet (c : t) : bool :=
  bool_decide (getLower c = getUpper c) && bool_decide (getLower c = max_value (getBitWidth c)).

Definition isEmptySet (c : t) : bool :=
  bool_decide (getLower c = getUpper c) && bool_decide (getLower c = 0).

Definition isUpperWrapped (c : t) : bool := bool_decide (getUpper c < getLower c).

Definition getUnsignedMax (c : t) : Z :=
  if isFullSet c || isUpperWrapped c then max_value (getBitWidth c)
  else wrap (getBitWidth c) (getUpper c - 1).

Definition inverse (c : t) : t :=
  if isFullSet c then getEmpty (getBitWidth c)
  else if isEmptySet c then getFull (getBitWidth c)
  else Make (getBitWidth c) (getUpper c) (getLower c).

(** [APInt::getLimitedValue()] with its default limit [UINT64_MAX]. *)
Definition getLimitedValue (v : Z) : Z := Z.min v (2 ^ 64 - 1).

(** The operations taken from LLVM as they are. *)
Record Ops : Type := {
  unionWith : t → t → t;
  intersectWith : t → t → t;
  makeAllowedICmpRegion : icmp_pred → t → t;
  truncate : t → N → t;
  zeroExtend : t → N → t;
  signExtend : t → N → t;
  add : t → t → t;
  sub : t → t → t;
  multiply : t → t → t;
  udiv : t → t → t;
  sdiv : t → t → t;
  urem : t → t → t;
  srem : t → t → t;
  shl : t → t → t;
  lshr : t → t → t;
  ashr : t → t → t;
  binaryAnd : t → t → t;
  binaryOr : t → t → t;
  binaryXor : t → t → t
}.

(** [zextOrTrunc] is written in terms of the two it dispatches to. *)
Definition zextOrTrunc (ops : Ops) (c : t) (dst : N) : t :=
  if (dst <? getBitWidth c)%N then truncate ops c dst
  else if (getBitWidth c <? dst)%N then zeroExtend ops c dst
  else c.

End ConstantRange.

(** [struct crange : public ConstantRange]. *)
Abbreviation crange := ConstantRange.t.

(** [crange(uint32_t bw)]: the full set by default. *)
Definition crange_of_width (bw : N) : crange := ConstantRange.getFull bw.

(** [crange()]: [ConstantRange(0, true)], what [operator[]] of the maps below
    inserts for a missing key. *)
Definition crange_default : crange := ConstantRange.getFull 0.

#[global] Instance crange_inhabited : Inhabited crange := populate crange_default.

(** ** Walking the module *)

Definition isDeclaration (F : function) : bool :=
  match f_blocks F with [] => true | _ => false end.

Definition find_func (m : module) (name : string) : option function :=
  List.find (λ F, bool_decide (f_name F = name)) (m_funcs m).

(** [CallBase::getCalledFunction()]: the callee when it is a function of the
    module, null for an indirect call. *)
Definition getCalledFunction (m : module) (callee : value) : option function :=
  match callee with
  | VFunc f => find_func m f
  | _ => None
  end.

(** [instructions(F)]. *)
Definition instructions (F : function) : list instruction :=
  flat_map b_insts (f_blocks F).

(** The value operands of an instruction (successor blocks and the constants
    of switch cases are left out: nothing asks for their users). *)
Definition operands (k : inst_kind) : list value :=
  match k with
  | Binary _ l r => [l; r]
  | Cast _ x => [x]
  | Select c t f => [c; t; f]
  | Phi incoming => incoming.*1
  | Load a => [a]
  | Store v p => [v; p]
  | Call callee args => args ++ [callee]
  | ICmp _ l r => [l; r]
  | FCmp l r => [l; r]
  | Br _ => []
  | CondBr c _ _ => [c]
  | Switch c _ _ => [c]
  | Ret v => option_list v
  | GetElementPtr b idx => b :: idx
  | OtherInst _ ops _ => ops
  end.

(** The use list of a value: one entry per operand slot that holds it, with
    the function the user stands in.  LLVM keeps use lists in an order of its
    own, which the text of a module does not fix; the model enumerates them
    in program order.  The traversals of the taint phase visit every user
    whatever one of them returns; the order of the users shows in the order
    in which functions enter [m_taint_funcs]. *)
Definition uses (m : module) (v : value) : list (function * instruction) :=
  F ← m_funcs m;
  i ← instructions F;
  _ ← filter (λ o, o = v) (operands (i_kind i));
  [(F, i)].

(** [v->users()], restricted to the users that are instructions. *)
Definition users (m : module) (v : value) : list instruction := (uses m v).*2.

Definition use_empty (m : module) (v : value) : bool :=
  match uses m v with [] => true | _ => false end.

Definition isReturnInst (i : instruction) : bool :=
  match i_kind i with Ret _ => true | _ => false end.

Definition isPhi (i : instruction) : bool :=
  match i_kind i with Phi _ => true | _ => false end.

(** [CallBase::getArgOperand(i)] reads slot [i] of the operand list, in which
    the callee stands behind the arguments. *)
Definition getArgOperand (callee : value) (args : list value) (i : nat) : option value :=
  (args ++ [callee]) !! i.

(** [SetVector::insert]. *)
Definition setvector_insert {A} `{EqDecision A} (x : A) (l : list A) : list A :=
  if bool_decide (x ∈ l) then l else l ++ [x].

(** Instructions at which [is_sink_reachable] goes straight to the walk over
    the users: no store, and no call of a function with a body. *)
Definition no_callee_body (m : module) (k : inst_kind) : bool :=
  match k with
  | Store _ _ => false
  | Call callee _ =>
    match getCalledFunction m callee with
    | Some f => isDeclaration f
    | None => true
    end
  | _ => true
  end.

(** ** The members of [MKintPass] and the metadata of the module *)

Inductive interr : Type :=
| OVERFLOW | DIV_BY_ZERO | BAD_SHIFT | ARRAY_OOB | DEAD_TRUE_BR | DEAD_FALSE_BR.

#[global] Instance interr_eq_dec : EqDecision interr.
Proof. solve_decision. Defined.

(** mkint.cpp, lines 102-122. *)
Definition mkstr (err : interr) : string :=
  match err with
  | OVERFLOW => "integer overflow"
  | DIV_BY_ZERO => "divide by zero"
  | BAD_SHIFT => "bad shift"
  | ARRAY_OOB => "array index out of bound"
  | DEAD_TRUE_BR => "impossible true branch"
  | DEAD_FALSE_BR => "impossible false branch"
  end.

(** The error of a dead branch, by the flag [m_impossible_branches] keeps. *)
Definition dead_branch_err (is_tbr : bool) : interr :=
  if is_tbr then DEAD_TRUE_BR else DEAD_FALSE_BR.

(** Keys of [bbrange_t]: a block, or what [&F.getEntryBlock()] is for a
    function without blocks (the address of the list's sentinel). *)
Inductive bref : Type :=
| BlockRef (id : N)
| NoBlock.

#[global] Instance bref_eq_dec : EqDecision bref.
Proof. solve_decision. Defined.

#[global] Instance bref_countable : Countable bref.
Proof.
  refine (inj_countable'
    (λ b, match b with BlockRef i => Some i | NoBlock => None end)
    (λ o, match o with Some i => BlockRef i | None => NoBlock end) _).
  by intros [].
Defined.

(** [bbrange_t]. *)
Abbreviation bbrange_t := (gmap bref (gmap value crange)).

(** The three metadata kinds are kept as maps from the instruction (or the
    global) that carries the node to the node's string: [setMetadata] puts
    the node in the place of the one of its kind that is there, so an
    instruction carries at most one node of each kind.  The members keep the
    names they have in the class. *)
Record state : Type := MkState {
  md_taint : gmap N string;                  (* mkint.taint on instructions *)
  md_taint_global : gmap string string;      (* mkint.taint on globals *)
  md_sink : gmap N string;                   (* mkint.sink *)
  md_err : gmap N string;                    (* mkint.err *)
  m_func2tsrc : list (string * list instruction);
  m_taint_funcs : list string;
  m_backedges : gmap N (list N);
  m_func2range_info : gmap string bbrange_t;
  m_func2ret_range : gmap string crange;
  m_range_analysis_funcs : list string;
  m_global2range : gmap string crange;
  m_garr2ranges : gmap string (list crange);
  m_impossible_branches : gmap N bool;
  m_gep_oob : gset N
}.

Definition empty_state : state :=
  MkState ∅ ∅ ∅ ∅ [] [] ∅ ∅ ∅ [] ∅ ∅ ∅ ∅.

Definition set_md_taint (x : gmap N string) (s : state) : state :=
  MkState x (md_taint_global s) (md_sink s) (md_err s) (m_func2tsrc s) (m_taint_funcs s)
    (m_backedges s) (m_func2range_info s) (m_func2ret_range s) (m_range_analysis_funcs s)
    (m_global2range s) (m_garr2ranges s) (m_impossible_branches s) (m_gep_oob s).
Definition set_md_taint_global (x : gmap string string) (s : state) : state :=
  MkState (md_taint s) x (md_sink s) (md_err s) (m_func2tsrc s) (m_taint_funcs s)
    (m_backedges s) (m_func2range_info s) (m_func2ret_range s) (m_range_analysis_funcs s)
    (m_global2range s) (m_garr2ranges s) (m_impossible_branches s) (m_gep_oob s).
Definition set_md_sink (x : gmap N string) (s : state) : state :=
  MkState (md_taint s) (md_taint_global s) x (md_err s) (m_func2tsrc s) (m_taint_funcs s)
    (m_backedges s) (m_func2range_info s) (m_func2ret_range s) (m_range_analysis_funcs s)
    (m_global2range s) (m_garr2ranges s) (m_impossible_branches s) (m_gep_oob s).
Definition set_md_err (x : gmap N string) (s : state) : state :=
  MkState (md_taint s) (md_taint_global s) (md_sink s) x (m_func2tsrc s) (m_taint_funcs s)
    (m_backedges s) (m_func2range_info s) (m_func2ret_range s) (m_range_analysis_funcs s)
    (m_global2range s) (m_garr2ranges s) (m_impossible_branches s) (m_gep_oob s).
Definition set_func2tsrc (x : list (string * list instruction)) (s : state) : state :=
  MkState (md_taint s) (md_taint_global s) (md_sink s) (md_err s) x (m_taint_funcs s)
    (m_backedges s) (m_func2range_info s) (m_func2ret_range s) (m_range_analysis_funcs s)
    (m_global2range s) (m_garr2ranges s) (m_impossible_branches s) (m_gep_oob s).
Definition set_taint_funcs (x : list string) (s : state) : state :=
  MkState (md_taint s) (md_taint_global s) (md_sink s) (md_err s) (m_func2tsrc s) x
    (m_backedges s) (m_func2range_info s) (m_func2ret_range s) (m_range_analysis_funcs s)
    (m_global2range s) (m_garr2ranges s) (m_impossible_branches s) (m_gep_oob s).
Definition set_backedges (x : gmap N (list N)) (s : state) : state :=
  MkState (md_taint s) (md_taint_global s) (md_sink s) (md_err s) (m_func2tsrc s) (m_taint_funcs s)
    x (m_func2range_info s) (m_func2ret_range s) (m_range_analysis_funcs s)
    (m_global2range s) (m_garr2ranges s) (m_impossible_branches s) (m_gep_oob s).
Definition set_func2range_info (x : gmap string bbrange_t) (s : state) : state :=
  MkState (md_taint s) (md_taint_global s) (md_sink s) (md_err s) (m_func2tsrc s) (m_taint_funcs s)
    (m_backedges s) x (m_func2ret_range s) (m_range_analysis_funcs s)
    (m_global2range s) (m_garr2ranges s) (m_impossible_branches s) (m_gep_oob s).
Definition set_func2ret_range (x : gmap string crange) (s : state) : state :=
  MkState (md_taint s) (md_taint_global s) (md_sink s) (md_err s) (m_func2tsrc s) (m_taint_funcs s)
    (m_backedges s) (m_func2range_info s) x (m_range_analysis_funcs s)
    (m_global2range s) (m_garr2ranges s) (m_impossible_branches s) (m_gep_oob s).
Definition set_range_analysis_funcs (x : list string) (s : state) : state :=
  MkState (md_taint s) (md_taint_global s) (md_sink s) (md_err s) (m_func2tsrc s) (m_taint_funcs s)
    (m_backedges s) (m_func2range_info s) (m_func2ret_range s) x
    (m_global2range s) (m_garr2ranges s) (m_impossible_branches s) (m_gep_oob s).
Definition set_global2range (x : gmap string crange) (s : state) : state :=
  MkState (md_taint s) (md_taint_global s) (md_sink s) (md_err s) (m_func2tsrc s) (m_taint_funcs s)
    (m_backedges s) (m_func2range_info s) (m_func2ret_range s) (m_range_analysis_funcs s)
    x (m_garr2ranges s) (m_impossible_branches s) (m_gep_oob s).
Definition set_garr2ranges (x : gmap string (list crange)) (s : state) : state :=
  MkState (md_taint s) (md_taint_global s) (md_sink s) (md_err s) (m_func2tsrc s) (m_taint_funcs s)
    (m_backedges s) (m_func2range_info s) (m_func2ret_range s) (m_range_analysis_funcs s)
    (m_global2range s) x (m_impossible_branches s) (m_gep_oob s).
Definition set_impossible_branches (x : gmap N bool) (s : state) : state :=
  MkState (md_taint s) (md_taint_global s) (md_sink s) (md_err s) (m_func2tsrc s) (m_taint_funcs s)
    (m_backedges s) (m_func2range_info s) (m_func2ret_range s) (m_range_analysis_funcs s)
    (m_global2range s) (m_garr2ranges s) x (m_gep_oob s).
Definition set_gep_oob (x : gset N) (s : state) : state :=
  MkState (md_taint s) (md_taint_global s) (md_sink s) (md_err s) (m_func2tsrc s) (m_taint_funcs s)
    (m_backedges s) (m_func2range_info s) (m_func2ret_range s) (m_range_analysis_funcs s)
    (m_global2range s) (m_garr2ranges s) (m_impossible_branches s) x.

(** mkint.cpp, lines 124-134: [inst->setMetadata(MKINT_IR_ERR, md)]. *)
Definition mark_err (err : interr) (inst : N) (s : state) : state :=
  set_md_err (<[inst := mkstr err]> (md_err s)) s.

(** mkint.cpp, lines 136-141. *)
Definition mark_taint (inst : instruction) (taint_name : string) (s : state) : state :=
  set_md_taint (<[i_id inst := taint_name]> (md_taint s)) s.

(** The lambda [mark_sink] of [mark_func_sinks], lines 645-649. *)
Definition mark_sink (inst : N) (sink_name : string) (s : state) : state :=
  set_md_sink (<[inst := sink_name]> (md_sink s)) s.

(** mkint.cpp, lines 64-66. *)
Definition MKINT_SINKS : list (string * nat) :=
  [("malloc", 0%nat); ("__mkint_sink0", 0%nat); ("__mkint_sink1", 1%nat); ("xmalloc", 0%nat);
   ("kmalloc", 0%nat); ("kzalloc", 0%nat); ("vmalloc", 0%nat)].

(** ** Rewriting the module ([get_taint_source]) *)

Definition all_instructions (m : module) : list instruction :=
  flat_map instructions (m_funcs m).

(** A number no instruction of the module has: the address of a new one. *)
Definition fresh_inst_id (m : module) : N :=
  N.succ (foldr N.max 0%N (i_id <$> all_instructions m)).

(** [Module::getOrInsertFunction(name, ret)] for a function type without
    parameters. *)
Definition getOrInsertFunction (m : module) (name : string) (ret : ty) : module :=
  match find_func m name with
  | Some _ => m
  | None => MkModule (m_funcs m ++ [MkFunction name ret [] []]) (m_globals m)
  end.

Definition subst_value (old new v : value) : value :=
  if bool_decide (v = old) then new else v.

Definition subst_kind (old new : value) (k : inst_kind) : inst_kind :=
  let r := subst_value old new in
  match k with
  | Binary op a b => Binary op (r a) (r b)
  | Cast op x => Cast op (r x)
  | Select c a b => Select (r c) (r a) (r b)
  | Phi incoming => Phi (prod_map r id <$> incoming)
  | Load a => Load (r a)
  | Store v q => Store (r v) (r q)
  | Call callee args => Call (r callee) (r <$> args)
  | ICmp q a b => ICmp q (r a) (r b)
  | FCmp a b => FCmp (r a) (r b)
  | Br d => Br d
  | CondBr c a b => CondBr (r c) a b
  | Switch c d cases => Switch (r c) d cases
  | Ret v => Ret (r <$> v)
  | GetElementPtr b idx => GetElementPtr (r b) (r <$> idx)
  | OtherInst t ops succs => OtherInst t (r <$> ops) succs
  end.

Definition map_instructions (g : instruction → instruction) (m : module) : module :=
  MkModule
    ((λ F, MkFunction (f_name F) (f_ret F) (f_params F)
             ((λ b, MkBlock (b_id b) (g <$> b_insts b)) <$> f_blocks F)) <$> m_funcs m)
    (m_globals m).

(** [old->replaceAllUsesWith(new)]. *)
Definition replaceAllUsesWith (old new : value) (m : module) : module :=
  map_instructions (λ i, MkInstruction (i_id i) (i_ty i) (subst_kind old new (i_kind i))) m.

(** Insertion before [getFirstInsertionPt()]: behind the leading phis. *)
Fixpoint insert_behind_phis (new : instruction) (l : list instruction) : list instruction :=
  match l with
  | i :: l' => if isPhi i then i :: insert_behind_phis new l' else new :: l
  | [] => [new]
  end.

Definition insert_in_entry (fname : string) (new : instruction) (m : module) : module :=
  MkModule
    ((λ F, if bool_decide (f_name F = fname) then
             match f_blocks F with
             | entry :: bs =>
               MkFunction (f_name F) (f_ret F) (f_params F)
                 (MkBlock (b_id entry) (insert_behind_phis new (b_insts entry)) :: bs)
             | [] => F
             end
           else F) <$> m_funcs m)
    (m_globals m).

(** [F.args()]. *)
Definition args_of (F : function) : list value :=
  imap (λ no _, VArg (f_name F) no) (f_params F).

(** ** Control flow *)

Definition find_inst (m : module) (id : N) : option instruction :=
  List.find (λ i, bool_decide (i_id i = id)) (all_instructions m).

Definition global_addrspace (m : module) (g : string) : N :=
  default 0%N (g_addrspace <$> List.find (λ G, bool_decide (g_name G = g)) (m_globals m)).

(** [v->getType()]. *)
Definition type_of (m : module) (v : value) : ty :=
  match v with
  | VConstInt bits _ => TInt bits
  | VArg f no => default (TOther 0) (find_func m f ≫= λ F, f_params F !! no)
  | VInst id => default (TOther 0) (i_ty <$> find_inst m id)
  | VGlobal g => TPtr (global_addrspace m g)
  | VFunc _ => TPtr 0
  | VOther (Some bits) _ => TInt bits
  | VOther None _ => TOther 0
  end.

Definition isConstantInt (v : value) : bool :=
  match v with VConstInt _ _ => true | _ => false end.

Definition isTerminator (k : inst_kind) : bool :=
  match k with
  | Br _ | CondBr _ _ _ | Switch _ _ _ | Ret _ => true
  | OtherInst t _ _ => t
  | _ => false
  end.

(** [BasicBlock::getTerminator()]: the last instruction when it is a
    terminator, null otherwise. *)
Definition getTerminator (b : block) : option instruction :=
  match last (b_insts b) with
  | Some i => if isTerminator (i_kind i) then Some i else None
  | None => None
  end.

Definition successors_of (k : inst_kind) : list N :=
  match k with
  | Br d => [d]
  | CondBr _ t f => [t; f]
  | Switch _ d cases => d :: cases.*2
  | OtherInst true _ succs => succs
  | _ => []
  end.

(** [successors(bb)]. *)
Definition successors (b : block) : list N :=
  match getTerminator b with
  | Some t => successors_of (i_kind t)
  | None => []
  end.

Definition find_block (F : function) (id : N) : option block :=
  List.find (λ b, bool_decide (b_id b = id)) (f_blocks F).

(** [predecessors(bb)]: one entry per edge into [bb].  This is a walk over
    the use list of the block, in an order the text of a module does not
    fix; the model takes the blocks in layout order.  On a block with
    several predecessors the ranges and the impossible branches the merges
    leave depend on that order ([dead_edge_merged_first_is_recorded]). *)
Definition predecessors (F : function) (bb : N) : list block :=
  P ← f_blocks F;
  _ ← filter (λ d, d = bb) (successors P);
  [P].

(** [&F.getEntryBlock()]. *)
Definition getEntryBlock (F : function) : bref :=
  match f_blocks F with
  | b :: _ => BlockRef (b_id b)
  | [] => NoBlock
  end.

(** [CmpInst::getInversePredicate] and [CmpInst::getSwappedPredicate]. *)
Definition getInversePredicate (p : icmp_pred) : icmp_pred :=
  match p with
  | ICMP_EQ => ICMP_NE | ICMP_NE => ICMP_EQ
  | ICMP_UGT => ICMP_ULE | ICMP_ULE => ICMP_UGT
  | ICMP_UGE => ICMP_ULT | ICMP_ULT => ICMP_UGE
  | ICMP_SGT => ICMP_SLE | ICMP_SLE => ICMP_SGT
  | ICMP_SGE => ICMP_SLT | ICMP_SLT => ICMP_SGE
  end.

Definition getSwappedPredicate (p : icmp_pred) : icmp_pred :=
  match p with
  | ICMP_EQ => ICMP_EQ | ICMP_NE => ICMP_NE
  | ICMP_UGT => ICMP_ULT | ICMP_ULT => ICMP_UGT
  | ICMP_UGE => ICMP_ULE | ICMP_ULE => ICMP_UGE
  | ICMP_SGT => ICMP_SLT | ICMP_SLT => ICMP_SGT
  | ICMP_SGE => ICMP_SLE | ICMP_SLE => ICMP_SGE
  end.

Section MKint.

Context (cr : ConstantRange.Ops).
Context (demangle : string → string).

(** [crange::cmpRegion()]. *)
Definition cmpRegion : icmp_pred → crange → crange :=
  ConstantRange.makeAllowedICmpRegion cr.

(** mkint.cpp, lines 177-185. *)
Definition auto_promote (lhs rhs : crange) : crange * crange :=
  if (ConstantRange.getBitWidth lhs <? ConstantRange.getBitWidth rhs)%N then
    (ConstantRange.zextOrTrunc cr lhs (ConstantRange.getBitWidth lhs), rhs)
  else if (ConstantRange.getBitWidth rhs <? ConstantRange.getBitWidth lhs)%N then
    (lhs, ConstantRange.zextOrTrunc cr rhs (ConstantRange.getBitWidth rhs))
  else (lhs, rhs).

(** mkint.cpp, lines 187-224. *)
Definition compute_binary_rng (op : binop) (lhs_ rhs_ : crange) : crange :=
  let '(lhs, rhs) := auto_promote lhs_ rhs_ in
  match op with
  | Add => ConstantRange.add cr lhs rhs
  | Sub => ConstantRange.sub cr lhs rhs
  | Mul => ConstantRange.multiply cr lhs rhs
  | UDiv => ConstantRange.udiv cr lhs rhs
  | SDiv => ConstantRange.sdiv cr lhs rhs
  | Shl => ConstantRange.shl cr lhs rhs
  | LShr => ConstantRange.lshr cr lhs rhs
  | AShr => ConstantRange.ashr cr lhs rhs
  | And => ConstantRange.binaryAnd cr lhs rhs
  | Or => ConstantRange.binaryOr cr lhs rhs
  | Xor => ConstantRange.binaryXor cr lhs rhs
  | URem => ConstantRange.urem cr lhs rhs
  | SRem => ConstantRange.srem cr lhs rhs
  | OtherBinop => rhs
  end.

(** ** Taint sources and sinks *)

(** mkint.cpp, lines 143-148. *)
Definition is_taint_src (sv : string) : bool :=
  let name := demangle sv in
  String.prefix "sys_" name || String.prefix "__mkint_ann_" name.

(** mkint.cpp, lines 150-173.  The function rewrites the module: for every
    used integer argument of a source it declares [<name>.mkint.arg<no>],
    puts a call to it in the entry block and replaces the argument by the
    call. *)
Definition get_taint_source (F : function) (m : module) : list instruction * module :=
  let name := f_name F in
  if is_taint_src name then
    foldl (λ '(ret, m) '(no, t),
             match t with
             | TInt _ =>
               if use_empty m (VArg name no) then (ret, m)
               else
                 let call_name := name +:+ ".mkint.arg" +:+ pretty no in
                 let m := getOrInsertFunction m call_name t in
                 let call_inst :=
                   MkInstruction (fresh_inst_id m) t (Call (VFunc call_name) []) in
                 let m := insert_in_entry name call_inst m in
                 (ret ++ [call_inst], replaceAllUsesWith (VArg name no) (VInst (i_id call_inst)) m)
             | _ => (ret, m)
             end)
          ([], m) (imap pair (f_params F))
  else ([], m).

(** The loop over [MKINT_SINKS] for one call, lines 654-667.  The callee's
    name is read through [getCalledFunction()] without a null check. *)
Fixpoint mark_call_sinks (m : module) (callee : value) (args : list value)
    (sinks : list (string * nat)) (s : state) : result state :=
  match sinks with
  | [] => Done s
  | (name, idx) :: sinks' =>
    match getCalledFunction m callee with
    | None => Aborted
    | Some f =>
      let demangled_func_name := demangle (f_name f) in
      if bool_decide (demangled_func_name = name) then
        match getArgOperand callee args idx with
        | Some (VInst arg) => Done (mark_sink arg name s)
        | Some _ => Done s
        | None => Aborted
        end
      else mark_call_sinks m callee args sinks' s
    end
  end.

(** Lines 651-669: the sink arguments of the calls in [F]. *)
Definition mark_sink_args (m : module) (F : function) (s : state) : result state :=
  for_each (λ inst s,
      match i_kind inst with
      | Call callee args => mark_call_sinks m callee args MKINT_SINKS s
      | _ => Done s
      end) (instructions F) s.

(** mkint.cpp, lines 643-695. *)
Definition mark_func_sinks (m : module) (F : function) (s : state) : result state :=
  s ← mark_sink_args m F s;
  if is_taint_src (f_name F) && isIntegerTy (f_ret F) && negb (use_empty m (VFunc (f_name F))) then
    let valid_use :=
      existsb (λ u, negb (is_taint_src (f_name u.1))) (uses m (VFunc (f_name F))) in
    if negb valid_use then Done s
    else Done (foldl (λ s inst, if isReturnInst inst then mark_sink (i_id inst) "return" s else s)
                 s (instructions F))
  else Done s.

(** ** Taint propagation *)

(** mkint.cpp, lines 516-530. *)
Definition get_sink_fns (m : module) (inst : instruction) : result (list string) :=
  for_each (λ user ret,
      match i_kind user with
      | Call callee _ =>
        match getCalledFunction m callee with
        | None => Aborted
        | Some f =>
          if bool_decide (demangle (f_name f) ∈ MKINT_SINKS.*1) then Done (ret ++ [f_name f])
          else Done ret
        end
      | _ => Done ret
      end) (users m (VInst (i_id inst))) [].

(** mkint.cpp, lines 625-641, with the recursive call as an argument. *)
Definition taint_bcast_sink_args (reach : instruction → state → result (bool * state))
    (m : module) (taint_source : list value) (s : state) : result (bool * state) :=
  for_each_or (λ ts s,
      for_each_or (λ user_inst s,
          '(r, s) ← reach user_inst s;
          if r : bool then Done (true, mark_taint user_inst "" s) else Done (false, s))
        (users m ts) false s)
    taint_source false s.

(** mkint.cpp, lines 532-600.  The C++ recursion has no bound of its own;
    [fuel] bounds its depth. *)
Fixpoint is_sink_reachable (fuel : nat) (m : module) (inst : instruction) (s : state)
    {struct fuel} : result (bool * state) :=
  match fuel with
  | O => NoFuel
  | S fuel =>
    if bool_decide (is_Some (md_sink s !! i_id inst)) then
      fns ← get_sink_fns m inst;
      Done (true, set_taint_funcs (foldl (λ l f, setvector_insert f l) (m_taint_funcs s) fns) s)
    else
      match i_kind inst with
      | Store _ (VGlobal gv) =>
        '(you_see_sink, s) ←
          for_each_or (λ user s,
              if bool_decide (i_id user = i_id inst) then Done (false, s)
              else is_sink_reachable fuel m user s)
            (users m (VGlobal gv)) false s;
        if you_see_sink : bool then
          let s := mark_taint inst "" s in
          Done (true, set_md_taint_global
                        (partial_alter (λ _, md_taint s !! i_id inst) gv (md_taint_global s)) s)
        else Done (false, s)
      | Store _ _ => Done (false, s)
      | k =>
        '(you_see_sink, s) ←
          match k with
          | Call callee _ =>
            match getCalledFunction m callee with
            | Some f =>
              if negb (isDeclaration f) then
                '(r, s) ← taint_bcast_sink_args (is_sink_reachable fuel m) m (args_of f) s;
                if r : bool then Done (true, set_taint_funcs (setvector_insert (f_name f) (m_taint_funcs s)) s)
                else Done (false, s)
              else Done (false, s)
            | None => Done (false, s)
            end
          | _ => Done (false, s)
          end;
        '(you_see_sink, s) ←
          for_each_or (is_sink_reachable fuel m) (users m (VInst (i_id inst))) you_see_sink s;
        if you_see_sink : bool then
          let s := mark_taint inst "" s in
          match k with
          | Call callee _ =>
            match getCalledFunction m callee with
            | Some f =>
              if negb (isVoidTy (f_ret f)) then
                Done (true, set_taint_funcs (setvector_insert (f_name f) (m_taint_funcs s)) s)
              else Done (true, s)
            | None => Done (true, s)
            end
          | _ => Done (true, s)
          end
        else Done (false, s)
      end
  end.

(** mkint.cpp, lines 602-623. *)
Definition taint_bcast_sink (fuel : nat) (m : module) (taint_source : list instruction)
    (s : state) : result (bool * state) :=
  for_each_or (λ ts s,
      '(r, s) ← is_sink_reachable fuel m ts s;
      if r : bool then Done (true, mark_taint ts "source" s) else Done (false, s))
    taint_source false s.

(** ** Back edges *)

(** The worklist loop of lines 234-244.  [stack] is [remote_succs] with its
    back at the head, [seen] is [m_backedges[bb]].  Every round pops one block
    and pushes only blocks that enter [seen], so the number of successor
    slots of the function, plus one, bounds the rounds: [backedge_analysis]
    sets [fuel] to that. *)
Fixpoint remote_succs_loop (fuel : nat) (F : function) (bb : N) (stack seen : list N) : list N :=
  match fuel, stack with
  | S fuel, cur_succ :: stack =>
    let '(stack, seen) :=
      foldl (λ '(stack, seen) succ,
               if bool_decide (succ ≠ bb) && negb (bool_decide (succ ∈ seen))
               then (succ :: stack, setvector_insert succ seen)
               else (stack, seen))
            (stack, seen)
            (default [] (successors <$> find_block F cur_succ)) in
    remote_succs_loop fuel F bb stack seen
  | _, _ => seen
  end.

(** mkint.cpp, lines 227-247. *)
Definition backedge_analysis (F : function) (s : state) : state :=
  foldl (λ s bb,
           match m_backedges s !! b_id bb with
           | Some _ => s
           | None =>
             let fuel := S (length (flat_map successors (f_blocks F))) in
             set_backedges
               (<[b_id bb := remote_succs_loop fuel F (b_id bb) [b_id bb] []]> (m_backedges s)) s
           end)
        s (f_blocks F).

(** [m_backedges[bb].contains(pred)]. *)
Definition is_backedge (s : state) (bb pred : N) : bool :=
  bool_decide (pred ∈ default [] (m_backedges s !! bb)).

(** ** Range analysis *)

(** [m_func2range_info[&F]] and [bb_range[bb]] as values; a missing key reads
    as the empty map [operator[]] would insert. *)
Definition bb_range (s : state) (F : string) : bbrange_t :=
  default ∅ (m_func2range_info s !! F).

Definition rng_at (s : state) (F : string) (bb : bref) : gmap value crange :=
  default ∅ (bb_range s F !! bb).

(** [bb_range[bb] = x]. *)
Definition set_rng_at (F : string) (bb : bref) (x : gmap value crange) (s : state) : state :=
  set_func2range_info (<[F := <[bb := x]> (bb_range s F)]> (m_func2range_info s)) s.

(** [bb_range[bb][v] = r]. *)
Definition set_rng (F : string) (bb : bref) (v : value) (r : crange) (s : state) : state :=
  set_rng_at F bb (<[v := r]> (rng_at s F bb)) s.

(** The lambda [get_range_by_bb], lines 260-271, for the function [F] whose
    [bb_range] it captures.  (A read through [operator[]] also inserts what it
    misses, an empty block map or [crange()] for a global; those insertions
    are not tracked.) *)
Definition get_range_by_bb (s : state) (F : string) (var : value) (bb : bref) : result crange :=
  match var with
  | VConstInt bits v => Done (ConstantRange.ofAPInt bits v)
  | _ =>
    match rng_at s F bb !! var with
    | Some r => Done r
    | None =>
      match var with
      | VGlobal gv => Done (default crange_default (m_global2range s !! gv))
      | _ => MKINT_CHECK_ABORT
      end
    end
  end.

(** Lines 289-337: the merge over a conditional branch [pred -> bb] whose
    condition is the comparison [cmp = icmp p lhs rhs]; [br_true] is
    [br->getSuccessor(0)].  The two arms of [if (is_true_br)] differ in the
    predicates only (the false arm takes the inverse predicate for both
    operands), so they are written once. *)
Definition merge_cond_br (m : module) (F : string) (bb pred : N) (br_true : N)
    (cmp : N) (p : icmp_pred) (lhs rhs : value) (s : state) : result state :=
  if negb (isIntegerTy (type_of m lhs)) || negb (isIntegerTy (type_of m rhs))
  then MKINT_CHECK_ABORT
  else
    lrng ← get_range_by_bb s F lhs (BlockRef pred);
    rrng ← get_range_by_bb s F rhs (BlockRef pred);
    let cur_rng := rng_at s F (BlockRef bb) in
    let cur_rng :=
      match cur_rng !! lhs with
      | None => <[lhs := ConstantRange.getEmpty (getIntegerBitWidth (type_of m lhs))]> cur_rng
      | Some _ => cur_rng
      end in
    let cur_rng :=
      match cur_rng !! rhs with
      | None => <[rhs := ConstantRange.getEmpty (getIntegerBitWidth (type_of m rhs))]> cur_rng
      | Some _ => cur_rng
      end in
    let is_true_br := bool_decide (br_true = bb) in
    let lprng :=
      cmpRegion (if is_true_br then p else getInversePredicate p) rrng in
    let rprng :=
      cmpRegion (if is_true_br then getSwappedPredicate p else getInversePredicate p) lrng in
    let cur_rng :=
      <[lhs := if isConstantInt lhs then lrng
               else ConstantRange.unionWith cr (ConstantRange.intersectWith cr lrng lprng)
                      (default crange_default (cur_rng !! lhs))]> cur_rng in
    let cur_rng :=
      <[rhs := if isConstantInt rhs then rrng
               else ConstantRange.unionWith cr (ConstantRange.intersectWith cr rrng rprng)
                      (default crange_default (cur_rng !! rhs))]> cur_rng in
    let s := set_rng_at F (BlockRef bb) cur_rng s in
    if ConstantRange.isEmptySet (default crange_default (cur_rng !! lhs))
       || ConstantRange.isEmptySet (default crange_default (cur_rng !! rhs))
    then Done (set_impossible_branches (<[cmp := is_true_br]> (m_impossible_branches s)) s)
    else Done s.

(** Lines 353-378: the merge over a switch [pred -> bb].  The range of the
    condition is read with [get_range_by_bb(cond, bb)], in the block being
    merged into. *)
Definition merge_switch (m : module) (F : string) (bb : N) (cond : value) (default_dest : N)
    (cases : list (Z * N)) (s : state) : result state :=
  cond_rng ← get_range_by_bb s F cond (BlockRef bb);
  let bits := getIntegerBitWidth (type_of m cond) in
  let emp_rng := ConstantRange.getEmpty bits in
  let emp_rng :=
    if bool_decide (default_dest = bb) then
      ConstantRange.inverse
        (foldl (λ emp_rng c, ConstantRange.unionWith cr emp_rng (ConstantRange.ofAPInt bits c.1))
               emp_rng cases)
    else
      foldl (λ emp_rng c,
               if bool_decide (c.2 = bb)
               then ConstantRange.unionWith cr emp_rng (ConstantRange.ofAPInt bits c.1)
               else emp_rng)
            emp_rng cases in
  Done (set_rng F (BlockRef bb) cond (ConstantRange.unionWith cr cond_rng emp_rng) s).

(** Lines 385-394: every range of [bb_range[pred]] that was not narrowed is
    copied into [cur_rng] or united with what is there.  Each key is treated
    on its own, so the walk over the map is one [union_with]; the walk as it
    is written follows as [merge_rest_walk]. *)
Definition merge_rest (F : string) (bb pred : N) (narrowed_insts : list value) (s : state) : state :=
  set_rng_at F (BlockRef bb)
    (union_with (λ cur rng, Some (ConstantRange.unionWith cr cur rng))
       (rng_at s F (BlockRef bb))
       (filter (λ kv, kv.1 ∉ narrowed_insts) (rng_at s F (BlockRef pred))))
    s.

(** Lines 385-394 as they are written, for the entries of [bb_range[pred]] in
    the order the walk over the [DenseMap] yields them. *)
Definition merge_rest_walk (F : string) (bb : N) (entries : list (value * crange))
    (narrowed_insts : list value) (s : state) : state :=
  set_rng_at F (BlockRef bb)
    (foldl (λ cur_rng '(inst, rng),
              if bool_decide (inst ∈ narrowed_insts) then cur_rng
              else
                match cur_rng !! inst with
                | None => <[inst := rng]> cur_rng
                | Some cur => <[inst := ConstantRange.unionWith cr cur rng]> cur_rng
                end)
           (rng_at s F (BlockRef bb)) entries)
    s.

(** Lines 274-395, the body of the loop over [predecessors(bb)]. *)
Definition merge_pred (m : module) (F : string) (bb : N) (pred : block) (s : state) : result state :=
  if is_backedge s bb (b_id pred) then Done s
  else
    match getTerminator pred with
    | None => Aborted
    | Some terminator =>
      match i_kind terminator with
      | Br _ => Done (merge_rest F bb (b_id pred) [] s)
      | CondBr (VInst c) br_true _ =>
        match i_kind <$> find_inst m c with
        | Some (ICmp p lhs rhs) =>
          s ← merge_cond_br m F bb (b_id pred) br_true c p lhs rhs s;
          Done (merge_rest F bb (b_id pred) [lhs; rhs] s)
        | _ => Done (merge_rest F bb (b_id pred) [] s)
        end
      | CondBr _ _ _ => Done (merge_rest F bb (b_id pred) [] s)
      | Switch cond default_dest cases =>
        if negb (isIntegerTy (type_of m cond)) then Done s
        else
          s ← merge_switch m F bb cond default_dest cases s;
          Done (merge_rest F bb (b_id pred) [cond] s)
      | _ => MKINT_CHECK_ABORT
      end
    end.

(** Lines 482-503: the range of a load.  For a load through
    [getelementptr garr, i, idx] of a global array with recorded ranges, the
    gep enters [m_gep_oob] when the unsigned maximum of the range of [idx]
    reaches the number of recorded elements. *)
Definition load_range (m : module) (F : string) (bb : N) (inst : instruction) (addr : value)
    (new_range : crange) (s : state) : result (crange * state) :=
  match addr with
  | VGlobal _ =>
    r ← get_range_by_bb s F addr (BlockRef bb);
    Done (r, s)
  | VInst gep =>
    match i_kind <$> find_inst m gep with
    | Some (GetElementPtr (VGlobal garr) [_; idx]) =>
      match m_garr2ranges s !! garr with
      | Some ranges =>
        let arr_size := Z.of_nat (length ranges) in
        idx_rng ← get_range_by_bb s F idx (BlockRef bb);
        let idx_max := ConstantRange.getLimitedValue (ConstantRange.getUnsignedMax idx_rng) in
        if bool_decide (arr_size ≤ idx_max) then
          Done (new_range, set_gep_oob ({[gep]} ∪ m_gep_oob s) s)
        else Done (new_range, s)
      | None => Done (new_range, s)
      end
    | Some (GetElementPtr _ _) => Done (new_range, s)
    | _ => Done (crange_of_width (getIntegerBitWidth (i_ty inst)), s)
    end
  | _ => Done (crange_of_width (getIntegerBitWidth (i_ty inst)), s)
  end.

(** Lines 397-512, the body of the loop over the instructions of [bb]. *)
Definition visit_inst (m : module) (F : function) (bb : N) (inst : instruction) (s : state)
    : result state :=
  let fn := f_name F in
  let get_rng := λ (s : state) var, get_range_by_bb s fn var (BlockRef bb) in
  match i_kind inst with
  | Call callee args =>
    match getCalledFunction m callee with
    | Some f =>
      s ← for_each (λ '(no, t) s,
             if isIntegerTy t then
               match getArgOperand callee args no with
               | Some a =>
                 r ← get_rng s a;
                 let arg := VArg (f_name f) no in
                 let argblock := rng_at s (f_name f) (getEntryBlock f) in
                 Done (set_rng (f_name f) (getEntryBlock f) arg
                         (ConstantRange.unionWith cr r (default crange_default (argblock !! arg))) s)
               | None => Aborted
               end
             else
               Done (set_rng_at (f_name f) (getEntryBlock f)
                       (rng_at s (f_name f) (getEntryBlock f)) s)) (imap pair (f_params f)) s;
      if isIntegerTy (f_ret f) then
        Done (set_rng fn (BlockRef bb) (VInst (i_id inst))
                (default crange_default (m_func2ret_range s !! f_name f)) s)
      else Done s
    | None => Done s
    end
  | Store val ptr =>
    valrng ← get_rng s val;
    let s :=
      match ptr with
      | VGlobal gv =>
        set_global2range
          (<[gv := ConstantRange.unionWith cr (default crange_default (m_global2range s !! gv)) valrng]>
             (m_global2range s)) s
      | _ => s
      end in
    Done (set_rng fn (BlockRef bb) ptr valrng s)
  | Ret v =>
    if isIntegerTy (f_ret F) then
      match v with
      | Some rv =>
        r ← get_rng s rv;
        Done (set_func2ret_range
                (<[fn := ConstantRange.unionWith cr r (default crange_default (m_func2ret_range s !! fn))]>
                   (m_func2ret_range s)) s)
      | None => Aborted
      end
    else Done s
  | k =>
    if negb (isIntegerTy (i_ty inst)) then Done s
    else
      let bits := getIntegerBitWidth (i_ty inst) in
      let new_range := ConstantRange.getEmpty bits in
      '(new_range, s) ←
        match k with
        | Binary op lhs rhs =>
          lhs_range ← get_rng s lhs;
          rhs_range ← get_rng s rhs;
          Done (compute_binary_rng op lhs_range rhs_range, s)
        | Select _ tval fval =>
          l ← get_rng s tval;
          r ← get_rng s fval;
          let '(lhs, rhs) := auto_promote l r in
          Done (ConstantRange.unionWith cr lhs rhs, s)
        | Cast op x =>
          inprng ← get_rng s x;
          Done (match op with
                | Trunc => ConstantRange.truncate cr inprng bits
                | ZExt => ConstantRange.zeroExtend cr inprng bits
                | SExt => ConstantRange.signExtend cr inprng bits
                | OtherCast => inprng
                end, s)
        | Phi incoming =>
          r ← for_each (λ '(v, pred) new_range,
                 if is_backedge s bb pred then Done new_range
                 else
                   r ← get_range_by_bb s fn v (BlockRef pred);
                   Done (ConstantRange.unionWith cr new_range r)) incoming new_range;
          Done (r, s)
        | Load addr => load_range m fn bb inst addr new_range s
        | _ => Done (new_range, s)
        end;
      Done (set_rng fn (BlockRef bb) (VInst (i_id inst))
              (ConstantRange.unionWith cr new_range
                 (default crange_default (rng_at s fn (BlockRef bb) !! VInst (i_id inst)))) s)
  end.

(** Lines 255-513, the body of the loop over the blocks of [F]. *)
Definition analyse_block (m : module) (F : function) (bb : block) (s : state) : result state :=
  let s := set_rng_at (f_name F) (BlockRef (b_id bb)) (rng_at s (f_name F) (BlockRef (b_id bb))) s in
  s ← for_each (merge_pred m (f_name F) (b_id bb)) (predecessors F (b_id bb)) s;
  for_each (visit_inst m F (b_id bb)) (b_insts bb) s.

(** mkint.cpp, lines 249-514. *)
Definition range_analysis (m : module) (F : function) (s : state) : result state :=
  for_each (analyse_block m F) (f_blocks F) s.

(** Lines 761-789, the body of the loop over the functions. *)
Definition init_function (F : function) (s : state) : result state :=
  if isIntegerTy (f_ret F) || bool_decide (f_name F ∈ m_taint_funcs s) then
    if isDeclaration F then
      Done (set_func2ret_range
              (<[f_name F := ConstantRange.getFull (getIntegerBitWidth (f_ret F))]>
                 (m_func2ret_range s)) s)
    else
      let s :=
        if isIntegerTy (f_ret F) then
          set_func2ret_range
            (<[f_name F := ConstantRange.getEmpty (getIntegerBitWidth (f_ret F))]>
               (m_func2ret_range s)) s
        else s in
      let init_blk :=
        foldl (λ init_blk '(no, t),
                 if isIntegerTy t then
                   <[VArg (f_name F) no :=
                       if is_taint_src (f_name F)
                       then ConstantRange.getFull (getIntegerBitWidth t)
                       else ConstantRange.getEmpty (getIntegerBitWidth t)]> init_blk
                 else init_blk)
              (rng_at s (f_name F) (getEntryBlock F)) (imap pair (f_params F)) in
      let s := set_rng_at (f_name F) (getEntryBlock F) init_blk s in
      Done (set_range_analysis_funcs
              (setvector_insert (f_name F) (m_range_analysis_funcs s)) s)
  else Done s.

(** [m_garr2ranges[&GV].push_back(r)] for every [r] of [new]. *)
Definition push_back_ranges (g : string) (new : list crange) (s : state) : state :=
  match new with
  | [] => s
  | _ => set_garr2ranges (<[g := default [] (m_garr2ranges s !! g) ++ new]> (m_garr2ranges s)) s
  end.

(** Lines 792-824, the body of the loop over the globals. *)
Definition init_global (GV : global) (s : state) : result state :=
  match g_valty GV with
  | TInt _ =>
    match g_init GV with
    | Some (InitInt bits init_val) =>
      Done (set_global2range (<[g_name GV := ConstantRange.ofAPInt bits init_val]> (m_global2range s)) s)
    | Some _ => Aborted
    | None =>
      Done (set_global2range
              (<[g_name GV := crange_of_width (getIntegerBitWidth (TPtr (g_addrspace GV)))]>
                 (m_global2range s)) s)
    end
  | TArray n elt =>
    match g_init GV with
    | Some (InitDataArray elts) =>
      new ← for_each (λ e new,
               match e with
               | Some (bits, init_val) => Done (new ++ [ConstantRange.ofAPInt bits init_val])
               | None => Aborted
               end) elts [];
      Done (push_back_ranges (g_name GV) new s)
    | Some _ => MKINT_CHECK_ABORT
    | None =>
      Done (push_back_ranges (g_name GV)
              (replicate (N.to_nat n) (ConstantRange.getFull (getIntegerBitWidth elt))) s)
    end
  | _ => Done s
  end.

(** mkint.cpp, lines 759-825. *)
Definition init_ranges (m : module) (s : state) : result state :=
  s ← for_each init_function (m_funcs m) s;
  for_each init_global (m_globals m) s.

(** mkint.cpp, lines 877-889. *)
Definition mark_errors (s : state) : state :=
  let s :=
    map_fold (λ cmp (is_tbr : bool) s,
                if is_tbr then mark_err DEAD_TRUE_BR cmp s else mark_err DEAD_FALSE_BR cmp s)
             s (m_impossible_branches s) in
  set_fold (λ gep s, mark_err ARRAY_OOB gep s) s (m_gep_oob s).

(** Lines 877-889 for the entries of [m_impossible_branches] and the members
    of [m_gep_oob] in the order the walks over the [std::map] and the
    [std::set] yield them, which is the order of their addresses. *)
Definition mark_errors_walk (branches : list (N * bool)) (geps : list N) (s : state) : state :=
  foldl (λ s gep, mark_err ARRAY_OOB gep s)
    (foldl (λ s '(cmp, is_tbr),
              if is_tbr : bool then mark_err DEAD_TRUE_BR cmp s else mark_err DEAD_FALSE_BR cmp s)
           s branches)
    geps.

(** ** The pass *)

(** Lines 702-707: the walk over the functions of the module.  The walk goes
    by position, since [get_taint_source] appends the functions it declares
    to the list being walked.  A walked function appends at most one function
    per parameter and the appended ones have no parameter, which bounds the
    walk; [run] passes that bound as [fuel]. *)
Fixpoint mark_sources (fuel : nat) (pos : nat) (m : module) (s : state) : result (module * state) :=
  match fuel with
  | O => NoFuel
  | S fuel =>
    match m_funcs m !! pos with
    | None => Done (m, s)
    | Some F =>
      let '(taint_sources, m) := get_taint_source F m in
      let F := default F (m_funcs m !! pos) in
      s ← mark_func_sinks m F s;
      let s :=
        if is_taint_src (f_name F)
        then set_func2tsrc (m_func2tsrc s ++ [(f_name F, taint_sources)]) s
        else s in
      mark_sources fuel (S pos) m s
    end
  end.

(** Lines 709-713. *)
Definition bcast_sources (fuel : nat) (m : module) (s : state) : result state :=
  for_each (λ '(fp, tsrc) s,
      '(r, s) ← taint_bcast_sink fuel m tsrc s;
      if r : bool then Done (set_taint_funcs (setvector_insert fp (m_taint_funcs s)) s)
      else Done s) (m_func2tsrc s) s.

(** Lines 718-722, the body of the do-while loop.  The range-for takes
    [begin()] and [end()] of the vector behind [m_taint_funcs] once, so it
    walks the elements that are there when the round starts, and a function
    [is_sink_reachable] inserts during the walk is walked in the next round.
    That is the round as long as no insertion makes the vector reallocate;
    an insertion that does invalidates the iterators of the walk, which is
    undefined behaviour in C++ and has no counterpart here.  The last round
    of the loop inserts nothing. *)
Definition taint_round (fuel : nat) (m : module) (s : state) : result state :=
  for_each (λ f s,
      if negb (is_taint_src f) then
        match find_func m f with
        | Some F =>
          '(_, s) ← taint_bcast_sink_args (is_sink_reachable fuel m) m (args_of F) s;
          Done s
        | None => Done s
        end
      else Done s) (m_taint_funcs s) s.

(** Lines 715-723.  [rounds] bounds the number of rounds of the do-while,
    [fuel] the depth of [is_sink_reachable] inside a round.  A round that
    does not end the loop adds a function of the module to [m_taint_funcs],
    so one round per function and one more are enough; [taint_analysis]
    passes that bound. *)
Fixpoint taint_loop (rounds : nat) (fuel : nat) (m : module) (s : state) : result state :=
  match rounds with
  | O => NoFuel
  | S rounds =>
    let n_tfunc_before := length (m_taint_funcs s) in
    s ← taint_round fuel m s;
    if bool_decide (n_tfunc_before ≠ length (m_taint_funcs s))
    then taint_loop rounds fuel m s
    else Done s
  end.

(** Line 725. *)
Definition max_try : N := 128.

(** Lines 740-742. *)
Definition range_round (m : module) (s : state) : result state :=
  for_each (λ F s,
      match find_func m F with
      | Some F => range_analysis m F s
      | None => Done s
      end) (m_range_analysis_funcs s) s.

(** Lines 735-751.  The result carries, besides the state, the number of
    times lines 740-742 ran ([passes], kept for the statements below; the
    C++ has no such counter) and the final [try_count]. *)
Fixpoint range_loop (fuel : nat) (m : module) (try_count : N) (passes : nat) (s : state)
    : result (nat * N * state) :=
  match fuel with
  | O => NoFuel
  | S fuel =>
    let old_fn_rng := m_func2range_info s in
    let old_glb_rng := m_global2range s in
    let old_fn_ret_rng := m_func2ret_range s in
    s ← range_round m s;
    let passes := S passes in
    if bool_decide (m_func2range_info s = old_fn_rng)
       && bool_decide (old_glb_rng = m_global2range s)
       && bool_decide (old_fn_ret_rng = m_func2ret_range s)
    then Done (passes, try_count, s)
    else
      let try_count := (try_count + 1)%N in
      if (max_try <? try_count)%N then Done (passes, try_count, s)
      else range_loop fuel m try_count passes s
  end.

(** Lines 701-723: taint sources and sinks, then taint propagation. *)
Definition taint_analysis (fuel : nat) (m : module) : result (module * state) :=
  '(m, s) ← mark_sources (S (length (m_funcs m) + length (flat_map f_params (m_funcs m))))
              0 m empty_state;
  s ← bcast_sources fuel m s;
  s ← taint_loop (S (length (m_funcs m))) fuel m s;
  Done (m, s).

(** Lines 728-734. *)
Definition range_setup (m : module) (s : state) : result state :=
  init_ranges m
    (foldl (λ s F, if isDeclaration F then s else backedge_analysis F s) s (m_funcs m)).

(** mkint.cpp, lines 697-757.  [fuel] bounds the depth of
    [is_sink_reachable]; the loops get the bounds they cannot exceed. *)
Definition run (fuel : nat) (m : module) : result (module * state) :=
  '(m, s) ← taint_analysis fuel m;
  s ← range_setup m s;
  '(_, _, s) ← range_loop (S (S (N.to_nat max_try))) m 0 0 s;
  Done (m, mark_errors s).

(** What a module the pass has run on carries into a later run: the three
    metadata kinds stay on its instructions and globals, and the members of
    the pass belong to a new [MKintPass]. *)
Definition carried_metadata (s : state) : state :=
  MkState (md_taint s) (md_taint_global s) (md_sink s) (md_err s) [] [] ∅ ∅ ∅ [] ∅ ∅ ∅ ∅.

(** mkint.cpp, lines 697-757, on a module that carries the metadata of
    [carried] already: [run] is the case of a module that carries none
    ([run_on_empty]). *)
Definition run_on (carried : state) (fuel : nat) (m : module) : result (module * state) :=
  '(m, s) ← mark_sources (S (length (m_funcs m) + length (flat_map f_params (m_funcs m))))
              0 m (carried_metadata carried);
  s ← bcast_sources fuel m s;
  s ← taint_loop (S (length (m_funcs m))) fuel m s;
  s ← range_setup m s;
  '(_, _, s) ← range_loop (S (S (N.to_nat max_try))) m 0 0 s;
  Done (m, mark_errors s).

End MKint.

(** ** Notions the statements are written with *)

(** The fields the findings of the analysis live in, and the array table
    they are judged against, are untouched by a step. *)
Definition same_findings (s s' : state) : Prop :=
  m_impossible_branches s' = m_impossible_branches s
  ∧ m_gep_oob s' = m_gep_oob s
  ∧ md_err s' = md_err s
  ∧ m_garr2ranges s' = m_garr2ranges s.

(** The same without the array table, which [init_ranges] fills. *)
Definition same_errors (s s' : state) : Prop :=
  m_impossible_branches s' = m_impossible_branches s
  ∧ m_gep_oob s' = m_gep_oob s
  ∧ md_err s' = md_err s.

(** The keys of [m_impossible_branches] are comparisons and the members of
    [m_gep_oob] are geps: the two never meet. *)
Definition findings_typed (m : module) (s : state) : Prop :=
  (∀ c, is_Some (m_impossible_branches s !! c) →
        ∃ p lhs rhs, i_kind <$> find_inst m c = Some (ICmp p lhs rhs))
  ∧ (∀ g, g ∈ m_gep_oob s →
          ∃ base indices, i_kind <$> find_inst m g = Some (GetElementPtr base indices)).

(** The names and parameter lists of the functions of a module, in order. *)
Definition signatures (m : module) : list (string * list ty) :=
  (λ F, (f_name F, f_params F)) <$> m_funcs m.

(** The functions [get_taint_source] declares have no parameter. *)
Definition declared (names : list string) : list (string * list ty) :=
  (λ n, (n, [])) <$> names.

(** What is left of the walk over the functions at position [pos]: one round
    per function from there on, and one more for each function a round may
    append. *)
Definition walk_left (sigs : list (string * list ty)) (pos : nat) : nat :=
  (length (drop pos sigs) + length (concat (drop pos sigs).*2))%nat.

(** [m_taint_funcs] holds functions of the module, each once. *)
Definition taint_funcs_ok (m : module) (s : state) : Prop :=
  NoDup (m_taint_funcs s) ∧ m_taint_funcs s ⊆ f_name <$> m_funcs m.

(** [m_taint_funcs] keeps what it holds, and stays a set of functions of the
    module. *)
Definition taint_funcs_grow (m : module) (s s' : state) : Prop :=
  m_taint_funcs s `prefix_of` m_taint_funcs s'
  ∧ (taint_funcs_ok m s → taint_funcs_ok m s').

(** The number of elements of a global array: those of its initializer, or of
    its type when it has none. *)
Definition array_length (GV : global) : option nat :=
  match g_valty GV, g_init GV with
  | TArray _ _, Some (InitDataArray elts) => Some (length elts)
  | TArray n _, None => Some (N.to_nat n)
  | _, _ => None
  end.

(** Every entry of the table belongs to a global of [gs] and has one range
    for each of its elements. *)
Definition garr_lengths (gs : list global) (s : state) : Prop :=
  ∀ g ranges, m_garr2ranges s !! g = Some ranges →
    ∃ GV, GV ∈ gs ∧ g_name GV = g ∧ array_length GV = Some (length ranges).

(** [r'] is [r], unless [r] ran out of budget. *)
Definition refines {A} (r r' : result A) : Prop := r = NoFuel ∨ r = r'.

(** The graph [is_sink_reachable] walks.  A store to a global leads to the
    other users of the global; any other instruction leads to its users, and
    a call of a function with a body also to the users of the arguments of
    that function. *)
Inductive walk_edge (m : module) (inst : instruction) : instruction → Prop :=
| edge_global val gv user :
    i_kind inst = Store val (VGlobal gv) →
    user ∈ users m (VGlobal gv) → i_id user ≠ i_id inst →
    walk_edge m inst user
| edge_user user :
    (∀ val ptr, i_kind inst ≠ Store val ptr) →
    user ∈ users m (VInst (i_id inst)) →
    walk_edge m inst user
| edge_callee callee args f arg user :
    i_kind inst = Call callee args →
    getCalledFunction m callee = Some f → isDeclaration f = false →
    arg ∈ args_of f → user ∈ users m arg →
    walk_edge m inst user.

(** An instruction that carries [mkint.sink] can be reached from [inst]. *)
Inductive sink_reachable (m : module) (sinks : gmap N string) : instruction → Prop :=
| sink_here inst :
    is_Some (sinks !! i_id inst) → sink_reachable m sinks inst
| sink_step inst user :
    walk_edge m inst user → sink_reachable m sinks user → sink_reachable m sinks inst.

(** [inst] leads to [i] along edges that leave instructions without
    [mkint.sink]: the walk goes no further than a sink. *)
Definition walks_to (m : module) (sinks : gmap N string) : relation instruction :=
  rtc (λ inst user, ¬ is_Some (sinks !! i_id inst) ∧ walk_edge m inst user).

(** The instructions a traversal that starts at [roots] can come to. *)
Definition known_inst (m : module) (roots : list instruction) (inst : instruction) : Prop :=
  inst ∈ roots ∨ inst ∈ all_instructions m.

(** The sinks are [sinks], and every instruction that carries [mkint.taint]
    carried it in [base] already, or is a root or an instruction of the
    module that reaches a sink. *)
Definition taint_justified (m : module) (sinks base : gmap N string) (roots : list instruction)
    (s : state) : Prop :=
  md_sink s = sinks
  ∧ ∀ k, is_Some (md_taint s !! k) →
         is_Some (base !! k)
         ∨ ∃ inst, i_id inst = k ∧ known_inst m roots inst ∧ sink_reachable m sinks inst.

(** What the propagation of taint keeps: the sinks and the recorded sources
    stay as they are, and neither an instruction nor a function loses its
    taint. *)
Definition taint_marks_grow (s s' : state) : Prop :=
  md_sink s' = md_sink s
  ∧ m_func2tsrc s' = m_func2tsrc s
  ∧ (∀ k, is_Some (md_taint s !! k) → is_Some (md_taint s' !! k))
  ∧ m_taint_funcs s ⊆ m_taint_funcs s'.

(** No walk from [inst] has [n] edges: the walk from [inst] goes no further
    than a sink, and from what it leads to no walk has [n - 1] edges. *)
Inductive walk_bounded (m : module) (sinks : gmap N string) : nat → instruction → Prop :=
| walk_bounded_step n inst :
    (¬ is_Some (sinks !! i_id inst) →
     ∀ user, walk_edge m inst user → walk_bounded m sinks n user) →
    walk_bounded m sinks (S n) inst.

(** An edge of the control-flow graph of [F], and an edge that does not lead
    to [bb]. *)
Definition cfg_edge (F : function) (a b : N) : Prop :=
  ∃ blk, find_block F a = Some blk ∧ b ∈ successors blk.

Definition cfg_edge_off (F : function) (bb a b : N) : Prop :=
  cfg_edge F a b ∧ b ≠ bb.

(** [v] is an operand of an instruction of the module. *)
Definition used (m : module) (v : value) : Prop :=
  ∃ i, i ∈ all_instructions m ∧ v ∈ operands (i_kind i).

(** A call whose callee is no function: [getCalledFunction()] is null. *)
Definition indirect_call (inst : instruction) : Prop :=
  ∃ callee args, i_kind inst = Call callee args ∧ ∀ f, callee ≠ VFunc f.

Definition has_indirect_call (F : function) : Prop :=
  ∃ inst, inst ∈ instructions F ∧ indirect_call inst.

(** What the taint phase leaves is untouched by a step. *)
Definition same_taint (s s' : state) : Prop :=
  md_taint s' = md_taint s
  ∧ md_taint_global s' = md_taint_global s
  ∧ md_sink s' = md_sink s
  ∧ m_func2tsrc s' = m_func2tsrc s
  ∧ m_taint_funcs s' = m_taint_funcs s.

(** No finding is lost by a step: a comparison that has an impossible branch
    keeps one, and a gep that is out of bound stays so. *)
Definition findings_grow (s s' : state) : Prop :=
  (∀ c, is_Some (m_impossible_branches s !! c) → is_Some (m_impossible_branches s' !! c))
  ∧ m_gep_oob s ⊆ m_gep_oob s'.

(** A global [init_ranges] cannot seed: an integer whose initializer is no
    [ConstantInt], or an array whose initializer is no [ConstantDataArray]
    of integers ([zeroinitializer], for one). *)
Definition unsupported_initializer (GV : global) : Prop :=
  match g_valty GV, g_init GV with
  | TInt _, Some (InitInt _ _) => False
  | TInt _, Some _ => True
  | TArray _ _, Some (InitDataArray elts) => None ∈ elts
  | TArray _ _, Some _ => True
  | _, _ => False
  end.

(** The instruction [k] is the argument of a call in [F] of the sink [name],
    at the position the table [MKINT_SINKS] gives for that sink. *)
Definition sink_argument (demangle : string → string) (m : module) (F : function)
    (name : string) (k : N) : Prop :=
  ∃ call callee args f idx,
    call ∈ instructions F
    ∧ i_kind call = Call callee args
    ∧ getCalledFunction m callee = Some f
    ∧ demangle (f_name f) = name
    ∧ (name, idx) ∈ MKINT_SINKS
    ∧ getArgOperand callee args idx = Some (VInst k).

(** [mkint.sink] keeps the instructions it is on, and what is new in it is
    the name of a sink on an argument of a call of that sink. *)
Definition sink_marks_grow (demangle : string → string) (m : module) (F : function)
    (s s' : state) : Prop :=
  (∀ k, is_Some (md_sink s !! k) → is_Some (md_sink s' !! k))
  ∧ (∀ k name, md_sink s' !! k = Some name →
               md_sink s !! k = Some name ∨ sink_argument demangle m F name k).

(** The edge from [pred] to a block is taken on a comparison of two values
    that are not both integers (a pointer against null, for one). *)
Definition branches_on_non_integers (m : module) (pred : block) : Prop :=
  ∃ t c br_true br_false p lhs rhs,
    getTerminator pred = Some t
    ∧ i_kind t = CondBr (VInst c) br_true br_false
    ∧ i_kind <$> find_inst m c = Some (ICmp p lhs rhs)
    ∧ isIntegerTy (type_of m lhs) && isIntegerTy (type_of m rhs) = false.

(** [pred] ends in a conditional branch on the comparison [cmp], and [bb] is
    a block of [F] into which the pass merges an edge of such a branch. *)
Definition branches_on (pred : block) (cmp : N) : Prop :=
  ∃ t br_true br_false,
    getTerminator pred = Some t ∧ i_kind t = CondBr (VInst cmp) br_true br_false.

Definition merges_branch_on (F : function) (cmp : N) (bb : block) : Prop :=
  ∃ pred, pred ∈ predecessors F (b_id bb) ∧ branches_on pred cmp.

(** The return ranges and the set of functions to analyse are untouched by
    a step. *)
Definition same_ret_ranges (s s' : state) : Prop :=
  m_func2ret_range s' = m_func2ret_range s
  ∧ m_range_analysis_funcs s' = m_range_analysis_funcs s.

(** The return range of [name] and the set of functions to analyse are
    untouched by a step. *)
Definition keeps_ret_range (name : string) (s s' : state) : Prop :=
  m_func2ret_range s' !! name = m_func2ret_range s !! name
  ∧ m_range_analysis_funcs s' = m_range_analysis_funcs s.

(** What the loop of [init_ranges] over the functions keeps for the
    declaration [F]: [m_taint_funcs], that [F] is not among the functions to
    analyse, and that its return range is full. *)
Definition init_keeps (F : function) (t t' : state) : Prop :=
  m_taint_funcs t' = m_taint_funcs t
  ∧ (f_name F ∉ m_range_analysis_funcs t → f_name F ∉ m_range_analysis_funcs t')
  ∧ (m_func2ret_range t !! f_name F
       = Some (ConstantRange.getFull (getIntegerBitWidth (f_ret F))) →
     m_func2ret_range t' !! f_name F
       = Some (ConstantRange.getFull (getIntegerBitWidth (f_ret F)))).

(** ** An instance for closed examples

    The examples at the end of the file run the definitions above on concrete
    modules, so they need a concrete [ConstantRange.Ops] and a concrete
    [demangle].  Union, intersection, the comparison regions and zero
    extension follow [llvm/lib/IR/ConstantRange.cpp] (LLVM 14, the default
    preferred range type [Smallest], assertions compiled out).  Truncation,
    sign extension and the arithmetic are not reproduced: the instance
    answers the full set (the empty set on an empty operand) there, and no
    statement about an example depends on that answer.  Union and
    intersection are reproduced for operands of one width, which is what
    LLVM asserts of them; on operands of two widths, which reach them only
    past [auto_promote], the instance gives the result the width of the left
    operand, and no statement depends on that either.  The general theorems do not
    depend on this instance: they hold for every [ConstantRange.Ops]. *)

Module LLVM.
Import ConstantRange.

(** [APInt::getSignedMinValue] and [APInt::getSignedMaxValue], as the unsigned
    numbers that carry them. *)
Definition signed_min (bits : N) : Z :=
  if (bits =? 0)%N then 0 else 2 ^ (Z.of_N bits - 1).
Definition signed_max (bits : N) : Z :=
  if (bits =? 0)%N then 0 else 2 ^ (Z.of_N bits - 1) - 1.

(** The signed reading of an APInt, for [slt] and [sgt]. *)
Definition to_signed (bits : N) (z : Z) : Z :=
  if bool_decide (z < signed_min bits) || (bits =? 0)%N then z else z - 2 ^ Z.of_N bits.

Definition isWrappedSet (c : t) : bool :=
  bool_decide (getUpper c < getLower c) && negb (bool_decide (getUpper c = 0)).

Definition isUpperSignWrapped (c : t) : bool :=
  bool_decide (to_signed (getBitWidth c) (getUpper c) < to_signed (getBitWidth c) (getLower c)).

Definition isSignWrappedSet (c : t) : bool :=
  isUpperSignWrapped c && negb (bool_decide (getUpper c = signed_min (getBitWidth c))).

Definition isSingleElement (c : t) : bool :=
  bool_decide (getUpper c = wrap (getBitWidth c) (getLower c + 1)).

Definition getUnsignedMin (c : t) : Z :=
  if isFullSet c || isWrappedSet c then 0 else getLower c.

Definition getSignedMax (c : t) : Z :=
  if isFullSet c || isUpperSignWrapped c then signed_max (getBitWidth c)
  else wrap (getBitWidth c) (getUpper c - 1).

Definition getSignedMin (c : t) : Z :=
  if isFullSet c || isSignWrappedSet c then signed_min (getBitWidth c)
  else getLower c.

Definition getNonEmpty (bits : N) (l u : Z) : t :=
  if bool_decide (l = u) then getFull bits else Make bits l u.

Definition isSizeStrictlySmallerThan (a b : t) : bool :=
  if isFullSet a then false
  else if isFullSet b then true
  else bool_decide (wrap (getBitWidth a) (getUpper a - getLower a)
                    < wrap (getBitWidth b) (getUpper b - getLower b)).

Definition getPreferredRange (a b : t) : t :=
  if isSizeStrictlySmallerThan a b then a else b.

Definition makeAllowedICmpRegion (p : icmp_pred) (c : t) : t :=
  if isEmptySet c then c
  else
    let W := getBitWidth c in
    match p with
    | ICMP_EQ => c
    | ICMP_NE => if isSingleElement c then Make W (getUpper c) (getLower c) else getFull W
    | ICMP_ULT =>
      let UMax := getUnsignedMax c in
      if bool_decide (UMax = 0) then getEmpty W else Make W 0 UMax
    | ICMP_SLT =>
      let SMax := getSignedMax c in
      if bool_decide (SMax = signed_min W) then getEmpty W else Make W (signed_min W) SMax
    | ICMP_ULE => getNonEmpty W 0 (wrap W (getUnsignedMax c + 1))
    | ICMP_SLE => getNonEmpty W (signed_min W) (wrap W (getSignedMax c + 1))
    | ICMP_UGT =>
      let UMin := getUnsignedMin c in
      if bool_decide (UMin = max_value W) then getEmpty W else Make W (wrap W (UMin + 1)) 0
    | ICMP_SGT =>
      let SMin := getSignedMin c in
      if bool_decide (SMin = signed_max W) then getEmpty W
      else Make W (wrap W (SMin + 1)) (signed_min W)
    | ICMP_UGE => getNonEmpty W (getUnsignedMin c) 0
    | ICMP_SGE => getNonEmpty W (getSignedMin c) (signed_min W)
    end.

(** The body of [unionWith] behind its first three tests: [a] is upper
    wrapped or [b] is not. *)
Definition union_cases (a b : t) : t :=
  let W := getBitWidth a in
  let '(L, U, CL, CU) := (getLower a, getUpper a, getLower b, getUpper b) in
  if negb (isUpperWrapped a) && negb (isUpperWrapped b) then
    if bool_decide (CU < L) || bool_decide (U < CL) then
      getPreferredRange (Make W L CU) (Make W CL U)
    else
      let L' := if bool_decide (CL < L) then CL else L in
      let U' := if bool_decide (wrap W (U - 1) < wrap W (CU - 1)) then CU else U in
      if bool_decide (L' = 0) && bool_decide (U' = 0) then getFull W else Make W L' U'
  else if negb (isUpperWrapped b) then
    if bool_decide (CU ≤ U) || bool_decide (L ≤ CL) then a
    else if bool_decide (CL ≤ U) && bool_decide (L ≤ CU) then getFull W
    else if bool_decide (U < CL) && bool_decide (CU < L) then
      getPreferredRange (Make W L CU) (Make W CL U)
    else if bool_decide (U < CL) && bool_decide (L ≤ CU) then Make W CL U
    else Make W L CU
  else
    if bool_decide (CL ≤ U) || bool_decide (L ≤ CU) then getFull W
    else Make W (if bool_decide (CL < L) then CL else L) (if bool_decide (U < CU) then CU else U).

Definition unionWith (a b : t) : t :=
  if isFullSet a || isEmptySet b then a
  else if isFullSet b || isEmptySet a then b
  else if negb (isUpperWrapped a) && isUpperWrapped b then union_cases b a
  else union_cases a b.

(** The body of [intersectWith] behind its first three tests. *)
Definition intersect_cases (a b : t) : t :=
  let W := getBitWidth a in
  let '(L, U, CL, CU) := (getLower a, getUpper a, getLower b, getUpper b) in
  if negb (isUpperWrapped a) && negb (isUpperWrapped b) then
    if bool_decide (L < CL) then
      if bool_decide (U ≤ CL) then getEmpty W
      else if bool_decide (U < CU) then Make W CL U
      else b
    else if bool_decide (U < CU) then a
    else if bool_decide (L < CU) then Make W L CU
    else getEmpty W
  else if isUpperWrapped a && negb (isUpperWrapped b) then
    if bool_decide (CL < U) then
      if bool_decide (CU < U) then b
      else if bool_decide (CU ≤ L) then Make W CL U
      else getPreferredRange a b
    else if bool_decide (CL < L) then
      if bool_decide (CU ≤ L) then getEmpty W else Make W L CU
    else b
  else if bool_decide (CU < U) then
    if bool_decide (CL < U) then getPreferredRange a b
    else if bool_decide (CL < L) then Make W L CU
    else b
  else if bool_decide (CU ≤ L) then
    if bool_decide (CL < L) then a else Make W CL U
  else getPreferredRange a b.

Definition intersectWith (a b : t) : t :=
  if isEmptySet a || isFullSet b then a
  else if isEmptySet b || isFullSet a then b
  else if negb (isUpperWrapped a) && isUpperWrapped b then intersect_cases b a
  else intersect_cases a b.

Definition zeroExtend (c : t) (dst : N) : t :=
  if isEmptySet c then getEmpty dst
  else if isFullSet c || isUpperWrapped c then
    Make dst (if bool_decide (getUpper c = 0) then getLower c else 0) (2 ^ Z.of_N (getBitWidth c))
  else Make dst (getLower c) (getUpper c).

(** What stands in for the operations that are not reproduced. *)
Definition unknown_to (c : t) (dst : N) : t :=
  if isEmptySet c then getEmpty dst else getFull dst.

Definition unknown (a b : t) : t :=
  if isEmptySet a || isEmptySet b then getEmpty (getBitWidth a) else getFull (getBitWidth a).

Definition ops : Ops := {|
  ConstantRange.unionWith := unionWith;
  ConstantRange.intersectWith := intersectWith;
  ConstantRange.makeAllowedICmpRegion := makeAllowedICmpRegion;
  ConstantRange.truncate := unknown_to;
  ConstantRange.zeroExtend := zeroExtend;
  ConstantRange.signExtend := unknown_to;
  ConstantRange.add := unknown;
  ConstantRange.sub := unknown;
  ConstantRange.multiply := unknown;
  ConstantRange.udiv := unknown;
  ConstantRange.sdiv := unknown;
  ConstantRange.urem := unknown;
  ConstantRange.srem := unknown;
  ConstantRange.shl := unknown;
  ConstantRange.lshr := unknown;
  ConstantRange.ashr := unknown;
  ConstantRange.binaryAnd := unknown;
  ConstantRange.binaryOr := unknown;
  ConstantRange.binaryXor := unknown
|}.

(** [demangle] on names that are no Itanium manglings, which is what the C
    names of the examples are: [abi::__cxa_demangle] fails and the name comes
    back as it is. *)
Definition demangle (name : string) : string := name.

End LLVM.

(** ** Example modules *)

Definition i1 : ty := TInt 1.
Definition i32 : ty := TInt 32.

(** A chain of [n] functions over a leaf, callers first:
<<
  define i32 @k<j>() { %r = call i32 @k<j-1>()  ret i32 %r }
  define i32 @k0()   { ret i32 5 }
>> *)
Fixpoint chain_funcs (n : nat) : list function :=
  match n with
  | O => [MkFunction "k0" i32 [] [MkBlock 0 [MkInstruction 1 TVoid (Ret (Some (VConstInt 32 5)))]]]
  | S n' =>
    MkFunction ("k" +:+ pretty n) i32 []
      [MkBlock (N.of_nat n)
         [MkInstruction (N.of_nat (2 * n)) i32 (Call (VFunc ("k" +:+ pretty n')) []);
          MkInstruction (N.of_nat (2 * n + 1)) TVoid (Ret (Some (VInst (N.of_nat (2 * n)))))]]
    :: chain_funcs n'
  end.

Definition chain_module (n : nat) : module := MkModule (chain_funcs n) [].

(** A source whose argument feeds a loop-carried sum:
<<
  define i32 @sys_sum(i32 %n) {
  entry: br label %loop
  loop:  %s  = phi i32 [ 0, %entry ], [ %s2, %loop ]
         %s2 = add i32 %s, %n
         %c  = icmp ult i32 %s2, 100
         br i1 %c, label %loop, label %exit
  exit:  ret i32 %s2 }
>> *)
Definition sum_loop : list block :=
  [MkBlock 2 [MkInstruction 11 i32 (Phi [(VConstInt 32 0, 1%N); (VInst 12, 2%N)]);
              MkInstruction 12 i32 (Binary Add (VInst 11) (VArg "sys_sum" 0));
              MkInstruction 13 i1 (ICmp ICMP_ULT (VInst 12) (VConstInt 32 100));
              MkInstruction 14 TVoid (CondBr (VInst 13) 2 3)];
   MkBlock 3 [MkInstruction 15 TVoid (Ret (Some (VInst 12)))]].

Definition sum_module : module :=
  MkModule
    [MkFunction "sys_sum" i32 [i32] (MkBlock 1 [MkInstruction 10 TVoid (Br 2)] :: sum_loop)]
    [].

(** The same module once [get_taint_source] has put a call in the place of
    the argument. *)
Definition sum_arg_call : instruction :=
  MkInstruction 16 i32 (Call (VFunc "sys_sum.mkint.arg0") []).

Definition sum_phi : instruction :=
  MkInstruction 11 i32 (Phi [(VConstInt 32 0, 1%N); (VInst 12, 2%N)]).

Definition sum_add : instruction :=
  MkInstruction 12 i32 (Binary Add (VInst 11) (VInst 16)).

Definition sum_module_rewritten : module :=
  MkModule
    [MkFunction "sys_sum" i32 [i32]
       [MkBlock 1 [sum_arg_call; MkInstruction 10 TVoid (Br 2)];
        MkBlock 2 [sum_phi; sum_add;
                   MkInstruction 13 i1 (ICmp ICMP_ULT (VInst 12) (VConstInt 32 100));
                   MkInstruction 14 TVoid (CondBr (VInst 13) 2 3)];
        MkBlock 3 [MkInstruction 15 TVoid (Ret (Some (VInst 12)))]];
     MkFunction "sys_sum.mkint.arg0" i32 [] []]
    [].

(** A sink with a body that loops on its argument, and a source that calls
    it:
<<
  define i8* @kmalloc(i32 %n) {
  entry: br label %loop
  loop:  %i  = phi i32 [ %n, %entry ], [ %i2, %loop ]
         %i2 = add i32 %i, 1
         %c  = icmp ult i32 %i2, 100
         br i1 %c, label %loop, label %exit
  exit:  ret i8* null }
  define i32 @sys_foo(i32 %x) {
  entry: %p = call i8* @kmalloc(i32 %x)
         ret i32 0 }
>> *)
Definition km_phi : instruction :=
  MkInstruction 11 i32 (Phi [(VArg "kmalloc" 0, 1%N); (VInst 12, 2%N)]).

Definition km_add : instruction :=
  MkInstruction 12 i32 (Binary Add (VInst 11) (VConstInt 32 1)).

Definition km_kmalloc : function :=
  MkFunction "kmalloc" (TPtr 0) [i32]
    [MkBlock 1 [MkInstruction 10 TVoid (Br 2)];
     MkBlock 2 [km_phi; km_add;
                MkInstruction 13 i1 (ICmp ICMP_ULT (VInst 12) (VConstInt 32 100));
                MkInstruction 14 TVoid (CondBr (VInst 13) 2 3)];
     MkBlock 3 [MkInstruction 15 TVoid (Ret (Some (VOther None 0)))]].

Definition km_module : module :=
  MkModule
    [km_kmalloc;
     MkFunction "sys_foo" i32 [i32]
       [MkBlock 4 [MkInstruction 20 (TPtr 0) (Call (VFunc "kmalloc") [VArg "sys_foo" 0]);
                   MkInstruction 21 TVoid (Ret (Some (VConstInt 32 0)))]]]
    [].

Definition km_arg_call : instruction :=
  MkInstruction 22 i32 (Call (VFunc "sys_foo.mkint.arg0") []).

Definition km_module_rewritten : module :=
  MkModule
    [km_kmalloc;
     MkFunction "sys_foo" i32 [i32]
       [MkBlock 4 [km_arg_call;
                   MkInstruction 20 (TPtr 0) (Call (VFunc "kmalloc") [VInst 22]);
                   MkInstruction 21 TVoid (Ret (Some (VConstInt 32 0)))]];
     MkFunction "sys_foo.mkint.arg0" i32 [] []]
    [].

(** The state when the do-while loop of [run] is entered on [km_module]. *)
Definition km_state : state :=
  set_taint_funcs ["kmalloc"; "sys_foo"]
    (set_func2tsrc [("sys_foo", [km_arg_call]); ("sys_foo.mkint.arg0", [])]
      (mark_taint km_arg_call "source" (mark_sink 22 "kmalloc" empty_state))).

(** A comparison whose true edge is merged between two other edges:
<<
  declare i32 @get()
  define i32 @f() {
  b1: %x  = call i32 @get()
      %c1 = icmp eq i32 %x, 0
      br i1 %c1, label %b2, label %b3
  b2: br label %b4
  b3: %c2 = icmp ult i32 %x, 0
      br i1 %c2, label %b4, label %b5
  b5: br label %b4
  b4: ret i32 %x }
>>
    No value is below zero as an unsigned number, so the edge [b3 -> b4] is
    never taken. *)
Definition fan_b2 : block := MkBlock 2 [MkInstruction 20 TVoid (Br 4)].

Definition fan_b3 : block :=
  MkBlock 3 [MkInstruction 30 i1 (ICmp ICMP_ULT (VInst 10) (VConstInt 32 0));
             MkInstruction 31 TVoid (CondBr (VInst 30) 4 5)].

Definition fan_b5 : block := MkBlock 5 [MkInstruction 50 TVoid (Br 4)].

Definition fan_entry : list block :=
  [MkBlock 1 [MkInstruction 10 i32 (Call (VFunc "get") []);
              MkInstruction 11 i1 (ICmp ICMP_EQ (VInst 10) (VConstInt 32 0));
              MkInstruction 12 TVoid (CondBr (VInst 11) 2 3)];
   fan_b2; fan_b3; fan_b5].

Definition fan_f : function :=
  MkFunction "f" i32 []
    (fan_entry ++ [MkBlock 4 [MkInstruction 40 TVoid (Ret (Some (VInst 10)))]]).

Definition fan_module : module := MkModule [MkFunction "get" i32 [] []; fan_f] [].

(** A switch on a value that is no constant:
<<
  declare i32 @get()
  define i32 @f() {
  b1: %x = call i32 @get()
      switch i32 %x, label %b3 [ i32 1, label %b2 ]
  b2: ret i32 %x
  b3: ret i32 0 }
>> *)
Definition switch_module : module :=
  MkModule
    [MkFunction "get" i32 [] [];
     MkFunction "f" i32 []
       [MkBlock 1 [MkInstruction 10 i32 (Call (VFunc "get") []);
                   MkInstruction 11 TVoid (Switch (VInst 10) 3 [(1, 2%N)])];
        MkBlock 2 [MkInstruction 20 TVoid (Ret (Some (VInst 10)))];
        MkBlock 3 [MkInstruction 30 TVoid (Ret (Some (VConstInt 32 0)))]]]
    [].

(** A comparison on the argument of a function that is no source.  The
    argument is seeded with the empty range, so the merge finds both
    outcomes impossible, the true one first:
<<
  define i32 @f(i32 %a) {
  b1: %c = icmp slt i32 %a, 10
      br i1 %c, label %b2, label %b3
  b2: ret i32 1
  b3: ret i32 0 }
>> *)
Definition both_dead_b1 : block :=
  MkBlock 1 [MkInstruction 10 i1 (ICmp ICMP_SLT (VArg "f" 0) (VConstInt 32 10));
             MkInstruction 11 TVoid (CondBr (VInst 10) 2 3)].

Definition both_dead_b2 : block :=
  MkBlock 2 [MkInstruction 20 TVoid (Ret (Some (VConstInt 32 1)))].

Definition both_dead_b3 : block :=
  MkBlock 3 [MkInstruction 30 TVoid (Ret (Some (VConstInt 32 0)))].

Definition both_dead_f : function :=
  MkFunction "f" i32 [i32] [both_dead_b1; both_dead_b2; both_dead_b3].

Definition both_dead_module : module := MkModule [both_dead_f] [].

(** A read of element 7 of an array of four:
<<
  @arr = global [4 x i32] [i32 1, i32 2, i32 3, i32 4]
  define i32 @f() {
  b1: %p = getelementptr [4 x i32], [4 x i32]* @arr, i64 0, i64 7
      %v = load i32, i32* %p
      ret i32 %v }
>> *)
Definition array_load : instruction := MkInstruction 11 i32 (Load (VInst 10)).

Definition array_f : function :=
  MkFunction "f" i32 []
    [MkBlock 1 [MkInstruction 10 (TPtr 0)
                  (GetElementPtr (VGlobal "arr") [VConstInt 64 0; VConstInt 64 7]);
                array_load;
                MkInstruction 12 TVoid (Ret (Some (VInst 11)))]].

Definition array_module : module :=
  MkModule [array_f]
    [MkGlobal "arr" (TArray 4 i32) 0
       (Some (InitDataArray [Some (32%N, 1); Some (32%N, 2); Some (32%N, 3); Some (32%N, 4)]))].

(** A source that returns an integer and is called from a function that is
    no source:
<<
  define i32 @sys_bar() { ret i32 7 }
  define i32 @main()    { %r = call i32 @sys_bar()  ret i32 %r }
>> *)
Definition sys_bar : function :=
  MkFunction "sys_bar" i32 [] [MkBlock 1 [MkInstruction 10 TVoid (Ret (Some (VConstInt 32 7)))]].

Definition ret_sink_module : module :=
  MkModule
    [sys_bar;
     MkFunction "main" i32 []
       [MkBlock 2 [MkInstruction 20 i32 (Call (VFunc "sys_bar") []);
                   MkInstruction 21 TVoid (Ret (Some (VInst 20)))]]]
    [].

(** A pointer that is stored through and then converted to an integer.  The
    store records the range of [%x] under [%p], and [ptrtoint] is no cast the
    analysis handles, so the 64-bit [%a] gets the 32-bit range of [%p]:
<<
  declare i32 @get()
  define i64 @f(i32* %p) {
  b1: %x = call i32 @get()
      store i32 %x, i32* %p
      %a = ptrtoint i32* %p to i64
      %b = add i64 %a, 1
      ret i64 %b }
>> *)
Definition promote_module : module :=
  MkModule
    [MkFunction "get" i32 [] [];
     MkFunction "f" (TInt 64) [TPtr 0]
       [MkBlock 1 [MkInstruction 10 i32 (Call (VFunc "get") []);
                   MkInstruction 11 TVoid (Store (VInst 10) (VArg "f" 0));
                   MkInstruction 12 (TInt 64) (Cast OtherCast (VArg "f" 0));
                   MkInstruction 13 (TInt 64) (Binary Add (VInst 12) (VConstInt 64 1));
                   MkInstruction 14 TVoid (Ret (Some (VInst 13)))]]]
    [].

(** A source whose argument, multiplied, is the size of an allocation:
<<
  declare i8* @kzalloc(i32)
  define i32 @sys_foo(i32 %x) {
  b1: %m = mul i32 %x, 4
      %p = call i8* @kzalloc(i32 %m)
      ret i32 0 }
>>
    and the same module once [get_taint_source] has put a call in the place
    of the argument. *)
Definition kz_module : module :=
  MkModule
    [MkFunction "kzalloc" (TPtr 0) [i32] [];
     MkFunction "sys_foo" i32 [i32]
       [MkBlock 1 [MkInstruction 10 i32 (Binary Mul (VArg "sys_foo" 0) (VConstInt 32 4));
                   MkInstruction 11 (TPtr 0) (Call (VFunc "kzalloc") [VInst 10]);
                   MkInstruction 12 TVoid (Ret (Some (VConstInt 32 0)))]]]
    [].

Definition kz_arg_call : instruction :=
  MkInstruction 13 i32 (Call (VFunc "sys_foo.mkint.arg0") []).

Definition kz_mul : instruction :=
  MkInstruction 10 i32 (Binary Mul (VInst 13) (VConstInt 32 4)).

Definition kz_foo_rewritten : function :=
  MkFunction "sys_foo" i32 [i32]
    [MkBlock 1 [kz_arg_call; kz_mul;
                MkInstruction 11 (TPtr 0) (Call (VFunc "kzalloc") [VInst 10]);
                MkInstruction 12 TVoid (Ret (Some (VConstInt 32 0)))]].

Definition kz_module_rewritten : module :=
  MkModule
    [MkFunction "kzalloc" (TPtr 0) [i32] [];
     kz_foo_rewritten;
     MkFunction "sys_foo.mkint.arg0" i32 [] []]
    [].

(** A source that hands its argument to a function with a body, which
    allocates with it:
<<
  declare i8* @kmalloc(i32)
  define i32 @helper(i32 %n) {
  b1: %m = add i32 %n, 1
      %p = call i8* @kmalloc(i32 %m)
      ret i32 0 }
  define i32 @sys_foo(i32 %x) {
  b2: %r = call i32 @helper(i32 %x)
      ret i32 %r }
>>
    and the same module once [get_taint_source] has put a call in the place
    of [%x]. *)
Definition hp_add : instruction :=
  MkInstruction 10 i32 (Binary Add (VArg "helper" 0) (VConstInt 32 1)).

Definition hp_helper : function :=
  MkFunction "helper" i32 [i32]
    [MkBlock 1 [hp_add;
                MkInstruction 11 (TPtr 0) (Call (VFunc "kmalloc") [VInst 10]);
                MkInstruction 12 TVoid (Ret (Some (VConstInt 32 0)))]].

Definition hp_module : module :=
  MkModule
    [MkFunction "kmalloc" (TPtr 0) [i32] [];
     hp_helper;
     MkFunction "sys_foo" i32 [i32]
       [MkBlock 2 [MkInstruction 20 i32 (Call (VFunc "helper") [VArg "sys_foo" 0]);
                   MkInstruction 21 TVoid (Ret (Some (VInst 20)))]]]
    [].

Definition hp_module_rewritten : module :=
  MkModule
    [MkFunction "kmalloc" (TPtr 0) [i32] [];
     hp_helper;
     MkFunction "sys_foo" i32 [i32]
       [MkBlock 2 [MkInstruction 22 i32 (Call (VFunc "sys_foo.mkint.arg0") []);
                   MkInstruction 20 i32 (Call (VFunc "helper") [VInst 22]);
                   MkInstruction 21 TVoid (Ret (Some (VInst 20)))]];
     MkFunction "sys_foo.mkint.arg0" i32 [] []]
    [].

(** A call through a pointer to a function:
<<
  define i32 @apply(i32 ()* %fp) {
  b1: %r = call i32 %fp()
      ret i32 %r }
>> *)
Definition icall : instruction := MkInstruction 10 i32 (Call (VArg "apply" 0) []).

Definition icall_f : function :=
  MkFunction "apply" i32 [TPtr 0]
    [MkBlock 1 [icall; MkInstruction 11 TVoid (Ret (Some (VInst 10)))]].

Definition icall_module : module := MkModule [icall_f] [].

(** An array that is all zero:
<<
  @zeros = global [4 x i32] zeroinitializer
>> *)
Definition zeros_module : module :=
  MkModule [] [MkGlobal "zeros" (TArray 4 i32) 0 (Some InitOther)].

(** A check of a pointer against null:
<<
  define i32 @f(i8* %p) {
  b1: %c = icmp eq i8* %p, null
      br i1 %c, label %b2, label %b3
  b2: ret i32 0
  b3: ret i32 1 }
>> *)
Definition nullcheck_b1 : block :=
  MkBlock 1 [MkInstruction 10 i1 (ICmp ICMP_EQ (VArg "f" 0) (VOther None 0));
             MkInstruction 11 TVoid (CondBr (VInst 10) 2 3)].

Definition nullcheck_b2 : block :=
  MkBlock 2 [MkInstruction 20 TVoid (Ret (Some (VConstInt 32 0)))].

Definition nullcheck_f : function :=
  MkFunction "f" i32 [TPtr 0]
    [nullcheck_b1; nullcheck_b2;
     MkBlock 3 [MkInstruction 30 TVoid (Ret (Some (VConstInt 32 1)))]].

Definition nullcheck_module : module := MkModule [nullcheck_f] [].

(** A read of an array of four at an index that is an argument, and a
    caller that passes 1.  The function that reads comes first in the
    module:
<<
  @arr = global [4 x i32] [i32 1, i32 2, i32 3, i32 4]
  define i32 @f(i64 %i) {
  b1: %p = getelementptr [4 x i32], [4 x i32]* @arr, i64 0, i64 %i
      %v = load i32, i32* %p
      ret i32 %v }
  define i32 @main() {
  b2: %r = call i32 @f(i64 1)
      ret i32 %r }
>>
    and the same two functions with the caller first. *)
Definition argidx_f : function :=
  MkFunction "f" i32 [TInt 64]
    [MkBlock 1 [MkInstruction 10 (TPtr 0)
                  (GetElementPtr (VGlobal "arr") [VConstInt 64 0; VArg "f" 0]);
                MkInstruction 11 i32 (Load (VInst 10));
                MkInstruction 12 TVoid (Ret (Some (VInst 11)))]].

Definition argidx_main : function :=
  MkFunction "main" i32 []
    [MkBlock 2 [MkInstruction 20 i32 (Call (VFunc "f") [VConstInt 64 1]);
                MkInstruction 21 TVoid (Ret (Some (VInst 20)))]].

Definition argidx_arr : global :=
  MkGlobal "arr" (TArray 4 i32) 0
    (Some (InitDataArray [Some (32%N, 1); Some (32%N, 2); Some (32%N, 3); Some (32%N, 4)])).

Definition argidx_module : module := MkModule [argidx_f; argidx_main] [argidx_arr].

Definition argidx_module_caller_first : module :=
  MkModule [argidx_main; argidx_f] [argidx_arr].

(** A source that hands its argument to a function without a result, which
    allocates with it and passes it on to a function that branches on it:
<<
  declare i8* @kmalloc(i32)
  define i32 @sys_foo(i32 %a) {
  b5: call void @G(i32 %a)
      ret i32 0 }
  define void @G(i32 %x) {
  b4: %m = add i32 %x, 1
      %p = call i8* @kmalloc(i32 %m)
      %r = call i32 @h(i32 %x)
      ret void }
  define i32 @h(i32 %y) {
  b1: %c = icmp ult i32 %y, 10
      br i1 %c, label %b2, label %b3
  b2: ret i32 1
  b3: ret i32 0 }
>>
    and the module the pass leaves, with a call in the place of [%a]. *)
Definition tw_h : function :=
  MkFunction "h" i32 [i32]
    [MkBlock 1 [MkInstruction 10 i1 (ICmp ICMP_ULT (VArg "h" 0) (VConstInt 32 10));
                MkInstruction 11 TVoid (CondBr (VInst 10) 2 3)];
     MkBlock 2 [MkInstruction 20 TVoid (Ret (Some (VConstInt 32 1)))];
     MkBlock 3 [MkInstruction 30 TVoid (Ret (Some (VConstInt 32 0)))]].

Definition tw_G : function :=
  MkFunction "G" TVoid [i32]
    [MkBlock 4 [MkInstruction 40 i32 (Binary Add (VArg "G" 0) (VConstInt 32 1));
                MkInstruction 41 (TPtr 0) (Call (VFunc "kmalloc") [VInst 40]);
                MkInstruction 42 i32 (Call (VFunc "h") [VArg "G" 0]);
                MkInstruction 43 TVoid (Ret None)]].

Definition tw_module : module :=
  MkModule
    [MkFunction "kmalloc" (TPtr 0) [i32] [];
     MkFunction "sys_foo" i32 [i32]
       [MkBlock 5 [MkInstruction 50 TVoid (Call (VFunc "G") [VArg "sys_foo" 0]);
                   MkInstruction 51 TVoid (Ret (Some (VConstInt 32 0)))]];
     tw_G; tw_h]
    [].

Definition tw_module_rewritten : module :=
  MkModule
    [MkFunction "kmalloc" (TPtr 0) [i32] [];
     MkFunction "sys_foo" i32 [i32]
       [MkBlock 5 [MkInstruction 52 i32 (Call (VFunc "sys_foo.mkint.arg0") []);
                   MkInstruction 50 TVoid (Call (VFunc "G") [VInst 52]);
                   MkInstruction 51 TVoid (Ret (Some (VConstInt 32 0)))]];
     tw_G; tw_h;
     MkFunction "sys_foo.mkint.arg0" i32 [] []]
    [].

(** A comparison of two values that are known, 10 and 3, so that only the
    false edge can be taken:
<<
  @ga = global i32 10
  @gb = global i32 3
  define i32 @f() {
  b1: %a = load i32, i32* @ga
      %b = load i32, i32* @gb
      %c = icmp ult i32 %a, %b
      br i1 %c, label %b2, label %b3
  b2: ret i32 1
  b3: ret i32 0 }
>> *)
Definition known_b1 : block :=
  MkBlock 1 [MkInstruction 10 i32 (Load (VGlobal "ga"));
             MkInstruction 11 i32 (Load (VGlobal "gb"));
             MkInstruction 12 i1 (ICmp ICMP_ULT (VInst 10) (VInst 11));
             MkInstruction 13 TVoid (CondBr (VInst 12) 2 3)].

Definition known_f : function :=
  MkFunction "f" i32 []
    [known_b1;
     MkBlock 2 [MkInstruction 20 TVoid (Ret (Some (VConstInt 32 1)))];
     MkBlock 3 [MkInstruction 30 TVoid (Ret (Some (VConstInt 32 0)))]].

Definition known_module : module :=
  MkModule [known_f]
    [MkGlobal "ga" i32 0 (Some (InitInt 32 10)); MkGlobal "gb" i32 0 (Some (InitInt 32 3))].

(** ** States of the examples *)

(** [array_module] once [init_ranges] has recorded the four elements of
    [@arr], and the state the visit of the load leaves. *)
Definition array_state : state :=
  set_garr2ranges
    {[ "arr" := [ConstantRange.ofAPInt 32 1; ConstantRange.ofAPInt 32 2;
                 ConstantRange.ofAPInt 32 3; ConstantRange.ofAPInt 32 4] ]}
    empty_state.

Definition array_state_visited : state :=
  match visit_inst LLVM.ops array_module array_f 1 array_load array_state with
  | Done s => s
  | _ => array_state
  end.

(** The states in which the pass ends on [both_dead_module] and on
    [fan_module]. *)
Definition both_dead_final : state :=
  match run LLVM.ops LLVM.demangle 1 both_dead_module with
  | Done (_, s) => s
  | _ => empty_state
  end.

Definition fan_final : state :=
  match run LLVM.ops LLVM.demangle 1 fan_module with
  | Done (_, s) => s
  | _ => empty_state
  end.

(** The state in which the first pass over [fan_module] comes to [b4]: the
    four blocks before it are analysed, [b4] holds no range yet. *)
Definition fan_before_b4 : state :=
  match
    s ← range_setup LLVM.demangle fan_module empty_state;
    for_each (analyse_block LLVM.ops fan_module fan_f) fan_entry s
  with
  | Done s => s
  | _ => empty_state
  end.

(** The first pass of the range loop over [both_dead_module]: the state in
    which it starts, the state when [b1] and [b2] are analysed, the state
    when [b3] is analysed too, and the state [range_analysis] returns. *)
Definition both_dead_start : state :=
  match range_setup LLVM.demangle both_dead_module empty_state with
  | Done s => s
  | _ => empty_state
  end.

Definition both_dead_at_b3 : state :=
  match
    for_each (analyse_block LLVM.ops both_dead_module both_dead_f) [both_dead_b1; both_dead_b2]
      both_dead_start
  with
  | Done s => s
  | _ => empty_state
  end.

Definition both_dead_after_b3 : state :=
  match analyse_block LLVM.ops both_dead_module both_dead_f both_dead_b3 both_dead_at_b3 with
  | Done s => s
  | _ => empty_state
  end.

Definition both_dead_pass : state :=
  match range_analysis LLVM.ops both_dead_module both_dead_f both_dead_start with
  | Done s => s
  | _ => empty_state
  end.

(** The state in which the range loop starts on [argidx_module], and the
    states in which the pass ends on [argidx_module] and on
    [argidx_module_caller_first]. *)
Definition argidx_start : state :=
  match range_setup LLVM.demangle argidx_module empty_state with
  | Done s => s
  | _ => empty_state
  end.

Definition argidx_final : state :=
  match run LLVM.ops LLVM.demangle 1 argidx_module with
  | Done (_, s) => s
  | _ => empty_state
  end.

Definition argidx_caller_first_final : state :=
  match run LLVM.ops LLVM.demangle 1 argidx_module_caller_first with
  | Done (_, s) => s
  | _ => empty_state
  end.

(** The state in which the pass ends on [tw_module], and the state in which
    a second run ends on the module the first has left. *)
Definition tw_first : state :=
  match run LLVM.ops LLVM.demangle 5 tw_module with
  | Done (_, s) => s
  | _ => empty_state
  end.

Definition tw_second : state :=
  match run_on LLVM.ops LLVM.demangle tw_first 5 tw_module_rewritten with
  | Done (_, s) => s
  | _ => empty_state
  end.

(** The state in which the pass ends on [known_module], and the states in
    which the blocks [b2] and [b3] merge [b1] in the first pass. *)
Definition known_final : state :=
  match run LLVM.ops LLVM.demangle 1 known_module with
  | Done (_, s) => s
  | _ => empty_state
  end.

Definition known_at_b2 : state :=
  match
    s ← range_setup LLVM.demangle known_module empty_state;
    analyse_block LLVM.ops known_module known_f known_b1 s
  with
  | Done s => s
  | _ => empty_state
  end.

Definition known_at_b3 : state :=
  match
    s ← range_setup LLVM.demangle known_module empty_state;
    for_each (analyse_block LLVM.ops known_module known_f) (take 2 (f_blocks known_f)) s
  with
  | Done s => s
  | _ => empty_state
  end.

(** The state in which [taint_analysis] enters the do-while on
    [ret_sink_module]. *)
Definition ret_sink_state : state :=
  set_func2tsrc [("sys_bar", [])] (mark_sink 10 "return" empty_state).

(** The state in which the pass ends on [promote_module]. *)
Definition promote_final : state :=
  match run LLVM.ops LLVM.demangle 1 promote_module with
  | Done (_, s) => s
  | _ => empty_state
  end.

(** [kz_module]: the state with the sink of [kzalloc] marked, the state a
    traversal from the call that stands for the argument leaves, and the
    state in which the taint phase ends. *)
Definition kz_marked : state := mark_sink 10 "kzalloc" empty_state.

Definition kz_reached : state :=
  match is_sink_reachable LLVM.demangle 2 kz_module_rewritten kz_arg_call kz_marked with
  | Done (_, s) => s
  | _ => kz_marked
  end.

Definition kz_final : state :=
  match taint_analysis LLVM.demangle 2 kz_module with
  | Done (_, s) => s
  | _ => empty_state
  end.

(** The state in which the taint phase ends on [hp_module]. *)
Definition hp_final : state :=
  match taint_analysis LLVM.demangle 3 hp_module with
  | Done (_, s) => s
  | _ => empty_state
  end.

(** The state in which the pass ends on [kz_module]. *)
Definition kz_run_final : state :=
  match run LLVM.ops LLVM.demangle 2 kz_module with
  | Done (_, s) => s
  | _ => empty_state
  end.

(** * Properties *)

Section Properties.

Context (cr : ConstantRange.Ops).
Context (demangle : string → string).

(** *** Results and loops *)

Lemma bind_Done {A B} (r : result A) (k : A → result B) b :
  r ≫= k = Done b → ∃ a, r = Done a ∧ k a = Done b.
Proof. destruct r; naive_solver. Qed.

Ltac inv_result :=
  repeat match goal with
  | H : _ ≫= _ = Done _ |- _ => apply bind_Done in H as (? & ? & H)
  | H : (let '(_, _) := ?p in _) = Done _ |- _ => destruct p
  | H : Done _ = Done _ |- _ => injection H as H
  | H : Aborted = Done _ |- _ => discriminate H
  | H : MKINT_CHECK_ABORT = Done _ |- _ => discriminate H
  | H : NoFuel = Done _ |- _ => discriminate H
  end; simplify_eq.

Lemma bind_not_NoFuel {A B} (r : result A) (k : A → result B) :
  r ≠ NoFuel → (∀ a, k a ≠ NoFuel) → r ≫= k ≠ NoFuel.
Proof. destruct r; naive_solver. Qed.

Lemma for_each_not_NoFuel {A S} (body : A → S → result S) l s :
  (∀ x s, body x s ≠ NoFuel) → for_each body l s ≠ NoFuel.
Proof.
  intros Hbody. revert s.
  induction l as [|x l IH]; intros s; simpl; [done|].
  apply bind_not_NoFuel; auto.
Qed.

(** A property that every round of a loop keeps is kept by the loop. *)
Lemma for_each_inv {A S} (P : S → Prop) (body : A → S → result S) l s s' :
  (∀ x s s', x ∈ l → P s → body x s = Done s' → P s') →
  P s → for_each body l s = Done s' → P s'.
Proof.
  revert s. induction l as [|x l IH]; intros s Hbody HP Hrun; simpl in Hrun.
  - by simplify_eq.
  - apply bind_Done in Hrun as (s1 & H1 & H2).
    eapply IH; [| |exact H2].
    + intros y t t' Hy. apply Hbody. by right.
    + eapply Hbody; [by left|exact HP|exact H1].
Qed.

(** *** Width promotion *)

Lemma zextOrTrunc_same_width c :
  ConstantRange.zextOrTrunc cr c (ConstantRange.getBitWidth c) = c.
Proof.
  unfold ConstantRange.zextOrTrunc.
  by rewrite N.ltb_irrefl.
Qed.

Lemma auto_promote_id lhs rhs : auto_promote cr lhs rhs = (lhs, rhs).
Proof.
  unfold auto_promote.
  rewrite !zextOrTrunc_same_width.
  by repeat case_match.
Qed.

(** C1.  [auto_promote] calls [zextOrTrunc] with the operand's own width, so
    it hands both operands back as they came, whatever their widths; a binary
    operation is then dispatched on the operands as they came (here for
    [add]; the other opcodes read the same).  The narrower operand is not
    brought to the wider width. *)
Theorem auto_promote_returns_operands_unchanged lhs rhs :
  auto_promote cr lhs rhs = (lhs, rhs)
  ∧ compute_binary_rng cr Add lhs rhs = ConstantRange.add cr lhs rhs.
Proof.
  split; [apply auto_promote_id|].
  unfold compute_binary_rng. by rewrite auto_promote_id.
Qed.

(** *** The range loop *)

Lemma get_range_by_bb_not_NoFuel s F var bb : get_range_by_bb s F var bb ≠ NoFuel.
Proof. unfold get_range_by_bb. by repeat case_match. Qed.

Lemma merge_cond_br_not_NoFuel m F bb pred br_true cmp p lhs rhs s :
  merge_cond_br cr m F bb pred br_true cmp p lhs rhs s ≠ NoFuel.
Proof.
  unfold merge_cond_br. case_match; [done|].
  repeat (apply bind_not_NoFuel; [apply get_range_by_bb_not_NoFuel|intros ?]).
  by case_match.
Qed.

Lemma merge_switch_not_NoFuel m F bb cond d cases s :
  merge_switch cr m F bb cond d cases s ≠ NoFuel.
Proof.
  unfold merge_switch.
  by apply bind_not_NoFuel; [apply get_range_by_bb_not_NoFuel|].
Qed.

Lemma merge_pred_not_NoFuel m F bb pred s : merge_pred cr m F bb pred s ≠ NoFuel.
Proof.
  unfold merge_pred.
  repeat case_match; try done.
  - by apply bind_not_NoFuel; [apply merge_cond_br_not_NoFuel|].
  - by apply bind_not_NoFuel; [apply merge_switch_not_NoFuel|].
Qed.

Lemma load_range_not_NoFuel m F bb inst addr new_range s :
  load_range m F bb inst addr new_range s ≠ NoFuel.
Proof.
  unfold load_range.
  repeat case_match; try done;
    (apply bind_not_NoFuel; [apply get_range_by_bb_not_NoFuel|]); intros; by repeat case_match.
Qed.

Lemma visit_inst_not_NoFuel m F bb inst s : visit_inst cr m F bb inst s ≠ NoFuel.
Proof.
  unfold visit_inst.
  repeat case_match; try done;
    repeat first
      [ apply bind_not_NoFuel; [|intros ?]
      | apply get_range_by_bb_not_NoFuel
      | apply load_range_not_NoFuel
      | apply for_each_not_NoFuel; intros ? ?
      | progress case_match
      | done ].
Qed.

Lemma range_analysis_not_NoFuel m F s : range_analysis cr m F s ≠ NoFuel.
Proof.
  unfold range_analysis.
  apply for_each_not_NoFuel. intros bb s'. unfold analyse_block.
  apply bind_not_NoFuel.
  - apply for_each_not_NoFuel. intros. apply merge_pred_not_NoFuel.
  - intros. apply for_each_not_NoFuel. intros. apply visit_inst_not_NoFuel.
Qed.

Lemma range_round_not_NoFuel m s : range_round cr m s ≠ NoFuel.
Proof.
  unfold range_round. apply for_each_not_NoFuel. intros F s'.
  case_match; [apply range_analysis_not_NoFuel|done].
Qed.

(** The loop runs out of no budget that covers 129 rounds: it ends by
    itself. *)
Lemma range_loop_terminates fuel m try_count passes s :
  (N.to_nat (max_try + 1 - try_count) ≤ fuel)%nat → (0 < fuel)%nat →
  range_loop cr fuel m try_count passes s ≠ NoFuel.
Proof.
  revert try_count passes s.
  induction fuel as [|fuel IH]; intros t p s Hfuel Hpos; [lia|].
  simpl. apply bind_not_NoFuel; [apply range_round_not_NoFuel|].
  intros s1. case_match; [done|].
  case_match eqn:Hcap; [done|].
  apply N.ltb_ge in Hcap. unfold max_try in *.
  apply IH; lia.
Qed.

(** It stops after the first pass that changes none of the three maps. *)
Lemma range_loop_stops_when_stable fuel m try_count passes s s' :
  range_round cr m s = Done s' →
  m_func2range_info s' = m_func2range_info s →
  m_global2range s' = m_global2range s →
  m_func2ret_range s' = m_func2ret_range s →
  range_loop cr (S fuel) m try_count passes s = Done (S passes, try_count, s').
Proof.
  intros Hround H1 H2 H3. simpl. rewrite Hround. simpl.
  rewrite !bool_decide_eq_true_2; done.
Qed.

(** The number of passes it makes: at most [max_try + 1] in all. *)
Lemma range_loop_passes fuel m try_count passes s passes' try_count' s' :
  (try_count ≤ max_try)%N →
  range_loop cr fuel m try_count passes s = Done (passes', try_count', s') →
  (passes < passes' ≤ passes + N.to_nat (max_try + 1 - try_count))%nat.
Proof.
  revert try_count passes s.
  induction fuel as [|fuel IH]; intros t p s Ht Hrun; [done|].
  simpl in Hrun. apply bind_Done in Hrun as (s1 & _ & Hrun).
  unfold max_try in *.
  case_match; [simplify_eq; lia|].
  case_match eqn:Hcap; [simplify_eq; lia|].
  apply N.ltb_ge in Hcap.
  apply IH in Hrun; lia.
Qed.

(** *** Taint propagation without a visited set *)

(** The recursion goes into the first user before anything is marked: when
    the call on that user exhausts its budget, so does the call on the
    instruction, with one unit more. *)
Lemma is_sink_reachable_stuck_on_user fuel m inst s u rest :
  md_sink s !! i_id inst = None →
  no_callee_body m (i_kind inst) = true →
  users m (VInst (i_id inst)) = u :: rest →
  is_sink_reachable demangle fuel m u s = NoFuel →
  is_sink_reachable demangle (S fuel) m inst s = NoFuel.
Proof.
  intros Hsink Hkind Husers Hu.
  cbn [is_sink_reachable].
  rewrite bool_decide_eq_false_2 by (rewrite Hsink; by intros [? ?]).
  rewrite Husers.
  destruct (i_kind inst) eqn:Hk; try done;
    cbn [for_each_or mbind result_bind]; try (by rewrite Hu).
  simpl in Hkind.
  destruct (getCalledFunction m callee); [|by cbn; rewrite Hu].
  rewrite Hkind. cbn. by rewrite Hu.
Qed.

(** *** Error marking *)

Local Abbreviation mark_branch :=
  (λ (cmp : N) (is_tbr : bool) (s : state),
     if is_tbr then mark_err DEAD_TRUE_BR cmp s else mark_err DEAD_FALSE_BR cmp s).

Lemma mark_errors_branches_fold (s : state) (mp : gmap N bool) :
  (∀ c, md_err (map_fold mark_branch s mp) !! c =
        match mp !! c with
        | Some is_tbr => Some (mkstr (dead_branch_err is_tbr))
        | None => md_err s !! c
        end)
  ∧ m_impossible_branches (map_fold mark_branch s mp) = m_impossible_branches s
  ∧ m_gep_oob (map_fold mark_branch s mp) = m_gep_oob s.
Proof.
  revert mp.
  apply (map_fold_weak_ind (λ r (mp : gmap N bool),
    (∀ c, md_err r !! c =
          match mp !! c with
          | Some is_tbr => Some (mkstr (dead_branch_err is_tbr))
          | None => md_err s !! c
          end)
    ∧ m_impossible_branches r = m_impossible_branches s
    ∧ m_gep_oob r = m_gep_oob s)).
  - split; [|done]. intros c. by rewrite lookup_empty.
  - intros i x m r Hi (IH & ? & ?).
    split; [|by destruct x].
    intros c. destruct (decide (c = i)) as [->|Hne].
    + rewrite lookup_insert_eq. destruct x; simpl; by rewrite lookup_insert_eq.
    + rewrite lookup_insert_ne by done. rewrite <- IH.
      destruct x; simpl; by rewrite lookup_insert_ne.
Qed.

Lemma mark_errors_oob_fold (s : state) (X : gset N) :
  (∀ c, md_err (set_fold (λ gep s, mark_err ARRAY_OOB gep s) s X) !! c =
        if decide (c ∈ X) then Some (mkstr ARRAY_OOB) else md_err s !! c)
  ∧ m_impossible_branches (set_fold (λ gep s, mark_err ARRAY_OOB gep s) s X)
    = m_impossible_branches s
  ∧ m_gep_oob (set_fold (λ gep s, mark_err ARRAY_OOB gep s) s X) = m_gep_oob s.
Proof.
  revert X.
  apply (set_fold_ind_L (λ r (Y : gset N),
    (∀ c, md_err r !! c = if decide (c ∈ Y) then Some (mkstr ARRAY_OOB) else md_err s !! c)
    ∧ m_impossible_branches r = m_impossible_branches s
    ∧ m_gep_oob r = m_gep_oob s)).
  - split; [|done]. intros c. rewrite decide_False; [done|]. apply not_elem_of_empty.
  - intros x Y r Hx (IH & ? & ?).
    split; [|done].
    intros c. simpl. destruct (decide (c = x)) as [->|Hne].
    + rewrite lookup_insert_eq. rewrite decide_True; [done|].
      apply elem_of_union_l. by apply elem_of_singleton.
    + rewrite lookup_insert_ne by done. rewrite IH.
      destruct (decide (c ∈ Y)) as [Hc|Hc].
      * rewrite decide_True; [done|]. by apply elem_of_union_r.
      * rewrite decide_False; [done|].
        intros [Hcx%elem_of_singleton|HcY]%elem_of_union; done.
Qed.

(** What [mark_errors] leaves on every instruction. *)
Lemma mark_errors_lookup s c :
  md_err (mark_errors s) !! c =
    if decide (c ∈ m_gep_oob s) then Some (mkstr ARRAY_OOB)
    else match m_impossible_branches s !! c with
         | Some is_tbr => Some (mkstr (dead_branch_err is_tbr))
         | None => md_err s !! c
         end.
Proof.
  unfold mark_errors.
  destruct (mark_errors_branches_fold s (m_impossible_branches s)) as (H1 & H2 & H3).
  destruct (mark_errors_oob_fold (map_fold mark_branch s (m_impossible_branches s))
              (m_gep_oob s)) as (H4 & H5 & H6).
  simpl in *. rewrite H3.
  rewrite H4, H1. done.
Qed.

Lemma mark_errors_findings s :
  m_impossible_branches (mark_errors s) = m_impossible_branches s
  ∧ m_gep_oob (mark_errors s) = m_gep_oob s.
Proof.
  unfold mark_errors.
  destruct (mark_errors_branches_fold s (m_impossible_branches s)) as (H1 & H2 & H3).
  destruct (mark_errors_oob_fold (map_fold mark_branch s (m_impossible_branches s))
              (m_gep_oob s)) as (H4 & H5 & H6).
  simpl in *. rewrite H3. rewrite H5, H6. done.
Qed.

(** *** Walks over containers ordered by address *)

Local Abbreviation merge_entry narrowed_insts :=
  (λ (cur_rng : gmap value crange) '(inst, rng),
     if bool_decide (inst ∈ narrowed_insts) then cur_rng
     else
       match cur_rng !! inst with
       | None => <[inst := rng]> cur_rng
       | Some cur => <[inst := ConstantRange.unionWith cr cur rng]> cur_rng
       end).

Lemma merge_entries_lookup (narrowed_insts : list value) entries (cur_rng : gmap value crange) k :
  NoDup entries.*1 →
  foldl (merge_entry narrowed_insts) cur_rng entries !! k =
    match (list_to_map entries : gmap value crange) !! k with
    | Some rng =>
      if bool_decide (k ∈ narrowed_insts) then cur_rng !! k
      else Some (match cur_rng !! k with
                 | None => rng
                 | Some cur => ConstantRange.unionWith cr cur rng
                 end)
    | None => cur_rng !! k
    end.
Proof.
  revert cur_rng.
  induction entries as [|[inst rng] entries IH]; intros cur_rng Hnd; [done|].
  rewrite fmap_cons in Hnd. apply NoDup_cons in Hnd as [Hfresh Hnd].
  cbn [foldl list_to_map foldr]. rewrite (IH _ Hnd). clear IH.
  destruct (decide (k = inst)) as [->|Hne].
  - rewrite lookup_insert_eq.
    rewrite (not_elem_of_list_to_map_1 _ _ Hfresh).
    case_bool_decide; [done|].
    destruct (cur_rng !! inst); by rewrite lookup_insert_eq.
  - rewrite lookup_insert_ne by done.
    assert (merge_entry narrowed_insts cur_rng (inst, rng) !! k = cur_rng !! k) as ->; [|done].
    simpl. case_bool_decide; [done|].
    destruct (cur_rng !! inst); by rewrite lookup_insert_ne.
Qed.

(** The walk of [merge_rest] gives the same block whatever the order of the
    entries. *)
Lemma merge_rest_walk_order F bb pred entries narrowed_insts s :
  entries ≡ₚ map_to_list (rng_at s F (BlockRef pred)) →
  merge_rest_walk cr F bb entries narrowed_insts s = merge_rest cr F bb pred narrowed_insts s.
Proof.
  intros Hperm. unfold merge_rest_walk, merge_rest. f_equal.
  assert (NoDup entries.*1) as Hnd.
  { rewrite Hperm. apply NoDup_fst_map_to_list. }
  assert ((list_to_map entries : gmap value crange) = rng_at s F (BlockRef pred)) as Hmap.
  { rewrite (list_to_map_proper _ _ Hnd Hperm). apply list_to_map_to_list. }
  apply map_eq. intros k.
  rewrite (merge_entries_lookup _ _ _ _ Hnd), Hmap.
  rewrite lookup_union_with, map_lookup_filter.
  destruct (rng_at s F (BlockRef pred) !! k) as [rng|]; simpl.
  - case_bool_decide as Hk.
    + rewrite option_guard_False by (intros Hn; apply Hn, Hk). simpl.
      by destruct (rng_at s F (BlockRef bb) !! k).
    + rewrite option_guard_True by done. simpl.
      by destruct (rng_at s F (BlockRef bb) !! k).
  - by destruct (rng_at s F (BlockRef bb) !! k).
Qed.

(** A state that differs from [s] in [mkint.err] at most. *)
Local Abbreviation only_err s s1 := (s1 = set_md_err (md_err s1) s).

Lemma only_err_refl s : only_err s s.
Proof. by destruct s. Qed.

Lemma only_err_trans s s1 s2 : only_err s s1 → only_err s1 s2 → only_err s s2.
Proof. intros H1 H2. rewrite H2 at 1. rewrite H1 at 1. done. Qed.

Lemma only_err_mark err c s s1 : only_err s s1 → only_err s (mark_err err c s1).
Proof. intros Hs1. unfold mark_err. rewrite Hs1 at 2. done. Qed.

Local Abbreviation mark_entry :=
  (λ (s : state) '(cmp, is_tbr),
     if is_tbr : bool then mark_err DEAD_TRUE_BR cmp s else mark_err DEAD_FALSE_BR cmp s).

Lemma mark_entries_spec branches s :
  NoDup branches.*1 →
  only_err s (foldl mark_entry s branches)
  ∧ ∀ c, md_err (foldl mark_entry s branches) !! c =
         match (list_to_map branches : gmap N bool) !! c with
         | Some is_tbr => Some (mkstr (dead_branch_err is_tbr))
         | None => md_err s !! c
         end.
Proof.
  revert s. induction branches as [|[cmp is_tbr] branches IH]; intros s Hnd.
  - split; [apply only_err_refl|done].
  - rewrite fmap_cons in Hnd. apply NoDup_cons in Hnd as [Hfresh Hnd].
    cbn [foldl]. destruct (IH (mark_entry s (cmp, is_tbr)) Hnd) as [Honly Hlook]. split.
    + rewrite Honly at 1. simpl. by destruct is_tbr.
    + intros c. rewrite Hlook. cbn [list_to_map foldr].
      destruct (decide (c = cmp)) as [->|Hne].
      * rewrite lookup_insert_eq, (not_elem_of_list_to_map_1 _ _ Hfresh).
        destruct is_tbr; simpl; by rewrite lookup_insert_eq.
      * rewrite lookup_insert_ne by done.
        destruct (list_to_map branches !! c); [done|].
        destruct is_tbr; simpl; by rewrite lookup_insert_ne.
Qed.

Lemma mark_geps_spec geps s :
  only_err s (foldl (λ s gep, mark_err ARRAY_OOB gep s) s geps)
  ∧ ∀ c, md_err (foldl (λ s gep, mark_err ARRAY_OOB gep s) s geps) !! c =
         if decide (c ∈ geps) then Some (mkstr ARRAY_OOB) else md_err s !! c.
Proof.
  revert s. induction geps as [|gep geps IH]; intros s.
  - split; [apply only_err_refl|]. intros c. rewrite decide_False; [done|]. apply not_elem_of_nil.
  - cbn [foldl]. destruct (IH (mark_err ARRAY_OOB gep s)) as [Honly Hlook]. split.
    + rewrite Honly at 1. done.
    + intros c. rewrite Hlook.
      destruct (decide (c ∈ geps)) as [Hc|Hc].
      * rewrite decide_True; [done|]. by right.
      * destruct (decide (c = gep)) as [->|Hne].
        -- rewrite decide_True by left. simpl. by rewrite lookup_insert_eq.
        -- rewrite decide_False.
           ++ simpl. by rewrite lookup_insert_ne.
           ++ intros [?|?]%elem_of_cons; done.
Qed.

Lemma mark_errors_only_err s : only_err s (mark_errors s).
Proof.
  unfold mark_errors.
  apply (set_fold_ind_L (λ r (_ : gset N), only_err s r)).
  - apply (map_fold_weak_ind (λ r (_ : gmap N bool), only_err s r)).
    + apply only_err_refl.
    + intros c is_tbr mp r _ Hr. destruct is_tbr; by apply only_err_mark.
  - intros gep X r _ Hr. by apply only_err_mark.
Qed.

(** [mark_errors] leaves the same metadata whatever the order of the two
    walks. *)
Lemma mark_errors_walk_order branches geps s :
  branches ≡ₚ map_to_list (m_impossible_branches s) →
  geps ≡ₚ elements (m_gep_oob s) →
  mark_errors_walk branches geps s = mark_errors s.
Proof.
  intros Hb Hg. unfold mark_errors_walk.
  assert (NoDup branches.*1) as Hnd.
  { rewrite Hb. apply NoDup_fst_map_to_list. }
  assert ((list_to_map branches : gmap N bool) = m_impossible_branches s) as Hmap.
  { rewrite (list_to_map_proper _ _ Hnd Hb). apply list_to_map_to_list. }
  destruct (mark_entries_spec branches s Hnd) as [Honly1 Hlook1].
  destruct (mark_geps_spec geps (foldl mark_entry s branches)) as [Honly2 Hlook2].
  rewrite (only_err_trans _ _ _ Honly1 Honly2), (mark_errors_only_err s).
  f_equal. apply map_eq. intros c.
  rewrite Hlook2, Hlook1, Hmap, mark_errors_lookup.
  assert (c ∈ geps ↔ c ∈ m_gep_oob s) as Hin.
  { rewrite Hg. apply elem_of_elements. }
  destruct (decide (c ∈ geps)) as [Hc|Hc].
  - rewrite decide_True; [done|]. by apply Hin.
  - rewrite decide_False; [done|]. intros Hc'. by apply Hc, Hin.
Qed.

(** *** Ranges of a block *)

Lemma rng_at_set_rng_at F bb x s : rng_at (set_rng_at F bb x s) F bb = x.
Proof.
  unfold rng_at, bb_range, set_rng_at. simpl.
  rewrite lookup_insert_eq. simpl. by rewrite lookup_insert_eq.
Qed.

(** *** The merge over a conditional branch *)

(** What the merge over a conditional branch leaves in the block for the two
    operands.  The left operand is treated first; when both operands are the
    same value, the right one is united with what the left one has just
    left. *)
Lemma merge_cond_br_ranges m F bb pred br_true cmp p lhs rhs s lrng rrng :
  isIntegerTy (type_of m lhs) = true →
  isIntegerTy (type_of m rhs) = true →
  get_range_by_bb s F lhs (BlockRef pred) = Done lrng →
  get_range_by_bb s F rhs (BlockRef pred) = Done rrng →
  let is_true_br := bool_decide (br_true = bb) in
  let held v :=
    default (ConstantRange.getEmpty (getIntegerBitWidth (type_of m v)))
      (rng_at s F (BlockRef bb) !! v) in
  let lnew :=
    if isConstantInt lhs then lrng
    else ConstantRange.unionWith cr
           (ConstantRange.intersectWith cr lrng
              (cmpRegion cr (if is_true_br then p else getInversePredicate p) rrng))
           (held lhs) in
  let rnew :=
    if isConstantInt rhs then rrng
    else ConstantRange.unionWith cr
           (ConstantRange.intersectWith cr rrng
              (cmpRegion cr
                 (if is_true_br then getSwappedPredicate p else getInversePredicate p) lrng))
           (if decide (lhs = rhs) then lnew else held rhs) in
  ∃ s',
    merge_cond_br cr m F bb pred br_true cmp p lhs rhs s = Done s'
    ∧ rng_at s' F (BlockRef bb) !! lhs = Some (if decide (lhs = rhs) then rnew else lnew)
    ∧ rng_at s' F (BlockRef bb) !! rhs = Some rnew
    ∧ m_impossible_branches s' =
        (if ConstantRange.isEmptySet (if decide (lhs = rhs) then rnew else lnew)
            || ConstantRange.isEmptySet rnew
         then <[cmp := is_true_br]> (m_impossible_branches s)
         else m_impossible_branches s).
Proof.
  intros Hl Hr Hlrng Hrrng is_true_br held lnew rnew.
  unfold merge_cond_br. rewrite Hl, Hr, Hlrng, Hrrng.
  cbn [negb orb mbind result_bind].
  fold is_true_br.
  set (cur := rng_at s F (BlockRef bb)).
  set (cur1 := match cur !! lhs with None => _ | Some _ => cur end).
  set (cur2 := match cur1 !! rhs with None => _ | Some _ => cur1 end).
  assert (default crange_default (cur2 !! lhs) = held lhs) as Hheld_l.
  { subst cur2 cur1 held. cbv beta. fold cur.
    destruct (cur !! lhs) eqn:Hcl.
    - destruct (cur !! rhs) eqn:Hcr; [by rewrite Hcl|].
      destruct (decide (lhs = rhs)) as [->|Hne]; [congruence|].
      by rewrite lookup_insert_ne, Hcl.
    - destruct (_ !! rhs) eqn:Hcr; [by rewrite lookup_insert_eq|].
      destruct (decide (lhs = rhs)) as [->|Hne]; [by rewrite lookup_insert_eq in Hcr|].
      by rewrite lookup_insert_ne, lookup_insert_eq. }
  rewrite Hheld_l. fold lnew.
  set (cur3 := <[lhs := lnew]> cur2).
  assert (default crange_default (cur3 !! rhs) = if decide (lhs = rhs) then lnew else held rhs)
    as Hheld_r.
  { subst cur3. destruct (decide (lhs = rhs)) as [->|Hne]; [by rewrite lookup_insert_eq|].
    rewrite lookup_insert_ne by done.
    subst cur2 cur1 held. cbv beta. fold cur.
    destruct (cur !! lhs) eqn:Hcl.
    - destruct (cur !! rhs) eqn:Hcr; [by rewrite Hcr|]. by rewrite lookup_insert_eq.
    - rewrite lookup_insert_ne by done.
      destruct (cur !! rhs) eqn:Hcr.
      + by rewrite lookup_insert_ne, Hcr.
      + by rewrite lookup_insert_eq. }
  rewrite Hheld_r. fold rnew.
  set (cur4 := <[rhs := rnew]> cur3).
  assert (cur4 !! lhs = Some (if decide (lhs = rhs) then rnew else lnew)) as Hl'.
  { subst cur4 cur3. destruct (decide (lhs = rhs)) as [->|Hne]; [by rewrite lookup_insert_eq|].
    by rewrite lookup_insert_ne, lookup_insert_eq. }
  assert (cur4 !! rhs = Some rnew) as Hr' by (subst cur4; by rewrite lookup_insert_eq).
  rewrite Hl', Hr'. cbn [default id].
  destruct (ConstantRange.isEmptySet _ || ConstantRange.isEmptySet rnew) eqn:Hdead.
  - eexists. split; [done|].
    change (rng_at (set_impossible_branches ?x ?s) ?F ?b) with (rng_at s F b).
    rewrite rng_at_set_rng_at. by split_and!.
  - eexists. split; [done|].
    rewrite rng_at_set_rng_at. by split_and!.
Qed.

(** *** Out-of-bound reads *)

Lemma same_findings_refl s : same_findings s s.
Proof. done. Qed.

Lemma same_findings_trans s1 s2 s3 :
  same_findings s1 s2 → same_findings s2 s3 → same_findings s1 s3.
Proof. unfold same_findings. intros (?&?&?&?) (?&?&?&?). repeat split; congruence. Qed.

Lemma for_each_same_findings {A} (body : A → state → result state) l s s' :
  (∀ x s s', body x s = Done s' → same_findings s s') →
  for_each body l s = Done s' → same_findings s s'.
Proof.
  intros Hbody Hrun.
  eapply (for_each_inv (λ t, same_findings s t)); [|apply same_findings_refl|exact Hrun].
  intros x t t' _ Ht Hx. eapply same_findings_trans; [exact Ht|by eapply Hbody].
Qed.

(** A gep enters [m_gep_oob] at a load through it, and only when the
    unsigned maximum of the range of its index reaches the number of ranges
    recorded for the array. *)
Lemma load_range_oob m F bb inst addr new_range s r s' :
  load_range m F bb inst addr new_range s = Done (r, s') →
  same_findings s s'
  ∨ ∃ gep garr i0 idx ranges idx_rng,
      addr = VInst gep
      ∧ i_kind <$> find_inst m gep = Some (GetElementPtr (VGlobal garr) [i0; idx])
      ∧ m_garr2ranges s !! garr = Some ranges
      ∧ get_range_by_bb s F idx (BlockRef bb) = Done idx_rng
      ∧ Z.of_nat (length ranges) ≤ ConstantRange.getUnsignedMax idx_rng
      ∧ s' = set_gep_oob ({[gep]} ∪ m_gep_oob s) s.
Proof.
  unfold load_range. intros Hrun.
  repeat case_match; simplify_eq; try (by left);
    apply bind_Done in Hrun as (x & Hx & Hrun); repeat case_match; simplify_eq; try (by left).
  right. eexists _, _, _, _, _, _. repeat split; try done.
  match goal with H : bool_decide _ = true |- _ => apply bool_decide_eq_true in H end.
  unfold ConstantRange.getLimitedValue in *. lia.
Qed.

Lemma visit_inst_oob m F bb inst s s' :
  visit_inst cr m F bb inst s = Done s' →
  same_findings s s'
  ∨ ∃ gep garr i0 idx ranges idx_rng,
      i_kind inst = Load (VInst gep)
      ∧ i_kind <$> find_inst m gep = Some (GetElementPtr (VGlobal garr) [i0; idx])
      ∧ m_garr2ranges s !! garr = Some ranges
      ∧ get_range_by_bb s (f_name F) idx (BlockRef bb) = Done idx_rng
      ∧ Z.of_nat (length ranges) ≤ ConstantRange.getUnsignedMax idx_rng
      ∧ m_impossible_branches s' = m_impossible_branches s
      ∧ m_gep_oob s' = {[gep]} ∪ m_gep_oob s
      ∧ md_err s' = md_err s
      ∧ m_garr2ranges s' = m_garr2ranges s.
Proof.
  unfold visit_inst. intros Hrun.
  destruct (i_kind inst) eqn:Hk.
  - (* Binary *) case_match; [by simplify_eq; left|]. inv_result. by left.
  - (* Cast *) case_match; [by simplify_eq; left|]. inv_result. by left.
  - (* Select *) case_match; [by simplify_eq; left|]. inv_result. by left.
  - (* Phi *) case_match; [by simplify_eq; left|]. inv_result. by left.
  - (* Load *)
    case_match; [by simplify_eq; left|].
    apply bind_Done in Hrun as ([new_range s1] & Hnew & Hrun). simplify_eq.
    apply load_range_oob in Hnew as [Hsame|(gep & garr & i0 & idx & ranges & idx_rng & Hplaced)].
    + left. destruct Hsame as (?&?&?&?). by repeat split.
    + right. destruct Hplaced as (-> & ? & ? & ? & ? & ->).
      eexists _, _, _, _, _, _. by repeat split.
  - (* Store *) inv_result. left. by case_match.
  - (* Call *)
    destruct (getCalledFunction m callee); [|by simplify_eq; left].
    apply bind_Done in Hrun as (s1 & Hargs & Hrun). left.
    apply (same_findings_trans s s1 s'); [|by case_match; simplify_eq].
    eapply for_each_same_findings; [|exact Hargs].
    intros [no t] u u' Hbody. repeat case_match; inv_result; done.
  - (* ICmp *) case_match; [by simplify_eq; left|]. inv_result. by left.
  - (* FCmp *) case_match; [by simplify_eq; left|]. inv_result. by left.
  - (* Br *) case_match; [by simplify_eq; left|]. inv_result. by left.
  - (* CondBr *) case_match; [by simplify_eq; left|]. inv_result. by left.
  - (* Switch *) case_match; [by simplify_eq; left|]. inv_result. by left.
  - (* Ret *) left. repeat case_match; inv_result; done.
  - (* GetElementPtr *) case_match; [by simplify_eq; left|]. inv_result. by left.
  - (* OtherInst *) case_match; [by simplify_eq; left|]. inv_result. by left.
Qed.

(** *** What the findings are keyed by *)

Lemma findings_typed_same m s s' :
  same_findings s s' → findings_typed m s → findings_typed m s'.
Proof. intros (H1 & H2 & _) [Hb Hg]. split; [by rewrite H1|by rewrite H2]. Qed.

Lemma findings_typed_disjoint m s c :
  findings_typed m s → is_Some (m_impossible_branches s !! c) → c ∉ m_gep_oob s.
Proof.
  intros [Hb Hg] Hc Hin.
  destruct (Hb c Hc) as (? & ? & ? & H1). destruct (Hg c Hin) as (? & ? & H2). congruence.
Qed.

Lemma merge_rest_same_findings F bb pred narrowed s :
  same_findings s (merge_rest cr F bb pred narrowed s).
Proof. done. Qed.

Lemma merge_cond_br_findings m F bb pred br_true cmp p lhs rhs s s' :
  merge_cond_br cr m F bb pred br_true cmp p lhs rhs s = Done s' →
  m_gep_oob s' = m_gep_oob s ∧ md_err s' = md_err s ∧ m_garr2ranges s' = m_garr2ranges s
  ∧ (m_impossible_branches s' = m_impossible_branches s
     ∨ m_impossible_branches s' = <[cmp := bool_decide (br_true = bb)]> (m_impossible_branches s)).
Proof.
  unfold merge_cond_br. intros Hrun.
  case_match; [done|]. inv_result.
  case_match; simplify_eq; repeat split; try done; [by right|by left].
Qed.

Lemma merge_switch_same_findings m F bb cond d cases s s' :
  merge_switch cr m F bb cond d cases s = Done s' → same_findings s s'.
Proof. unfold merge_switch. intros Hrun. by inv_result. Qed.

Lemma merge_pred_findings m F bb pred s s' :
  merge_pred cr m F bb pred s = Done s' →
  m_gep_oob s' = m_gep_oob s ∧ md_err s' = md_err s ∧ m_garr2ranges s' = m_garr2ranges s
  ∧ (m_impossible_branches s' = m_impossible_branches s
     ∨ ∃ c p lhs rhs is_true_br,
         i_kind <$> find_inst m c = Some (ICmp p lhs rhs)
         ∧ m_impossible_branches s' = <[c := is_true_br]> (m_impossible_branches s)).
Proof.
  unfold merge_pred. intros Hrun.
  repeat case_match; inv_result; try (by repeat split; try left).
  - (* conditional branch on a comparison *)
    match goal with H : merge_cond_br _ _ _ _ _ _ _ _ _ _ _ = _ |- _ =>
      apply merge_cond_br_findings in H as (? & ? & ? & [?|?]) end.
    + repeat split; try done. by left.
    + repeat split; try done. right. by eexists _, _, _, _, _.
  - (* switch *)
    match goal with H : merge_switch _ _ _ _ _ _ _ _ = _ |- _ =>
      apply merge_switch_same_findings in H as (? & ? & ? & ?) end.
    repeat split; try done. by left.
Qed.

Lemma merge_pred_typed m F bb pred s s' :
  merge_pred cr m F bb pred s = Done s' →
  findings_typed m s → md_err s' = md_err s ∧ findings_typed m s'.
Proof.
  intros Hrun [Hb Hg].
  apply merge_pred_findings in Hrun as (Hoob & Herr & _ & Hbr).
  split; [done|]. split; [|by rewrite Hoob].
  destruct Hbr as [->|(c & p & lhs & rhs & flag & Hc & ->)]; [done|].
  intros c'. destruct (decide (c' = c)) as [->|Hne]; [by eauto|].
  rewrite lookup_insert_ne by done. apply Hb.
Qed.

Lemma visit_inst_typed m F bb inst s s' :
  visit_inst cr m F bb inst s = Done s' →
  findings_typed m s → md_err s' = md_err s ∧ findings_typed m s'.
Proof.
  intros Hrun Htyped.
  apply visit_inst_oob in Hrun as [Hsame|Hplaced].
  - split; [apply Hsame|by eapply findings_typed_same].
  - destruct Hplaced as (g & garr & i0 & idx & ranges & idx_rng & _ & Hg & _ & _ & _ & Hbr & Hoob & Herr & _).
    split; [done|]. destruct Htyped as [Hb Hgs]. split; [by rewrite Hbr|].
    intros g'. rewrite Hoob. intros [->%elem_of_singleton|Hin]%elem_of_union; [by eauto|by apply Hgs].
Qed.

Lemma range_analysis_typed m F s s' :
  range_analysis cr m F s = Done s' →
  findings_typed m s → md_err s' = md_err s ∧ findings_typed m s'.
Proof.
  unfold range_analysis. intros Hrun Htyped.
  eapply (for_each_inv (λ t, md_err t = md_err s ∧ findings_typed m t)); [|done|exact Hrun].
  intros bb t t' _ [Herr Ht] Hbody. unfold analyse_block in Hbody.
  apply bind_Done in Hbody as (t1 & Hmerge & Hvisit).
  assert (md_err t1 = md_err s ∧ findings_typed m t1) as [Herr1 Ht1].
  { eapply (for_each_inv (λ u, md_err u = md_err s ∧ findings_typed m u)); [| |exact Hmerge].
    - intros pred u u' _ [Hu1 Hu2] Hp.
      destruct (merge_pred_typed _ _ _ _ _ _ Hp Hu2). split; congruence.
    - split; [done|]. by eapply findings_typed_same. }
  eapply (for_each_inv (λ u, md_err u = md_err s ∧ findings_typed m u)); [| |exact Hvisit].
  - intros inst u u' _ [Hu1 Hu2] Hp.
    destruct (visit_inst_typed _ _ _ _ _ _ Hp Hu2). split; congruence.
  - done.
Qed.

Lemma range_round_typed m s s' :
  range_round cr m s = Done s' →
  findings_typed m s → md_err s' = md_err s ∧ findings_typed m s'.
Proof.
  unfold range_round. intros Hrun Htyped.
  eapply (for_each_inv (λ t, md_err t = md_err s ∧ findings_typed m t)); [|done|exact Hrun].
  intros F t t' _ [Herr Ht] Hbody.
  case_match; [|by simplify_eq].
  destruct (range_analysis_typed _ _ _ _ Hbody Ht). split; congruence.
Qed.

Lemma range_loop_typed fuel m try_count passes s r :
  range_loop cr fuel m try_count passes s = Done r →
  findings_typed m s → md_err r.2 = md_err s ∧ findings_typed m r.2.
Proof.
  revert try_count passes s.
  induction fuel as [|fuel IH]; intros t p s Hrun Htyped; [done|].
  simpl in Hrun. apply bind_Done in Hrun as (s1 & Hround & Hrun).
  destruct (range_round_typed _ _ _ Hround Htyped) as [Herr1 Ht1].
  case_match; [by simplify_eq|].
  case_match; [by simplify_eq|].
  destruct (IH _ _ _ Hrun Ht1). split; congruence.
Qed.

(** *** Steps of the taint phase *)

Lemma for_each_or_inv {A S} (P : S → Prop) (body : A → S → result (bool * S)) l acc s r :
  (∀ x s b s', P s → body x s = Done (b, s') → P s') →
  P s → for_each_or body l acc s = Done r → P r.2.
Proof.
  intros Hbody. revert acc s.
  induction l as [|x l IH]; intros acc s HP Hrun; simpl in Hrun.
  - by simplify_eq.
  - apply bind_Done in Hrun as ([b s1] & H1 & H2).
    eapply IH; [|exact H2]. by eapply Hbody.
Qed.

Lemma find_func_elem m name F : find_func m name = Some F → F ∈ m_funcs m.
Proof. unfold find_func. intros H%find_some. apply list_elem_of_In, H. Qed.

Lemma getCalledFunction_elem m callee F : getCalledFunction m callee = Some F → F ∈ m_funcs m.
Proof. destruct callee; try done. apply find_func_elem. Qed.

(** [get_sink_fns] returns functions of the module. *)
Lemma get_sink_fns_elem m inst fns :
  get_sink_fns demangle m inst = Done fns →
  Forall (λ f, ∃ F, F ∈ m_funcs m ∧ f = f_name F) fns.
Proof.
  unfold get_sink_fns.
  apply (for_each_inv (λ ret, Forall (λ f, ∃ F, F ∈ m_funcs m ∧ f = f_name F) ret)); [|done].
  intros user ret ret' _ Hret Hbody.
  destruct (i_kind user); simplify_eq; try done.
  destruct (getCalledFunction m callee) as [F|] eqn:HF; [|done].
  case_bool_decide; simplify_eq; [|done].
  apply Forall_app. split; [done|]. apply Forall_singleton.
  exists F. split; [|done]. by eapply getCalledFunction_elem.
Qed.

(** A relation on states that every update of the taint phase respects is
    respected by the traversal and by a round of the loop. *)
Section taint_steps.

Context (m : module) (R : relation state) (R_pre : PreOrder R).
Hypothesis R_mark_taint : ∀ inst name s, R s (mark_taint inst name s).
Hypothesis R_taint_global : ∀ x s, R s (set_md_taint_global x s).
Hypothesis R_taint_func :
  ∀ F s, F ∈ m_funcs m →
         R s (set_taint_funcs (setvector_insert (f_name F) (m_taint_funcs s)) s).

Lemma for_each_steps {A} (body : A → state → result state) l s s' :
  (∀ x s s', body x s = Done s' → R s s') →
  for_each body l s = Done s' → R s s'.
Proof using R_pre.
  intros Hbody Hrun.
  eapply (for_each_inv (λ t, R s t)); [|reflexivity|exact Hrun].
  intros x t t' _ Ht Hx. etrans; [exact Ht|by eapply Hbody].
Qed.

Lemma for_each_or_steps {A} (body : A → state → result (bool * state)) l acc s r :
  (∀ x s b s', body x s = Done (b, s') → R s s') →
  for_each_or body l acc s = Done r → R s r.2.
Proof using R_pre.
  intros Hbody Hrun.
  eapply (for_each_or_inv (λ t, R s t)); [|reflexivity|exact Hrun].
  intros x t b t' Ht Hx. etrans; [exact Ht|by eapply Hbody].
Qed.

Lemma sink_fns_steps fns s :
  Forall (λ f, ∃ F, F ∈ m_funcs m ∧ f = f_name F) fns →
  R s (set_taint_funcs (foldl (λ l f, setvector_insert f l) (m_taint_funcs s) fns) s).
Proof using R_pre R_taint_func.
  intros Hfns. revert s.
  induction Hfns as [|f fns (F & HF & ->) _ IH]; intros s.
  - destruct s; reflexivity.
  - etrans; [apply (R_taint_func F s HF)|].
    apply (IH (set_taint_funcs (setvector_insert (f_name F) (m_taint_funcs s)) s)).
Qed.

Lemma taint_bcast_sink_args_steps reach taint_source s r :
  (∀ i s b s', reach i s = Done (b, s') → R s s') →
  taint_bcast_sink_args reach m taint_source s = Done r → R s r.2.
Proof using R_pre R_mark_taint.
  intros Hreach. unfold taint_bcast_sink_args.
  apply for_each_or_steps. intros ts t b t' Hts.
  apply for_each_or_steps in Hts; [done|].
  intros user u b' u' Hu.
  apply bind_Done in Hu as ([r1 u1] & Hr & Hu).
  apply Hreach in Hr.
  destruct r1; simplify_eq; [|done].
  etrans; [done|]. apply R_mark_taint.
Qed.

Lemma is_sink_reachable_steps fuel inst s b s' :
  is_sink_reachable demangle fuel m inst s = Done (b, s') → R s s'.
Proof using R_pre R_mark_taint R_taint_global R_taint_func.
  revert inst s b s'.
  induction fuel as [|fuel IH]; intros inst s b s' Hrun; [done|].
  cbn [is_sink_reachable] in Hrun.
  case_bool_decide.
  { apply bind_Done in Hrun as (fns & Hfns & Hrun). simplify_eq.
    apply sink_fns_steps. by eapply get_sink_fns_elem. }
  assert (∀ s1 : state, R s1 (mark_taint inst "" s1)) as Hmark by (intros; apply R_mark_taint).
  destruct (i_kind inst) eqn:Hk.
  6: { (* Store *)
    destruct ptr; try (simplify_eq; reflexivity).
    apply bind_Done in Hrun as ([b1 s1] & Husers & Hrun).
    apply for_each_or_steps in Husers.
    - destruct b1; simplify_eq; [|done].
      etrans; [done|]. etrans; [apply Hmark|]. apply R_taint_global.
    - intros user t b2 t' Hu. case_bool_decide; [simplify_eq; reflexivity|by eapply IH]. }
  6: { (* Call *)
    apply bind_Done in Hrun as ([b0 s0] & Hpre & Hrun).
    apply bind_Done in Hrun as ([b1 s1] & Husers & Hrun).
    apply for_each_or_steps in Husers; [|by intros; eapply IH].
    destruct (getCalledFunction m callee) as [F|] eqn:HF.
    2: { simplify_eq. etrans; [done|]. destruct b1; simplify_eq; [apply Hmark|reflexivity]. }
    apply getCalledFunction_elem in HF.
    assert (R s s0).
    { destruct (negb (isDeclaration F)); [|simplify_eq; reflexivity].
      apply bind_Done in Hpre as ([r t] & Hargs & Hpre).
      apply taint_bcast_sink_args_steps in Hargs; [|by intros; eapply IH].
      destruct r; simplify_eq; [|done].
      etrans; [done|]. by apply R_taint_func. }
    etrans; [done|]. etrans; [done|].
    destruct b1; simplify_eq; [|reflexivity].
    destruct (negb (isVoidTy (f_ret F))); simplify_eq; [|apply Hmark].
    etrans; [apply Hmark|]. apply (R_taint_func F (mark_taint inst "" s1) HF). }
  all: apply bind_Done in Hrun as ([b0 s0] & Hpre & Hrun); simplify_eq.
  all: apply bind_Done in Hrun as ([b1 s1] & Husers & Hrun).
  all: apply for_each_or_steps in Husers; [|by intros; eapply IH].
  all: destruct b1; simplify_eq; [|done].
  all: etrans; [done|]; apply Hmark.
Qed.

Lemma taint_bcast_sink_steps fuel taint_source s r :
  taint_bcast_sink demangle fuel m taint_source s = Done r → R s r.2.
Proof using R_pre R_mark_taint R_taint_global R_taint_func.
  unfold taint_bcast_sink. apply for_each_or_steps.
  intros ts t b t' Hts.
  apply bind_Done in Hts as ([r1 t1] & Hr & Hts).
  apply is_sink_reachable_steps in Hr.
  destruct r1; simplify_eq; [|done].
  etrans; [done|]. apply R_mark_taint.
Qed.

Lemma taint_round_steps fuel s s' :
  taint_round demangle fuel m s = Done s' → R s s'.
Proof using R_pre R_mark_taint R_taint_global R_taint_func.
  unfold taint_round. apply for_each_steps.
  intros f t t' Hrun.
  destruct (negb (is_taint_src demangle f)); [|simplify_eq; reflexivity].
  destruct (find_func m f); [|simplify_eq; reflexivity].
  apply bind_Done in Hrun as ([r t1] & Hargs & Hrun). simplify_eq.
  apply taint_bcast_sink_args_steps in Hargs; [done|].
  intros. by eapply is_sink_reachable_steps.
Qed.

End taint_steps.

(** *** The taint phase leaves the findings alone *)

#[local] Instance same_findings_preorder : PreOrder same_findings.
Proof. split; [exact same_findings_refl|exact same_findings_trans]. Qed.

Lemma taint_bcast_sink_same_findings fuel m taint_source s r :
  taint_bcast_sink demangle fuel m taint_source s = Done r → same_findings s r.2.
Proof. by apply (taint_bcast_sink_steps m same_findings _). Qed.

Lemma taint_round_same_findings fuel m s s' :
  taint_round demangle fuel m s = Done s' → same_findings s s'.
Proof. by apply (taint_round_steps m same_findings _). Qed.

Lemma mark_call_sinks_same_findings m callee args sinks s s' :
  mark_call_sinks demangle m callee args sinks s = Done s' → same_findings s s'.
Proof.
  induction sinks as [|[name idx] sinks IH]; simpl; intros Hrun; [by simplify_eq|].
  repeat case_match; simplify_eq; try done. by apply IH.
Qed.

Lemma foldl_same_findings {A} (g : state → A → state) l s :
  (∀ s x, same_findings s (g s x)) → same_findings s (foldl g s l).
Proof.
  intros Hg. revert s. induction l as [|x l IH]; intros s; simpl; [done|].
  eapply same_findings_trans; [apply Hg|apply IH].
Qed.

Lemma mark_func_sinks_same_findings m F s s' :
  mark_func_sinks demangle m F s = Done s' → same_findings s s'.
Proof.
  unfold mark_func_sinks, mark_sink_args. intros Hrun.
  apply bind_Done in Hrun as (s1 & Hargs & Hrun).
  apply for_each_same_findings in Hargs.
  2: { intros inst t t' Hi. case_match; simplify_eq; try done.
       by eapply mark_call_sinks_same_findings. }
  eapply same_findings_trans; [done|].
  repeat case_match; simplify_eq; try done.
  apply foldl_same_findings. intros t x. by case_match.
Qed.

Lemma mark_sources_same_findings fuel pos m s m' s' :
  mark_sources demangle fuel pos m s = Done (m', s') → same_findings s s'.
Proof.
  revert pos m s.
  induction fuel as [|fuel IH]; intros pos m s Hrun; [done|].
  simpl in Hrun. case_match; [|by simplify_eq].
  case_match. apply bind_Done in Hrun as (s1 & Hsinks & Hrun).
  apply mark_func_sinks_same_findings in Hsinks.
  apply IH in Hrun.
  eapply same_findings_trans; [done|]. eapply same_findings_trans; [|done].
  by case_match.
Qed.

Lemma bcast_sources_same_findings fuel m s s' :
  bcast_sources demangle fuel m s = Done s' → same_findings s s'.
Proof.
  unfold bcast_sources. apply for_each_same_findings.
  intros [fp tsrc] t t' Hrun. inv_result.
  match goal with H : taint_bcast_sink _ _ _ _ _ = _ |- _ =>
    apply taint_bcast_sink_same_findings in H end.
  by case_match; simplify_eq.
Qed.

Lemma taint_loop_same_findings rounds fuel m s s' :
  taint_loop demangle rounds fuel m s = Done s' → same_findings s s'.
Proof.
  revert s. induction rounds as [|rounds IH]; intros s Hrun; [done|].
  simpl in Hrun. apply bind_Done in Hrun as (s1 & Hround & Hrun).
  apply taint_round_same_findings in Hround.
  eapply same_findings_trans; [done|].
  case_bool_decide; [by apply IH|by simplify_eq].
Qed.

Lemma taint_analysis_same_findings fuel m m' s' :
  taint_analysis demangle fuel m = Done (m', s') → same_findings empty_state s'.
Proof.
  unfold taint_analysis. intros Hrun. inv_result.
  match goal with H : mark_sources _ _ _ _ _ = _ |- _ =>
    apply mark_sources_same_findings in H end.
  match goal with H : bcast_sources _ _ _ _ = _ |- _ =>
    apply bcast_sources_same_findings in H end.
  match goal with H : taint_loop _ _ _ _ _ = _ |- _ =>
    apply taint_loop_same_findings in H end.
  eauto using same_findings_trans.
Qed.

(** *** The walk over the functions: what it appends *)

Lemma signatures_names m : (signatures m).*1 = f_name <$> m_funcs m.
Proof. unfold signatures. rewrite <- list_fmap_compose. by apply list_fmap_ext. Qed.

Lemma signatures_params m : (signatures m).*2 = f_params <$> m_funcs m.
Proof. unfold signatures. rewrite <- list_fmap_compose. by apply list_fmap_ext. Qed.

Lemma declared_names names : (declared names).*1 = names.
Proof.
  unfold declared. rewrite <- list_fmap_compose.
  rewrite <- (list_fmap_id names) at 2. by apply list_fmap_ext.
Qed.

Lemma declared_params names : concat (declared names).*2 = [].
Proof. induction names as [|n names IH]; [done|]. done. Qed.

Lemma getOrInsertFunction_signatures m name t :
  ∃ added, (length added ≤ 1)%nat
           ∧ signatures (getOrInsertFunction m name t) = signatures m ++ declared added.
Proof.
  unfold getOrInsertFunction. destruct (find_func m name).
  - exists []. split; [simpl; lia|]. by rewrite app_nil_r.
  - exists [name]. split; [done|]. unfold signatures. simpl. by rewrite fmap_app.
Qed.

Lemma map_instructions_signatures g m : signatures (map_instructions g m) = signatures m.
Proof.
  unfold signatures, map_instructions. simpl. rewrite <- list_fmap_compose.
  by apply list_fmap_ext.
Qed.

Lemma insert_in_entry_signatures fname new m :
  signatures (insert_in_entry fname new m) = signatures m.
Proof.
  unfold signatures, insert_in_entry. simpl. rewrite <- list_fmap_compose.
  apply list_fmap_ext. intros i F _. simpl.
  case_bool_decide; [|done]. by destruct (f_blocks F).
Qed.

Local Abbreviation source_arg name :=
  (λ '(ret, m) '(no, t),
     match t with
     | TInt _ =>
       if use_empty m (VArg name no) then (ret, m)
       else
         let call_name := name +:+ ".mkint.arg" +:+ pretty no in
         let m := getOrInsertFunction m call_name t in
         let call_inst :=
           MkInstruction (fresh_inst_id m) t (Call (VFunc call_name) []) in
         let m := insert_in_entry name call_inst m in
         (ret ++ [call_inst], replaceAllUsesWith (VArg name no) (VInst (i_id call_inst)) m)
     | _ => (ret, m)
     end).

Lemma source_args_signatures name (l : list (nat * ty)) (ret : list instruction) m :
  ∃ added, (length added ≤ length l)%nat
           ∧ signatures (foldl (source_arg name) (ret, m) l).2 = signatures m ++ declared added.
Proof.
  set (f := source_arg name).
  revert ret m.
  induction l as [|[no t] l IH]; intros ret m.
  - exists []. split; [done|]. by rewrite app_nil_r.
  - cbn [foldl].
    assert (∃ added, (length added ≤ 1)%nat
                     ∧ signatures (f (ret, m) (no, t)).2 = signatures m ++ declared added)
      as (a1 & Hk1 & Hm1).
    { unfold f.
      destruct t; try (exists []; split; [simpl; lia|]; by rewrite app_nil_r).
      destruct (use_empty m (VArg name no)) eqn:Hu.
      - exists []. split; [simpl; lia|]. by rewrite app_nil_r.
      - cbn [snd]. unfold replaceAllUsesWith.
        rewrite map_instructions_signatures, insert_in_entry_signatures.
        apply getOrInsertFunction_signatures. }
    destruct (f (ret, m) (no, t)) as [ret1 m1].
    destruct (IH ret1 m1) as (a & Hk & Hm).
    exists (a1 ++ a). split; [rewrite length_app; simpl; lia|].
    rewrite Hm. simpl in Hm1. rewrite Hm1.
    unfold declared. by rewrite fmap_app, app_assoc.
Qed.

(** [get_taint_source] keeps the functions of the module in place, with their
    names and parameters, and appends at most one function without
    parameters for each parameter of [F]. *)
Lemma get_taint_source_signatures F m :
  ∃ added, (length added ≤ length (f_params F))%nat
           ∧ signatures (get_taint_source demangle F m).2 = signatures m ++ declared added.
Proof.
  unfold get_taint_source.
  destruct (is_taint_src demangle (f_name F)).
  - rewrite <- (length_imap pair (f_params F)). apply source_args_signatures.
  - exists []. split; [simpl; lia|]. by rewrite app_nil_r.
Qed.

Lemma mark_call_sinks_not_NoFuel m callee args sinks s :
  mark_call_sinks demangle m callee args sinks s ≠ NoFuel.
Proof.
  induction sinks as [|[name idx] sinks IH]; simpl; [done|].
  by repeat case_match.
Qed.

Lemma mark_func_sinks_not_NoFuel m F s : mark_func_sinks demangle m F s ≠ NoFuel.
Proof.
  unfold mark_func_sinks, mark_sink_args.
  apply bind_not_NoFuel.
  - apply for_each_not_NoFuel. intros inst t.
    case_match; try done. apply mark_call_sinks_not_NoFuel.
  - intros t. by repeat case_match.
Qed.

Lemma walk_left_step sigs pos F added :
  sigs !! pos = Some (f_name F, f_params F) →
  (length added ≤ length (f_params F))%nat →
  (walk_left (sigs ++ declared added) (S pos) < walk_left sigs pos)%nat.
Proof.
  intros Hp Hk. unfold walk_left.
  pose proof (lookup_lt_Some _ _ _ Hp) as Hlt.
  rewrite (drop_S sigs _ pos Hp).
  rewrite drop_app_le by lia.
  rewrite fmap_app, concat_app, declared_params, app_nil_r.
  rewrite length_app. unfold declared at 1. rewrite length_fmap.
  rewrite fmap_cons. cbn [concat snd length]. rewrite length_app. lia.
Qed.

Lemma mark_sources_budget fuel pos m s :
  (walk_left (signatures m) pos < fuel)%nat →
  mark_sources demangle fuel pos m s ≠ NoFuel.
Proof.
  revert pos m s.
  induction fuel as [|fuel IH]; intros pos m s Hfuel; [lia|].
  cbn [mark_sources].
  destruct (m_funcs m !! pos) as [F|] eqn:HF; [|done].
  destruct (get_taint_source_signatures F m) as (added & Hk & Hm).
  destruct (get_taint_source demangle F m) as [taint_sources m1].
  apply bind_not_NoFuel; [apply mark_func_sinks_not_NoFuel|].
  intros s1. apply IH.
  simpl in Hm. rewrite Hm.
  assert (signatures m !! pos = Some (f_name F, f_params F)) as Hp.
  { unfold signatures. by rewrite list_lookup_fmap, HF. }
  pose proof (walk_left_step _ _ _ added Hp Hk). lia.
Qed.

Lemma length_concat_params (l : list function) :
  length (concat (f_params <$> l)) = length (flat_map f_params l).
Proof.
  induction l as [|F l IH]; [done|].
  rewrite fmap_cons. cbn [concat flat_map]. rewrite !length_app. by rewrite IH.
Qed.

(** The walk of [taint_analysis] ends within the budget it is given. *)
Lemma mark_sources_terminates m s :
  mark_sources demangle (S (length (m_funcs m) + length (flat_map f_params (m_funcs m)))) 0 m s
  ≠ NoFuel.
Proof.
  apply mark_sources_budget. unfold walk_left.
  rewrite drop_0, signatures_params, length_concat_params.
  unfold signatures. rewrite length_fmap. lia.
Qed.

(** *** The walk over the functions: what it records *)

Lemma mark_call_sinks_fields m callee args sinks s s' :
  mark_call_sinks demangle m callee args sinks s = Done s' →
  m_taint_funcs s' = m_taint_funcs s ∧ m_func2tsrc s' = m_func2tsrc s.
Proof.
  induction sinks as [|[name idx] sinks IH]; simpl; intros Hrun; [by simplify_eq|].
  repeat case_match; simplify_eq; try done. by apply IH.
Qed.

Lemma mark_func_sinks_fields m F s s' :
  mark_func_sinks demangle m F s = Done s' →
  m_taint_funcs s' = m_taint_funcs s ∧ m_func2tsrc s' = m_func2tsrc s.
Proof.
  unfold mark_func_sinks, mark_sink_args. intros Hrun.
  apply bind_Done in Hrun as (s1 & Hargs & Hrun).
  assert (m_taint_funcs s1 = m_taint_funcs s ∧ m_func2tsrc s1 = m_func2tsrc s) as [H1 H2].
  { eapply (for_each_inv (λ t, m_taint_funcs t = m_taint_funcs s ∧ m_func2tsrc t = m_func2tsrc s));
      [|done|exact Hargs].
    intros inst t t' _ [Ht1 Ht2] Hbody.
    destruct (i_kind inst); simplify_eq; try done.
    apply mark_call_sinks_fields in Hbody as [-> ->]. done. }
  rewrite <- H1, <- H2.
  assert (∀ l t, let t' := foldl (λ s inst, if isReturnInst inst
                                            then mark_sink (i_id inst) "return" s else s) t l in
                 m_taint_funcs t' = m_taint_funcs t ∧ m_func2tsrc t' = m_func2tsrc t) as Hfold.
  { induction l as [|x l IH]; intros t; simpl; [done|].
    destruct (IH (if isReturnInst x then mark_sink (i_id x) "return" t else t)) as [-> ->].
    by destruct (isReturnInst x). }
  repeat case_match; simplify_eq; try done; apply Hfold.
Qed.

(** The walk leaves [m_taint_funcs] alone, keeps the functions of the module
    under their names, and records in [m_func2tsrc] functions of the module
    only. *)
Lemma mark_sources_names fuel pos m s m' s' :
  mark_sources demangle fuel pos m s = Done (m', s') →
  m_taint_funcs s' = m_taint_funcs s
  ∧ ((m_func2tsrc s).*1 ⊆ f_name <$> m_funcs m → (m_func2tsrc s').*1 ⊆ f_name <$> m_funcs m').
Proof.
  revert pos m s.
  induction fuel as [|fuel IH]; intros pos m s Hrun; [done|].
  cbn [mark_sources] in Hrun.
  destruct (m_funcs m !! pos) as [F|] eqn:HF; [|by simplify_eq].
  destruct (get_taint_source_signatures F m) as (added & _ & Hm).
  destruct (get_taint_source demangle F m) as [taint_sources m1].
  apply bind_Done in Hrun as (s1 & Hsinks & Hrun).
  apply mark_func_sinks_fields in Hsinks as [Ht Hsrc].
  apply IH in Hrun as [Ht' Hsub].
  simpl in Hm.
  assert (f_name <$> m_funcs m1 = (f_name <$> m_funcs m) ++ added) as Hnames.
  { by rewrite <- !signatures_names, Hm, fmap_app, declared_names. }
  split.
  - rewrite Ht'. by destruct (is_taint_src demangle _).
  - intros Hs. apply Hsub.
    assert ((m_func2tsrc s1).*1 ⊆ f_name <$> m_funcs m1) as Hs1.
    { rewrite Hsrc, Hnames. intros x Hx. apply elem_of_app. left. by apply Hs. }
    destruct (is_taint_src demangle _); [|done].
    simpl. rewrite fmap_app. intros x [Hx|Hx%list_elem_of_singleton]%elem_of_app; [by apply Hs1|].
    subst x. simpl.
    destruct (m_funcs m1 !! pos) as [F1|] eqn:HF1; simpl.
    + apply list_elem_of_fmap_2. by eapply list_elem_of_lookup_2.
    + rewrite Hnames. apply elem_of_app. left.
      apply list_elem_of_fmap_2. by eapply list_elem_of_lookup_2.
Qed.

(** *** Back edges: the budget of the worklist loop *)

Local Abbreviation push_succ bb :=
  (λ '(stack, seen) (succ : N),
     if bool_decide (succ ≠ bb) && negb (bool_decide (succ ∈ seen))
     then (succ :: stack, setvector_insert succ seen)
     else (stack, seen)).

Lemma push_succs_measure (bb : N) (T succs stack seen : list N) :
  NoDup seen → seen ⊆ T → succs ⊆ T →
  let r := foldl (push_succ bb) (stack, seen) succs in
  NoDup r.2 ∧ r.2 ⊆ T ∧ (length r.1 + length seen = length stack + length r.2)%nat.
Proof.
  revert stack seen.
  induction succs as [|succ succs IH]; intros stack seen Hnd Hsub Hsuccs; simpl; [done|].
  assert (succ ∈ T) as HsuccT by (apply Hsuccs; left).
  assert (succs ⊆ T) as Hrest by (intros x Hx; apply Hsuccs; by right).
  destruct (bool_decide (succ ≠ bb) && negb (bool_decide (succ ∈ seen))) eqn:Hpush.
  - apply andb_true_iff in Hpush as [_ Hnew].
    apply negb_true_iff, bool_decide_eq_false in Hnew.
    assert (setvector_insert succ seen = seen ++ [succ]) as ->.
    { unfold setvector_insert. by rewrite bool_decide_eq_false_2. }
    destruct (IH (succ :: stack) (seen ++ [succ])) as (H1 & H2 & H3); [| |exact Hrest|].
    + apply NoDup_app. split; [done|]. split; [|apply NoDup_singleton].
      intros x Hx ->%list_elem_of_singleton. done.
    + intros x [Hx| ->%list_elem_of_singleton]%elem_of_app; [by apply Hsub|done].
    + split_and!; [done|done|]. rewrite length_app in H3. simpl in H3. lia.
  - by apply IH.
Qed.

Lemma remote_succs_loop_fuel (F : function) (bb : N) fuel k stack seen :
  let T := flat_map successors (f_blocks F) in
  NoDup seen → seen ⊆ T →
  (length stack + length T ≤ fuel + length seen)%nat →
  remote_succs_loop (fuel + k) F bb stack seen = remote_succs_loop fuel F bb stack seen.
Proof.
  intros T. revert stack seen.
  induction fuel as [|fuel IH]; intros stack seen Hnd Hsub Hlen.
  - assert (length seen ≤ length T)%nat.
    { apply submseteq_length. by apply NoDup_submseteq. }
    destruct stack; [|simpl in Hlen; lia].
    by destruct k.
  - destruct stack as [|cur_succ stack]; [done|].
    cbn [Nat.add remote_succs_loop].
    pose proof (push_succs_measure bb T
      (default [] (successors <$> find_block F cur_succ)) stack seen Hnd Hsub) as Hm.
    destruct (foldl _ (stack, seen) _) as [stack' seen'].
    destruct Hm as (H1 & H2 & H3).
    { destruct (find_block F cur_succ) as [b|] eqn:Hb; [|by intros x Hx; apply elem_of_nil in Hx].
      simpl. intros x Hx. unfold T. apply list_elem_of_In, in_flat_map.
      exists b. split; [|by apply list_elem_of_In].
      unfold find_block in Hb. by apply find_some in Hb as [? _]. }
    simpl in *. apply IH; [done|done|lia].
Qed.

(** The budget [backedge_analysis] hands out is never used up: a larger one
    gives the same set. *)
Lemma backedge_budget_suffices (F : function) (bb : N) k :
  let fuel := S (length (flat_map successors (f_blocks F))) in
  remote_succs_loop (fuel + k) F bb [bb] [] = remote_succs_loop fuel F bb [bb] [].
Proof.
  intros fuel. apply remote_succs_loop_fuel.
  - apply NoDup_nil_2.
  - intros x Hx. by apply elem_of_nil in Hx.
  - unfold fuel. simpl. lia.
Qed.

(** *** The rounds of the taint loop *)

#[local] Instance taint_funcs_grow_preorder m : PreOrder (taint_funcs_grow m).
Proof.
  split.
  - intros s. split; [reflexivity|done].
  - intros s1 s2 s3 [H1 H2] [H3 H4]. split; [by etrans|auto].
Qed.

Lemma setvector_insert_grow m F s :
  F ∈ m_funcs m →
  taint_funcs_grow m s (set_taint_funcs (setvector_insert (f_name F) (m_taint_funcs s)) s).
Proof.
  intros HF. unfold taint_funcs_grow, taint_funcs_ok, setvector_insert. simpl.
  case_bool_decide as Hin; [done|].
  split; [by apply prefix_app_r|].
  intros [Hnd Hsub]. split.
  - apply NoDup_app. split; [done|]. split; [|apply NoDup_singleton].
    intros x Hx ->%list_elem_of_singleton. done.
  - intros x [Hx| ->%list_elem_of_singleton]%elem_of_app; [by apply Hsub|].
    by apply list_elem_of_fmap_2.
Qed.

(** A round of the loop never shrinks [m_taint_funcs]. *)
Lemma taint_round_grows fuel m s s' :
  taint_round demangle fuel m s = Done s' → taint_funcs_grow m s s'.
Proof.
  apply (taint_round_steps m (taint_funcs_grow m) _); try done.
  intros F t HF. by apply setvector_insert_grow.
Qed.

Lemma taint_funcs_ok_length m s :
  taint_funcs_ok m s → (length (m_taint_funcs s) ≤ length (m_funcs m))%nat.
Proof.
  intros [Hnd Hsub].
  rewrite <- (length_fmap f_name (m_funcs m)).
  apply submseteq_length. by apply NoDup_submseteq.
Qed.

(** The do-while makes at most one round per function that can still enter
    [m_taint_funcs], and one more: a bound on the rounds above that changes
    nothing. *)
Lemma taint_loop_rounds rounds k fuel m s :
  taint_funcs_ok m s →
  (length (m_funcs m) < rounds + length (m_taint_funcs s))%nat →
  taint_loop demangle (rounds + k) fuel m s = taint_loop demangle rounds fuel m s.
Proof.
  revert s. induction rounds as [|rounds IH]; intros s Hok Hlen.
  - apply taint_funcs_ok_length in Hok. simpl in Hlen. lia.
  - cbn [Nat.add taint_loop].
    destruct (taint_round demangle fuel m s) as [s1| |] eqn:Hround; [|done|done].
    cbn [mbind result_bind].
    apply taint_round_grows in Hround as [Hpre Hok1].
    apply prefix_length in Hpre.
    case_bool_decide; [|done].
    apply IH; [by apply Hok1|lia].
Qed.

Lemma taint_loop_budget_suffices k fuel m s :
  taint_funcs_ok m s →
  taint_loop demangle (S (length (m_funcs m)) + k) fuel m s
  = taint_loop demangle (S (length (m_funcs m))) fuel m s.
Proof. intros Hok. apply taint_loop_rounds; [done|lia]. Qed.

Lemma bcast_sources_grows fuel m s s' :
  (m_func2tsrc s).*1 ⊆ f_name <$> m_funcs m →
  bcast_sources demangle fuel m s = Done s' → taint_funcs_grow m s s'.
Proof.
  intros Hsrc. unfold bcast_sources.
  apply (for_each_inv (λ t, taint_funcs_grow m s t)); [|reflexivity].
  intros [fp tsrc] t t' Hin Ht Hbody.
  apply bind_Done in Hbody as ([r t1] & Hts & Hbody).
  apply (taint_bcast_sink_steps m (taint_funcs_grow m) _) in Hts; try done.
  2: { intros F u HF. by apply setvector_insert_grow. }
  etrans; [exact Ht|]. etrans; [exact Hts|].
  destruct r; simplify_eq; [|reflexivity].
  assert (fp ∈ f_name <$> m_funcs m) as (F & -> & HF)%list_elem_of_fmap.
  { apply Hsrc. by apply (list_elem_of_fmap_2 fst) in Hin. }
  by apply setvector_insert_grow.
Qed.

(** When [taint_analysis] enters the do-while, [m_taint_funcs] holds
    functions of the module, each once: the bound it gives the loop is one the
    loop cannot exceed. *)
Lemma taint_loop_entry fuel0 fuel m m1 s1 s2 k :
  mark_sources demangle fuel0 0 m empty_state = Done (m1, s1) →
  bcast_sources demangle fuel m1 s1 = Done s2 →
  taint_funcs_ok m1 s2
  ∧ taint_loop demangle (S (length (m_funcs m1)) + k) fuel m1 s2
    = taint_loop demangle (S (length (m_funcs m1))) fuel m1 s2.
Proof.
  intros Hwalk Hbcast.
  apply mark_sources_names in Hwalk as [Htf Hsrc].
  apply bcast_sources_grows in Hbcast as [_ Hok].
  2: { apply Hsrc. intros x Hx. by apply elem_of_nil in Hx. }
  assert (taint_funcs_ok m1 s2) as Hok2.
  { apply Hok. split; rewrite Htf; [apply NoDup_nil_2|].
    intros x Hx. by apply elem_of_nil in Hx. }
  split; [done|]. by apply taint_loop_budget_suffices.
Qed.

(** *** More budget changes no result *)

Lemma refines_refl {A} (r : result A) : refines r r.
Proof. by right. Qed.

Lemma refines_bind {A B} (r r' : result A) (k k' : A → result B) :
  refines r r' → (∀ a, refines (k a) (k' a)) → refines (r ≫= k) (r' ≫= k').
Proof.
  intros [->| ->] Hk; [by left|].
  destruct r'; [apply Hk|by right|by right].
Qed.

Lemma refines_for_each_or {A S} (body body' : A → S → result (bool * S)) l acc s :
  (∀ x s, refines (body x s) (body' x s)) →
  refines (for_each_or body l acc s) (for_each_or body' l acc s).
Proof.
  intros Hbody. revert acc s.
  induction l as [|x l IH]; intros acc s; simpl; [by right|].
  apply refines_bind; [apply Hbody|]. intros [b s']. apply IH.
Qed.

Lemma refines_for_each {A S} (body body' : A → S → result S) l s :
  (∀ x s, refines (body x s) (body' x s)) →
  refines (for_each body l s) (for_each body' l s).
Proof.
  intros Hbody. revert s.
  induction l as [|x l IH]; intros s; simpl; [by right|].
  apply refines_bind; [apply Hbody|]. intros s'. apply IH.
Qed.

Lemma refines_taint_bcast_sink_args reach reach' m taint_source s :
  (∀ i s, refines (reach i s) (reach' i s)) →
  refines (taint_bcast_sink_args reach m taint_source s)
          (taint_bcast_sink_args reach' m taint_source s).
Proof.
  intros Hreach. unfold taint_bcast_sink_args.
  apply refines_for_each_or. intros ts t.
  apply refines_for_each_or. intros user u.
  apply refines_bind; [apply Hreach|]. intros [r v]. apply refines_refl.
Qed.

Lemma is_sink_reachable_S fuel m inst s :
  refines (is_sink_reachable demangle fuel m inst s)
          (is_sink_reachable demangle (S fuel) m inst s).
Proof.
  revert inst s.
  induction fuel as [|fuel IH]; intros inst s; [by left|].
  cbn [is_sink_reachable].
  case_bool_decide; [apply refines_refl|].
  destruct (i_kind inst) eqn:Hk.
  6: { (* Store *)
    destruct ptr; try apply refines_refl.
    apply refines_bind; [|intros [[] ?]; apply refines_refl].
    apply refines_for_each_or. intros user t.
    case_bool_decide; [apply refines_refl|apply IH]. }
  6: { (* Call *)
    apply refines_bind.
    - destruct (getCalledFunction m callee); [|apply refines_refl].
      destruct (negb (isDeclaration f)); [|apply refines_refl].
      apply refines_bind; [|intros [[] ?]; apply refines_refl].
      by apply refines_taint_bcast_sink_args.
    - intros [b0 s0]. apply refines_bind; [|intros [[] ?]; apply refines_refl].
      by apply refines_for_each_or. }
  all: apply refines_bind; [apply refines_refl|].
  all: intros [b0 s0]; apply refines_bind; [|intros [[] ?]; apply refines_refl].
  all: by apply refines_for_each_or.
Qed.

Lemma is_sink_reachable_more_fuel fuel k m inst s :
  refines (is_sink_reachable demangle fuel m inst s)
          (is_sink_reachable demangle (fuel + k) m inst s).
Proof.
  induction k as [|k IH]; [rewrite Nat.add_0_r; apply refines_refl|].
  rewrite Nat.add_succ_r.
  destruct IH as [->|IH]; [by left|]. rewrite IH. apply is_sink_reachable_S.
Qed.

Lemma refines_taint_loop rounds fuel k m s :
  refines (taint_loop demangle rounds fuel m s) (taint_loop demangle rounds (fuel + k) m s).
Proof.
  revert s. induction rounds as [|rounds IH]; intros s; [by left|].
  cbn [taint_loop].
  apply refines_bind.
  - unfold taint_round. apply refines_for_each. intros f t.
    destruct (negb (is_taint_src demangle f)); [|apply refines_refl].
    destruct (find_func m f); [|apply refines_refl].
    apply refines_bind; [|intros [? ?]; apply refines_refl].
    apply refines_taint_bcast_sink_args. intros. apply is_sink_reachable_more_fuel.
  - intros s1. case_bool_decide; [apply IH|apply refines_refl].
Qed.

Lemma refines_bcast_sources fuel k m s :
  refines (bcast_sources demangle fuel m s) (bcast_sources demangle (fuel + k) m s).
Proof.
  unfold bcast_sources. apply refines_for_each. intros [fp tsrc] t.
  apply refines_bind; [|intros [[] ?]; apply refines_refl].
  unfold taint_bcast_sink. apply refines_for_each_or. intros ts u.
  apply refines_bind; [|intros [[] ?]; apply refines_refl].
  apply is_sink_reachable_more_fuel.
Qed.

(** A larger budget leaves the result of the pass as it is, unless the
    smaller one was used up. *)
Lemma run_more_fuel fuel k m :
  refines (run cr demangle fuel m) (run cr demangle (fuel + k) m).
Proof.
  unfold run. apply refines_bind; [|intros [? ?]; apply refines_refl].
  unfold taint_analysis.
  apply refines_bind; [apply refines_refl|]. intros [m1 s1].
  apply refines_bind; [apply refines_bcast_sources|]. intros s2.
  apply refines_bind; [apply refines_taint_loop|]. intros s3. apply refines_refl.
Qed.

(** *** The set-up of the range loop leaves the findings alone *)

Lemma same_errors_refl s : same_errors s s.
Proof. done. Qed.

Lemma same_errors_trans s1 s2 s3 : same_errors s1 s2 → same_errors s2 s3 → same_errors s1 s3.
Proof. unfold same_errors. intros (?&?&?) (?&?&?). repeat split; congruence. Qed.

Lemma foldl_same_errors {A} (g : state → A → state) l s :
  (∀ s x, same_errors s (g s x)) → same_errors s (foldl g s l).
Proof.
  intros Hg. revert s. induction l as [|x l IH]; intros s; simpl; [done|].
  eapply same_errors_trans; [apply Hg|apply IH].
Qed.

Lemma backedge_analysis_same_errors F s : same_errors s (backedge_analysis F s).
Proof.
  unfold backedge_analysis. apply foldl_same_errors.
  intros t bb. by case_match.
Qed.

Lemma init_ranges_same_errors m s s' :
  init_ranges demangle m s = Done s' → same_errors s s'.
Proof.
  unfold init_ranges. intros Hrun.
  apply bind_Done in Hrun as (s1 & Hfuncs & Hglobals).
  assert (same_errors s s1) as (H1 & H2 & H3).
  { eapply (for_each_inv (λ t, same_errors s t)); [|apply same_errors_refl|exact Hfuncs].
    intros F t t' _ (?&?&?) Hbody.
    unfold init_function in Hbody.
    repeat case_match; simplify_eq; by repeat split. }
  eapply (for_each_inv (λ t, same_errors s t) _ _ s1); [|by repeat split|exact Hglobals].
  intros GV t t' _ (?&?&?) Hbody.
  unfold init_global, push_back_ranges in Hbody.
  repeat case_match; inv_result; repeat split; try done;
    repeat case_match; done.
Qed.

Lemma range_setup_same_errors m s s' :
  range_setup demangle m s = Done s' → same_errors s s'.
Proof.
  unfold range_setup. intros Hrun.
  apply init_ranges_same_errors in Hrun.
  eapply same_errors_trans; [|exact Hrun].
  apply foldl_same_errors. intros t F. case_match; [done|].
  apply backedge_analysis_same_errors.
Qed.

(** *** The errors of a run *)

(** The state the range loop of a run returns: [mark_errors] is applied to
    it, its findings are typed, and [mkint.err] is still empty in it. *)
Lemma run_before_mark_errors fuel m m' s' :
  run cr demangle fuel m = Done (m', s') →
  ∃ s2, s' = mark_errors s2 ∧ findings_typed m' s2 ∧ md_err s2 = ∅.
Proof.
  unfold run. intros Hrun.
  apply bind_Done in Hrun as ([m0 s0] & Htaint & Hrun).
  apply bind_Done in Hrun as (s1 & Hsetup & Hrun).
  apply bind_Done in Hrun as ([[p t] s2] & Hloop & Hrun). simplify_eq.
  apply taint_analysis_same_findings in Htaint as (Hb0 & Hg0 & He0 & _).
  apply range_setup_same_errors in Hsetup as (Hb1 & Hg1 & He1).
  apply range_loop_typed in Hloop as [He2 Ht].
  - exists s2. split; [done|]. split; [done|]. simpl in He2. by rewrite He2, He1, He0.
  - split; intros k; [rewrite Hb1, Hb0|rewrite Hg1, Hg0]; simpl.
    + rewrite lookup_empty. by intros [? ?].
    + intros Hk. by apply not_elem_of_empty in Hk.
Qed.

(** What every run of the pass leaves in [mkint.err]: the error of its flag
    on every key of [m_impossible_branches], [ERR(ARRAY_OOB)] on the members
    of [m_gep_oob], and nothing elsewhere. *)
Lemma run_errors fuel m m' s' c :
  run cr demangle fuel m = Done (m', s') →
  md_err s' !! c =
    match m_impossible_branches s' !! c with
    | Some is_tbr => Some (mkstr (dead_branch_err is_tbr))
    | None => if decide (c ∈ m_gep_oob s') then Some (mkstr ARRAY_OOB) else None
    end.
Proof.
  intros Hrun.
  apply run_before_mark_errors in Hrun as (s2 & -> & Ht & He).
  destruct (mark_errors_findings s2) as [-> ->].
  rewrite mark_errors_lookup.
  destruct (m_impossible_branches s2 !! c) eqn:Hc.
  - rewrite decide_False; [done|]. eapply findings_typed_disjoint; [done|]. by rewrite Hc.
  - case_decide; [done|]. by rewrite He.
Qed.

(** A module that carries no metadata: [run_on] is [run]. *)
Lemma run_on_empty fuel m : run_on cr demangle empty_state fuel m = run cr demangle fuel m.
Proof.
  unfold run_on, run, taint_analysis.
  change (carried_metadata empty_state) with empty_state.
  destruct (mark_sources _ _ _ _ _) as [[m1 s1]| |]; [|done..]. cbn [mbind result_bind].
  destruct (bcast_sources _ _ _ _) as [s2| |]; [|done..]. cbn [mbind result_bind].
  destruct (taint_loop _ _ _ _ _) as [s3| |]; [|done..]. done.
Qed.

(** *** The array table *)

Lemma data_array_ranges_length elts (acc new : list crange) :
  for_each (λ e new,
      match e with
      | Some (bits, init_val) => Done (new ++ [ConstantRange.ofAPInt bits init_val])
      | None => Aborted
      end) elts acc = Done new →
  length new = (length acc + length elts)%nat.
Proof.
  revert acc. induction elts as [|e elts IH]; intros acc Hrun; simpl in Hrun.
  - simplify_eq. simpl. lia.
  - destruct e as [[bits v]|]; [|done]. simpl in Hrun.
    apply IH in Hrun. rewrite length_app in Hrun. simpl in *. lia.
Qed.

Lemma init_global_garr_lengths GV gs s s' :
  init_global GV s = Done s' →
  g_name GV ∉ g_name <$> gs →
  garr_lengths gs s → garr_lengths (gs ++ [GV]) s'.
Proof.
  intros Hrun Hfresh Hgs.
  assert (garr_lengths (gs ++ [GV]) s) as Hkeep.
  { intros g ranges Hg. destruct (Hgs g ranges Hg) as (G & HG & Hn & Hl).
    exists G. split; [|done]. apply elem_of_app. by left. }
  assert (m_garr2ranges s !! g_name GV = None) as Hnone.
  { destruct (m_garr2ranges s !! g_name GV) as [ranges|] eqn:Hg; [|done].
    destruct (Hgs _ _ Hg) as (G & HG & Hn & _).
    exfalso. apply Hfresh. rewrite <- Hn. by apply list_elem_of_fmap_2. }
  assert (∀ new, array_length GV = Some (length new) →
                 garr_lengths (gs ++ [GV]) (push_back_ranges (g_name GV) new s)) as Hpush.
  { intros new Hlen. unfold push_back_ranges.
    destruct new as [|r new]; [done|].
    intros g ranges. simpl. rewrite Hnone. simpl.
    destruct (decide (g = g_name GV)) as [->|Hne].
    - rewrite lookup_insert_eq. intros [= <-].
      exists GV. split; [|done]. apply elem_of_app. right. by apply list_elem_of_singleton.
    - rewrite lookup_insert_ne by done. apply Hkeep. }
  unfold init_global in Hrun. unfold array_length in Hpush.
  destruct (g_valty GV) as [bits| | |n elt|] eqn:Hty; simplify_eq; try done.
  - destruct (g_init GV) as [[]|]; by simplify_eq.
  - destruct (g_init GV) as [[| elts |]|] eqn:Hinit; simplify_eq.
    + apply bind_Done in Hrun as (new & Hnew & Hrun). simplify_eq.
      apply Hpush. apply data_array_ranges_length in Hnew. by rewrite Hnew.
    + apply Hpush. by rewrite length_replicate.
Qed.

Lemma init_globals_garr_lengths rest gs s s' :
  for_each init_global rest s = Done s' →
  NoDup (g_name <$> gs ++ rest) →
  garr_lengths gs s → garr_lengths (gs ++ rest) s'.
Proof.
  revert gs s. induction rest as [|GV rest IH]; intros gs s Hrun Hnd Hgs; simpl in Hrun.
  - simplify_eq. by rewrite app_nil_r.
  - apply bind_Done in Hrun as (s1 & HGV & Hrun).
    rewrite (cons_middle GV gs rest), app_assoc in Hnd |- *.
    apply (IH (gs ++ [GV]) s1); [done|done|].
    apply (init_global_garr_lengths GV gs s s1); [done| |done].
    rewrite fmap_app in Hnd. apply NoDup_app in Hnd as (Hnd & _ & _).
    rewrite fmap_app in Hnd. apply NoDup_app in Hnd as (_ & Hdisj & _).
    intros Hin. apply (Hdisj _ Hin). simpl. by left.
Qed.

Lemma init_function_garr F s s' :
  init_function demangle F s = Done s' → m_garr2ranges s' = m_garr2ranges s.
Proof. unfold init_function. intros Hrun. repeat case_match; by simplify_eq. Qed.

(** The table [init_ranges] fills has, for every global array it knows, one
    range for each element of the array. *)
Lemma init_ranges_garr_lengths m s s' :
  init_ranges demangle m s = Done s' →
  m_garr2ranges s = ∅ → NoDup (g_name <$> m_globals m) →
  garr_lengths (m_globals m) s'.
Proof.
  unfold init_ranges. intros Hrun Hempty Hnd.
  apply bind_Done in Hrun as (s1 & Hfuncs & Hglobals).
  assert (m_garr2ranges s1 = ∅) as Hempty1.
  { rewrite <- Hempty.
    eapply (for_each_inv (λ t, m_garr2ranges t = m_garr2ranges s)); [|done|exact Hfuncs].
    intros F t t' _ Ht HF. apply init_function_garr in HF. congruence. }
  apply (init_globals_garr_lengths (m_globals m) [] s1 s'); [done|done|].
  intros g ranges. rewrite Hempty1. by rewrite lookup_empty.
Qed.

(** Once the pass has run, every member of [m_gep_oob] carries
    [ERR(ARRAY_OOB)]. *)
Lemma run_oob_marked fuel m m' s' g :
  run cr demangle fuel m = Done (m', s') →
  g ∈ m_gep_oob s' → md_err s' !! g = Some (mkstr ARRAY_OOB).
Proof.
  intros Hrun Hg. rewrite (run_errors fuel m m' s' g Hrun).
  apply run_before_mark_errors in Hrun as (s2 & -> & Ht & _).
  destruct (mark_errors_findings s2) as [Hb Ho]. rewrite Hb, Ho in *.
  destruct (m_impossible_branches s2 !! g) eqn:Hc; [|by rewrite decide_True].
  exfalso. eapply findings_typed_disjoint; [exact Ht| |exact Hg]. by rewrite Hc.
Qed.

(** X20.  A gep that a step of the analysis puts into [m_gep_oob] is the
    address of the load being visited, a [getelementptr] with two indices
    into a global array with recorded ranges, and the unsigned maximum of the
    range its second index has in the block at that step reaches the number
    of ranges recorded for the array.  (The range of the index may change
    in a later pass; the gep stays in [m_gep_oob].)  That number is the
    number of elements of the array: the table [init_ranges] fills has one
    range for each element of every array it knows.  Once the pass has run,
    every member of [m_gep_oob] carries [ERR(ARRAY_OOB)]. *)
Theorem gep_oob_index_max_reaches_array_length m F bb inst s s' gep :
  visit_inst cr m F bb inst s = Done s' →
  gep ∈ m_gep_oob s' → gep ∉ m_gep_oob s →
  (∃ garr i0 idx ranges idx_rng,
     i_kind inst = Load (VInst gep)
     ∧ i_kind <$> find_inst m gep = Some (GetElementPtr (VGlobal garr) [i0; idx])
     ∧ m_garr2ranges s !! garr = Some ranges
     ∧ get_range_by_bb s (f_name F) idx (BlockRef bb) = Done idx_rng
     ∧ Z.of_nat (length ranges) ≤ ConstantRange.getUnsignedMax idx_rng)
  ∧ (∀ m0 s0 s1,
       init_ranges demangle m0 s0 = Done s1 →
       m_garr2ranges s0 = ∅ → NoDup (g_name <$> m_globals m0) →
       garr_lengths (m_globals m0) s1)
  ∧ (∀ fuel m0 m1 st g,
       run cr demangle fuel m0 = Done (m1, st) →
       g ∈ m_gep_oob st → md_err st !! g = Some (mkstr ARRAY_OOB)).
Proof.
  intros Hrun Hin Hnotin. split_and!.
  - apply visit_inst_oob in Hrun as [(_ & Hsame & _)|Hplaced]; [by rewrite Hsame in Hin|].
    destruct Hplaced as (g & garr & i0 & idx & ranges & idx_rng & Hk & Hg & Hr & Hi & Hle & _ & Hoob & _).
    rewrite Hoob in Hin. apply elem_of_union in Hin as [Hin|Hin]; [|done].
    apply elem_of_singleton in Hin as ->.
    by eexists _, _, _, _, _.
  - apply init_ranges_garr_lengths.
  - apply run_oob_marked.
Qed.

(** C3 (as amended).  The merge over a conditional branch on [cmp = icmp p
    lhs rhs] returns once both operands are integers with a range in the
    predecessor.  It leaves in the block a range for each operand: a
    constant keeps its own range, and an operand that is no constant gets
    its refinement united with what the block held before, an empty range
    standing in when it held none.  The refinement of the left operand is
    its range in the predecessor cut by the region the predicate (the
    inverse predicate when the block is the false successor) allows against
    the range of the right operand; when the block is the true successor,
    the refinement of the right operand is its range in the predecessor cut
    by the region the swapped predicate allows against the range of the left
    operand.  (When both operands are the same value the block holds one
    range for the two, the one the right operand gets, which is united with
    what the left operand has left.)  Nothing is said of the range a right
    operand that is no constant gets on the false successor.  The comparison
    is recorded in [m_impossible_branches] exactly when one of the two
    ranges of the block is empty, and the flag recorded says whether the
    block is the true successor.  Once the pass has run, every key of
    [m_impossible_branches] carries [ERR(DEAD_TRUE_BR)] when its flag is
    true and [ERR(DEAD_FALSE_BR)] when it is false. *)
Theorem dead_branch_recorded_when_merged_range_empty
    m F bb pred br_true cmp p lhs rhs s lrng rrng :
  isIntegerTy (type_of m lhs) = true →
  isIntegerTy (type_of m rhs) = true →
  get_range_by_bb s F lhs (BlockRef pred) = Done lrng →
  get_range_by_bb s F rhs (BlockRef pred) = Done rrng →
  let is_true_br := bool_decide (br_true = bb) in
  let held v :=
    default (ConstantRange.getEmpty (getIntegerBitWidth (type_of m v)))
      (rng_at s F (BlockRef bb) !! v) in
  let lnew :=
    if isConstantInt lhs then lrng
    else ConstantRange.unionWith cr
           (ConstantRange.intersectWith cr lrng
              (cmpRegion cr (if is_true_br then p else getInversePredicate p) rrng))
           (held lhs) in
  (∃ s' l' r',
     merge_cond_br cr m F bb pred br_true cmp p lhs rhs s = Done s'
     ∧ rng_at s' F (BlockRef bb) !! lhs = Some l'
     ∧ rng_at s' F (BlockRef bb) !! rhs = Some r'
     ∧ m_impossible_branches s' =
         (if ConstantRange.isEmptySet l' || ConstantRange.isEmptySet r'
          then <[cmp := is_true_br]> (m_impossible_branches s)
          else m_impossible_branches s)
     ∧ (lhs ≠ rhs → l' = lnew)
     ∧ (lhs = rhs → l' = r')
     ∧ (isConstantInt rhs = true → r' = rrng)
     ∧ (is_true_br = true → isConstantInt rhs = false →
        r' = ConstantRange.unionWith cr
               (ConstantRange.intersectWith cr rrng (cmpRegion cr (getSwappedPredicate p) lrng))
               (if decide (lhs = rhs) then lnew else held rhs)))
  ∧ (∀ fuel m0 m' st c is_tbr,
       run cr demangle fuel m0 = Done (m', st) →
       m_impossible_branches st !! c = Some is_tbr →
       md_err st !! c = Some (mkstr (dead_branch_err is_tbr))).
Proof.
  intros Hl Hr Hlrng Hrrng is_true_br held lnew. split.
  - destruct (merge_cond_br_ranges m F bb pred br_true cmp p lhs rhs s lrng rrng
                Hl Hr Hlrng Hrrng) as (s' & H1 & H2 & H3 & H4).
    eexists s', _, _. split_and!; [exact H1|exact H2|exact H3|exact H4|..].
    + intros Hne. by rewrite decide_False.
    + intros Heq. by rewrite decide_True.
    + by intros ->.
    + fold is_true_br. intros -> ->. done.
  - intros fuel m0 m' st c is_tbr Hrun Hc.
    rewrite (run_errors fuel m0 m' st c Hrun). by rewrite Hc.
Qed.

(** *** Returns of a source as sinks *)

Lemma foldl_mark_returns (l : list instruction) s :
  ∀ inst, inst ∈ l → isReturnInst inst = true →
    md_sink (foldl (λ s inst, if isReturnInst inst then mark_sink (i_id inst) "return" s else s)
               s l) !! i_id inst = Some "return".
Proof.
  induction l as [|x l IH] using rev_ind; intros inst Hin Hret; [by apply elem_of_nil in Hin|].
  rewrite foldl_app. simpl.
  apply elem_of_app in Hin as [Hin|Hin].
  - destruct (isReturnInst x); [|by apply IH].
    simpl. destruct (decide (i_id inst = i_id x)) as [->|Hne].
    + by rewrite lookup_insert_eq.
    + rewrite lookup_insert_ne by done. by apply IH.
  - apply list_elem_of_singleton in Hin as ->. rewrite Hret. simpl. by rewrite lookup_insert_eq.
Qed.

(** C7.  Once the sink arguments of the calls in [F] are marked,
    [mark_func_sinks] returns.  If [F] is a source (its demangled name starts
    with [sys_] or [__mkint_ann_]), returns an integer and has a user in a
    function that is no source, every return instruction of [F] carries
    [SINK("return")]; otherwise the state is the one the marking of the
    calls left, with nothing added. *)
Theorem source_returns_are_sinks m F s s1 :
  mark_sink_args demangle m F s = Done s1 →
  ∃ s',
    mark_func_sinks demangle m F s = Done s'
    ∧ if is_taint_src demangle (f_name F) && isIntegerTy (f_ret F)
         && existsb (λ u, negb (is_taint_src demangle (f_name u.1))) (uses m (VFunc (f_name F)))
      then ∀ inst, inst ∈ instructions F → isReturnInst inst = true →
                   md_sink s' !! i_id inst = Some "return"
      else s' = s1.
Proof.
  intros Hargs. unfold mark_func_sinks. rewrite Hargs. cbn [mbind result_bind].
  destruct (is_taint_src demangle (f_name F)); [|by eexists].
  destruct (isIntegerTy (f_ret F)); [|by eexists].
  cbn [andb]. unfold use_empty.
  destruct (uses m (VFunc (f_name F))) as [|u us] eqn:Huses; [by eexists|].
  cbn [negb].
  destruct (existsb _ (u :: us)); cbn [negb]; eexists; (split; [done|]); [|done].
  apply foldl_mark_returns.
Qed.

(** *** What the traversal finds and what it marks *)

Lemma for_each_or_spec {A S} (Inv : S → Prop) (P : A → Prop)
    (body : A → S → result (bool * S)) l acc s r :
  (∀ x t bx t', x ∈ l → Inv t → body x t = Done (bx, t') → Inv t' ∧ (bx = true ↔ P x)) →
  Inv s → for_each_or body l acc s = Done r →
  Inv r.2 ∧ (r.1 = true ↔ acc = true ∨ ∃ x, x ∈ l ∧ P x).
Proof.
  revert acc s.
  induction l as [|x l IH]; intros acc s Hbody HInv Hrun; simpl in Hrun.
  - simplify_eq. split; [done|]. simpl. split; [by left|].
    intros [?|(? & []%elem_of_nil & _)]; done.
  - apply bind_Done in Hrun as ([b s1] & Hx & Hrun).
    destruct (Hbody x s b s1) as [HInv1 Hb]; [by left|done|done|].
    destruct (IH (acc || b) s1) as [HInv' Hr]; [|done|done|].
    { intros y t by' t' Hy. apply Hbody. by right. }
    split; [done|]. rewrite Hr, orb_true_iff, Hb. split.
    + intros [[?|?]|(y & Hy & HP)]; [by left|right|right].
      * exists x. split; [by left|done].
      * exists y. split; [by right|done].
    + intros [?|(y & [->|Hy]%elem_of_cons & HP)]; [by left; left|by left; right|].
      right. by exists y.
Qed.

Lemma for_each_or_false {A S} (body : A → S → result (bool * S)) l acc s s' :
  (∀ x t t', body x t = Done (false, t') → t' = t) →
  for_each_or body l acc s = Done (false, s') → s' = s ∧ acc = false.
Proof.
  intros Hbody. revert acc s.
  induction l as [|x l IH]; intros acc s Hrun; simpl in Hrun.
  - by simplify_eq.
  - apply bind_Done in Hrun as ([b s1] & Hx & Hrun).
    apply IH in Hrun as [-> [-> ->]%orb_false_iff].
    split; [|done]. by apply (Hbody x).
Qed.

Lemma sink_by_global m sinks inst val gv user :
  i_kind inst = Store val (VGlobal gv) →
  user ∈ users m (VGlobal gv) → i_id user ≠ i_id inst →
  sink_reachable m sinks user → sink_reachable m sinks inst.
Proof. intros. eapply sink_step; [by eapply edge_global|done]. Qed.

Lemma sink_by_user m sinks inst user :
  (∀ val ptr, i_kind inst ≠ Store val ptr) →
  user ∈ users m (VInst (i_id inst)) →
  sink_reachable m sinks user → sink_reachable m sinks inst.
Proof. intros. eapply sink_step; [by eapply edge_user|done]. Qed.

Lemma sink_by_callee m sinks inst callee args f arg user :
  i_kind inst = Call callee args →
  getCalledFunction m callee = Some f → isDeclaration f = false →
  arg ∈ args_of f → user ∈ users m arg →
  sink_reachable m sinks user → sink_reachable m sinks inst.
Proof. intros. eapply sink_step; [by eapply edge_callee|done]. Qed.

Ltac inv_reach H :=
  let He := fresh "He" in
  inversion H as [|? ? He ?]; [|inversion He]; simplify_eq.

Ltac same_kind :=
  try match goal with
      | H : i_kind ?i = _, H' : i_kind ?i = _ |- _ => rewrite H in H'; simplify_eq
      end.

Ltac absurd_reach :=
  first
    [ congruence
    | by match goal with H : ¬ is_Some _ |- _ => destruct H end
    | by exfalso; match goal with H : ∀ val ptr, _ ≠ Store val ptr |- _ => eapply H end ].

Lemma users_all_instructions m v user : user ∈ users m v → user ∈ all_instructions m.
Proof.
  unfold users, uses, all_instructions. intros Hu.
  apply list_elem_of_fmap in Hu as ([F i] & -> & Hu).
  apply list_elem_of_bind in Hu as (F' & Hu & HF).
  apply list_elem_of_bind in Hu as (i' & Hu & Hi).
  apply list_elem_of_bind in Hu as (o & Hu & _).
  apply list_elem_of_singleton in Hu. simplify_eq. simpl.
  apply list_elem_of_In, in_flat_map. exists F'. by rewrite <- !list_elem_of_In.
Qed.

Section traversal.
Context (m : module) (sinks base : gmap N string) (roots : list instruction).

Local Abbreviation Inv := (taint_justified m sinks base roots).
Local Abbreviation reaches := (sink_reachable m sinks).
Local Abbreviation known := (known_inst m roots).

Lemma users_known v user : user ∈ users m v → known user.
Proof. intros Hu. right. by eapply users_all_instructions. Qed.

Lemma taint_justified_mark inst name s :
  Inv s → known inst → reaches inst → Inv (mark_taint inst name s).
Proof.
  intros [Hs Ht] Hknown Hreach. split; [done|].
  intros k. simpl. destruct (decide (k = i_id inst)) as [->|Hne].
  - intros _. right. by exists inst.
  - rewrite lookup_insert_ne by done. apply Ht.
Qed.

Lemma taint_bcast_sink_args_spec reach taint_source s r :
  (∀ i t b t', known i → Inv t → reach i t = Done (b, t') → Inv t' ∧ (b = true ↔ reaches i)) →
  Inv s → taint_bcast_sink_args reach m taint_source s = Done r →
  Inv r.2 ∧ (r.1 = true ↔ ∃ ts user, ts ∈ taint_source ∧ user ∈ users m ts ∧ reaches user).
Proof.
  intros Hreach HInv Hrun. unfold taint_bcast_sink_args in Hrun.
  apply (for_each_or_spec Inv (λ ts, ∃ user, user ∈ users m ts ∧ reaches user)) in Hrun
    as [HInv' Hr]; [|clear Hrun|done].
  - split; [done|]. rewrite Hr. split.
    + intros [?|(ts & Hts & user & Hu & HP)]; [done|]. by exists ts, user.
    + intros (ts & user & Hts & Hu & HP). right. exists ts. split; [done|]. by exists user.
  - intros ts t b t' _ Ht Hts.
    apply (for_each_or_spec Inv reaches) in Hts as [Ht' Hb]; [|clear Hts|done].
    + split; [done|]. simpl in Hb. rewrite Hb. split.
      * intros [?|(user & Hu & HP)]; [done|]. by exists user.
      * intros (user & Hu & HP). right. by exists user.
    + intros user u b' u' Huser%users_known Hu Hbody.
      apply bind_Done in Hbody as ([r1 u1] & Hr1 & Hbody).
      destruct (Hreach _ _ _ _ Huser Hu Hr1) as [Hu1 Hiff].
      destruct r1; simplify_eq.
      * split; [|done]. apply taint_justified_mark; [done|done|]. by apply Hiff.
      * done.
Qed.

Lemma is_sink_reachable_spec fuel inst s b s' :
  is_sink_reachable demangle fuel m inst s = Done (b, s') →
  known inst → Inv s → Inv s' ∧ (b = true ↔ reaches inst).
Proof.
  revert inst s b s'.
  induction fuel as [|fuel IH]; intros inst s b s' Hrun Hknown HInv; [done|].
  cbn [is_sink_reachable] in Hrun.
  case_bool_decide as Hsink.
  { apply bind_Done in Hrun as (fns & _ & Hrun). simplify_eq.
    split; [by destruct HInv|]. split; [|done].
    intros _. apply sink_here. by rewrite <- (proj1 HInv). }
  assert (¬ is_Some (sinks !! i_id inst)) as Hnosink by (by rewrite <- (proj1 HInv)).
  assert (∀ users_flag : bool, ∀ t, Inv t →
            (users_flag = true → reaches inst) →
            Inv (if users_flag then mark_taint inst "" t else t)) as Hmark.
  { intros [] t Ht Hr; [|done]. apply taint_justified_mark; auto. }
  assert (∀ v user t bx t', user ∈ users m v → Inv t →
            is_sink_reachable demangle fuel m user t = Done (bx, t') →
            Inv t' ∧ (bx = true ↔ reaches user)) as IHu.
  { intros v user t bx t' Hu%users_known Ht Hbody. by apply (IH user t bx t'). }
  destruct (i_kind inst) eqn:Hk.
  6: { (* Store *)
    destruct ptr as [| |?|gv| |];
      try (simplify_eq; split; [done|]; split; [done|];
           intros Hr; inv_reach Hr; same_kind; absurd_reach).
    apply bind_Done in Hrun as ([b1 s1] & Husers & Hrun).
    apply (for_each_or_spec Inv (λ user, i_id user ≠ i_id inst ∧ reaches user)) in Husers
      as [HInv1 Hb1]; [| |done].
    2: { intros user t bx t' Huser Ht Hbody. case_bool_decide as Hid.
         - simplify_eq. split; [done|]. split; [done|]. by intros [? _].
         - destruct (IHu _ _ _ _ _ Huser Ht Hbody) as [? Hiff]. split; [done|].
           rewrite Hiff. split; [by intros ?|by intros [_ ?]]. }
    simpl in Hb1.
    assert (b1 = true ↔ reaches inst) as Hiff.
    { rewrite Hb1. split.
      - intros [?|(user & Hu & Hne & HP)]; [done|]. by eapply sink_by_global.
      - intros Hr. right. inv_reach Hr; same_kind; try absurd_reach.
        by exists user. }
    destruct b1; simplify_eq.
    - split; [|done].
      destruct (taint_justified_mark inst "" s1 HInv1) as [? ?]; [done|by apply Hiff|].
      by split.
    - by split. }
  6: { (* Call *)
    apply bind_Done in Hrun as ([b0 s0] & Hpre & Hrun).
    apply bind_Done in Hrun as ([b1 s1] & Husers & Hrun).
    assert (Inv s0 ∧ (b0 = true ↔
              ∃ f arg user, getCalledFunction m callee = Some f ∧ isDeclaration f = false
                            ∧ arg ∈ args_of f ∧ user ∈ users m arg ∧ reaches user))
      as [HInv0 Hb0].
    { destruct (getCalledFunction m callee) as [f|] eqn:Hf.
      2: { simplify_eq. split; [done|]. split; [done|]. by intros (? & ? & ? & ? & _). }
      destruct (isDeclaration f) eqn:Hdecl; simpl in Hpre.
      { simplify_eq. split; [done|]. split; [done|]. intros (? & ? & ? & ? & ? & _). congruence. }
      apply bind_Done in Hpre as ([r t] & Hargs & Hpre).
      apply taint_bcast_sink_args_spec in Hargs as [Ht Hr]; [| |done].
      2: { intros i u bx u' Hi Hu Hrun'. by apply (IH i u bx u'). }
      simpl in *.
      assert (Inv s0) as HInv0. { destruct r; simplify_eq; [|done]. by destruct Ht. }
      split; [done|].
      assert (b0 = r) as -> by (by destruct r; simplify_eq).
      rewrite Hr. split.
      - intros (arg & user & ? & ? & ?). by exists f, arg, user.
      - intros (f' & arg & user & ? & ? & ? & ? & ?). simplify_eq. by exists arg, user. }
    apply (for_each_or_spec Inv reaches) in Husers as [HInv1 Hb1]; [| |done].
    2: { intros user t bx t' Huser Ht Hbody. by eapply IHu. }
    simpl in Hb1.
    assert (b1 = true ↔ reaches inst) as Hiff.
    { rewrite Hb1, Hb0. split.
      - intros [(f & arg & user & ? & ? & ? & ? & ?)|(user & Hu & HP)].
        + by eapply sink_by_callee.
        + eapply sink_by_user; [|done|done]. intros ? ?. congruence.
      - intros Hr. inv_reach Hr; same_kind; try absurd_reach.
        + right. by exists user.
        + left. by exists f, arg, user. }
    destruct b1.
    - assert (b = true ∧ md_sink s' = md_sink (mark_taint inst "" s1)
              ∧ md_taint s' = md_taint (mark_taint inst "" s1)) as (-> & Hs & Ht).
      { repeat case_match; by simplify_eq. }
      split; [|done].
      destruct (taint_justified_mark inst "" s1 HInv1) as [? ?]; [done|by apply Hiff|].
      split; [congruence|]. by rewrite Ht.
    - simplify_eq. by split. }
  all: apply bind_Done in Hrun as ([b0 s0] & Hpre & Hrun); simplify_eq.
  all: apply bind_Done in Hrun as ([b1 s1] & Husers & Hrun).
  all: apply (for_each_or_spec Inv reaches) in Husers as [HInv1 Hb1];
         [|by intros user t bx t' Huser Ht Hbody; eapply IHu|done].
  all: simpl in Hb1.
  all: assert (b1 = true ↔ reaches inst) as Hiff by
         (rewrite Hb1; split;
          [ intros [?|(user & Hu & HP)]; [done|];
            eapply sink_by_user; [|done|done]; intros ? ?; congruence
          | intros Hr; inv_reach Hr; same_kind; try absurd_reach;
            right; by exists user ]).
  all: destruct b1; simplify_eq; [|by split].
  all: split; [|done]; apply taint_justified_mark; [done|done|by apply Hiff].
Qed.

End traversal.

Lemma taint_justified_start m roots s : taint_justified m (md_sink s) (md_taint s) roots s.
Proof. split; [done|]. intros k Hk. by left. Qed.

Lemma taint_bcast_sink_args_false reach m taint_source s s' :
  (∀ i t t', reach i t = Done (false, t') → t' = t) →
  taint_bcast_sink_args reach m taint_source s = Done (false, s') → s' = s.
Proof.
  intros Hreach Hrun. unfold taint_bcast_sink_args in Hrun.
  apply for_each_or_false in Hrun as [-> _]; [done|].
  intros ts t t' Hts. apply for_each_or_false in Hts as [-> _]; [done|].
  intros user u u' Hu.
  apply bind_Done in Hu as ([r u1] & Hr & Hu).
  destruct r; simplify_eq. by apply (Hreach user).
Qed.

(** A traversal that finds no sink leaves the state as it was. *)
Lemma is_sink_reachable_false fuel m inst s s' :
  is_sink_reachable demangle fuel m inst s = Done (false, s') → s' = s.
Proof.
  revert inst s s'.
  induction fuel as [|fuel IH]; intros inst s s' Hrun; [done|].
  cbn [is_sink_reachable] in Hrun.
  case_bool_decide; [by inv_result|].
  destruct (i_kind inst) eqn:Hk.
  6: { destruct ptr; try (by simplify_eq).
       apply bind_Done in Hrun as ([b1 s1] & Husers & Hrun).
       destruct b1; simplify_eq.
       apply for_each_or_false in Husers as [-> _]; [done|].
       intros user t t' Hu. case_bool_decide; [by simplify_eq|by apply (IH user)]. }
  6: { apply bind_Done in Hrun as ([b0 s0] & Hpre & Hrun).
       apply bind_Done in Hrun as ([b1 s1] & Husers & Hrun).
       destruct b1; [repeat case_match; by simplify_eq|]. simplify_eq.
       apply for_each_or_false in Husers as [-> ->]; [|by intros; eapply IH].
       destruct (getCalledFunction m callee); [|by simplify_eq].
       destruct (negb (isDeclaration f)); [|by simplify_eq].
       apply bind_Done in Hpre as ([r t] & Hargs & Hpre).
       destruct r; simplify_eq.
       apply taint_bcast_sink_args_false in Hargs; [done|]. intros. by eapply IH. }
  all: apply bind_Done in Hrun as ([b0 s0] & Hpre & Hrun); simplify_eq.
  all: apply bind_Done in Hrun as ([b1 s1] & Husers & Hrun).
  all: destruct b1; simplify_eq.
  all: apply for_each_or_false in Husers as [-> _]; [done|by intros; eapply IH].
Qed.


(** *** Taint marks after the taint phase *)

Lemma taint_bcast_sink_justified fuel m sinks base roots taint_source s r :
  taint_bcast_sink demangle fuel m taint_source s = Done r →
  taint_source ⊆ roots →
  taint_justified m sinks base roots s → taint_justified m sinks base roots r.2.
Proof.
  unfold taint_bcast_sink. intros Hrun Hroots HInv.
  apply (for_each_or_spec (taint_justified m sinks base roots) (sink_reachable m sinks)) in Hrun
    as [? _]; [done| |done].
  intros ts t b t' Hts%Hroots Ht Hrun'.
  apply bind_Done in Hrun' as ([r1 t1] & Hr & Hrun').
  apply (is_sink_reachable_spec m sinks base roots) in Hr as [Ht1 Hiff]; [|by left|done].
  destruct r1; simplify_eq; [|done].
  split; [|done]. apply taint_justified_mark; [done|by left|]. by apply Hiff.
Qed.

Lemma bcast_sources_justified fuel m sinks base s s' :
  bcast_sources demangle fuel m s = Done s' →
  taint_justified m sinks base (concat (m_func2tsrc s).*2) s →
  taint_justified m sinks base (concat (m_func2tsrc s).*2) s'.
Proof.
  unfold bcast_sources. intros Hrun HInv.
  eapply (for_each_inv (taint_justified m sinks base _)); [|done|exact Hrun].
  intros [fp tsrc] t t' Hin Ht Hbody.
  apply bind_Done in Hbody as ([r t1] & Hts & Hbody).
  eapply taint_bcast_sink_justified in Hts; [| |done].
  - destruct r; simplify_eq; [|done]. by destruct Hts.
  - intros ts Hts'. apply list_elem_of_In, in_concat. exists tsrc.
    rewrite <- !list_elem_of_In. split; [|done].
    apply list_elem_of_fmap. by exists (fp, tsrc).
Qed.

Lemma taint_round_justified fuel m sinks base roots s s' :
  taint_round demangle fuel m s = Done s' →
  taint_justified m sinks base roots s → taint_justified m sinks base roots s'.
Proof.
  unfold taint_round. intros Hrun HInv.
  eapply (for_each_inv (taint_justified m sinks base roots)); [|done|exact Hrun].
  intros f t t' _ Ht Hbody. cbv beta in Hbody.
  destruct (negb (is_taint_src demangle f)); simpl in Hbody; [|by simplify_eq].
  destruct (find_func m f); simpl in Hbody; [|by simplify_eq].
  apply bind_Done in Hbody as ([r t1] & Hargs & Hbody). simplify_eq.
  apply (taint_bcast_sink_args_spec m sinks base roots) in Hargs as [? _]; [done| |done].
  intros i u b u' Hi Hu Hrun'. by eapply is_sink_reachable_spec.
Qed.

Lemma taint_loop_justified rounds fuel m sinks base roots s s' :
  taint_loop demangle rounds fuel m s = Done s' →
  taint_justified m sinks base roots s → taint_justified m sinks base roots s'.
Proof.
  revert s. induction rounds as [|rounds IH]; intros s Hrun HInv; [done|].
  simpl in Hrun. apply bind_Done in Hrun as (s1 & Hround & Hrun).
  eapply taint_round_justified in Hround; [|done].
  case_bool_decide; [by eapply IH|by simplify_eq].
Qed.

Lemma mark_call_sinks_taint m callee args sinks s s' :
  mark_call_sinks demangle m callee args sinks s = Done s' → md_taint s' = md_taint s.
Proof.
  induction sinks as [|[name idx] sinks IH]; simpl; intros Hrun; [by simplify_eq|].
  repeat case_match; simplify_eq; try done. by apply IH.
Qed.

Lemma mark_func_sinks_taint m F s s' :
  mark_func_sinks demangle m F s = Done s' → md_taint s' = md_taint s.
Proof.
  unfold mark_func_sinks, mark_sink_args. intros Hrun.
  apply bind_Done in Hrun as (s1 & Hargs & Hrun).
  assert (md_taint s1 = md_taint s) as <-.
  { eapply (for_each_inv (λ t, md_taint t = md_taint s)); [|done|exact Hargs].
    intros inst t t' _ Ht Hbody. cbv beta in Hbody.
    destruct (i_kind inst); simplify_eq; try done.
    apply mark_call_sinks_taint in Hbody. congruence. }
  assert (∀ l t, md_taint (foldl (λ s inst, if isReturnInst inst
                                            then mark_sink (i_id inst) "return" s else s) t l)
                 = md_taint t) as Hfold.
  { induction l as [|x l IH]; intros t; simpl; [done|].
    rewrite IH. by destruct (isReturnInst x). }
  repeat case_match; simplify_eq; try done; apply Hfold.
Qed.

Lemma mark_sources_taint fuel pos m s m' s' :
  mark_sources demangle fuel pos m s = Done (m', s') → md_taint s' = md_taint s.
Proof.
  revert pos m s.
  induction fuel as [|fuel IH]; intros pos m s Hrun; [done|].
  cbn [mark_sources] in Hrun.
  destruct (m_funcs m !! pos) as [F|]; [|by simplify_eq].
  destruct (get_taint_source demangle F m) as [taint_sources m1].
  apply bind_Done in Hrun as (s1 & Hsinks & Hrun).
  apply mark_func_sinks_taint in Hsinks. apply IH in Hrun.
  rewrite Hrun, <- Hsinks. by destruct (is_taint_src demangle _).
Qed.

(** *** What the propagation keeps *)

#[local] Instance taint_marks_grow_preorder : PreOrder taint_marks_grow.
Proof.
  split.
  - intros s. by split_and!.
  - intros s1 s2 s3 (H1 & H2 & H3 & H4) (H5 & H6 & H7 & H8).
    split_and!; [congruence|congruence|auto|by etrans].
Qed.

Lemma taint_marks_grow_mark inst name s : taint_marks_grow s (mark_taint inst name s).
Proof.
  split_and!; try done. intros k Hk. simpl.
  apply lookup_insert_is_Some. destruct (decide (i_id inst = k)); auto.
Qed.

Lemma taint_marks_grow_insert f s :
  taint_marks_grow s (set_taint_funcs (setvector_insert f (m_taint_funcs s)) s).
Proof.
  split_and!; try done. simpl. unfold setvector_insert.
  case_bool_decide; [done|]. intros x Hx. apply elem_of_app. by left.
Qed.

Lemma bcast_source_marks_grow fuel m fp tsrc t t' :
  ('(r, s) ← taint_bcast_sink demangle fuel m tsrc t;
   if r : bool then Done (set_taint_funcs (setvector_insert fp (m_taint_funcs s)) s)
   else Done s) = Done t' →
  taint_marks_grow t t'.
Proof.
  intros Hbody.
  apply bind_Done in Hbody as ([r t1] & Hts & Hbody).
  apply (taint_bcast_sink_steps m taint_marks_grow _) in Hts;
    [|apply taint_marks_grow_mark|done|intros; apply taint_marks_grow_insert].
  destruct r; simplify_eq; [|done].
  etrans; [done|]. apply taint_marks_grow_insert.
Qed.

Lemma bcast_sources_marks_grow fuel m s s' :
  bcast_sources demangle fuel m s = Done s' → taint_marks_grow s s'.
Proof.
  unfold bcast_sources. apply (for_each_steps taint_marks_grow _).
  intros [fp tsrc] t t'. apply bcast_source_marks_grow.
Qed.

Lemma taint_loop_marks_grow rounds fuel m s s' :
  taint_loop demangle rounds fuel m s = Done s' → taint_marks_grow s s'.
Proof.
  revert s. induction rounds as [|rounds IH]; intros s Hrun; [done|].
  simpl in Hrun. apply bind_Done in Hrun as (s1 & Hround & Hrun).
  apply (taint_round_steps m taint_marks_grow _) in Hround;
    [|apply taint_marks_grow_mark|done|intros; apply taint_marks_grow_insert].
  etrans; [done|].
  case_bool_decide; [by apply IH|by simplify_eq].
Qed.

Lemma taint_analysis_justified fuel m m' s' :
  taint_analysis demangle fuel m = Done (m', s') →
  taint_justified m' (md_sink s') ∅ (concat (m_func2tsrc s').*2) s'.
Proof.
  unfold taint_analysis. intros Hrun.
  apply bind_Done in Hrun as ([m1 s1] & Hwalk & Hrun).
  apply bind_Done in Hrun as (s2 & Hbcast & Hrun).
  apply bind_Done in Hrun as (s3 & Hloop & Hrun). simplify_eq.
  apply mark_sources_taint in Hwalk. simpl in Hwalk.
  destruct (bcast_sources_marks_grow _ _ _ _ Hbcast) as (_ & Hsrc2 & _).
  destruct (taint_loop_marks_grow _ _ _ _ _ Hloop) as (_ & Hsrc3 & _).
  assert (taint_justified m' (md_sink s1) ∅ (concat (m_func2tsrc s1).*2) s1) as H1.
  { split; [done|]. intros k. rewrite Hwalk, lookup_empty. by intros [? ?]. }
  eapply bcast_sources_justified in Hbcast; [|done].
  eapply taint_loop_justified in Hloop; [|done].
  rewrite Hsrc3, Hsrc2.
  destruct Hloop as [Hs Ht]. split; [done|]. by rewrite Hs.
Qed.

(** *** Sources that reach a sink *)

Lemma for_each_or_true {A S} (body : A → S → result (bool * S)) l s r :
  for_each_or body l true s = Done r → r.1 = true.
Proof.
  revert s. induction l as [|x l IH]; intros s Hrun; simpl in Hrun; [by simplify_eq|].
  apply bind_Done in Hrun as ([b s1] & _ & Hrun). by eapply IH.
Qed.

(** What the round for [x] establishes holds when the loop ends, when the
    other rounds keep it. *)
Lemma for_each_at {A S} (R : relation S) `{!PreOrder R} (Q : S → Prop)
    (body : A → S → result S) l s s' x :
  (∀ y t t', body y t = Done t' → R t t') →
  (∀ t t', R t t' → Q t → Q t') →
  (∀ t t', R s t → body x t = Done t' → Q t') →
  x ∈ l → for_each body l s = Done s' → Q s'.
Proof.
  intros Hstep Hkeep. revert s.
  induction l as [|y l IH]; intros s Hx Hin Hrun; [by apply elem_of_nil in Hin|].
  simpl in Hrun. apply bind_Done in Hrun as (s1 & Hy & Hrun).
  apply elem_of_cons in Hin as [->|Hin].
  - apply (Hkeep s1); [|by eapply Hx].
    eapply (for_each_inv (R s1)); [|reflexivity|exact Hrun].
    intros z t t' _ Ht Hz. etrans; [done|by eapply Hstep].
  - apply (IH s1); [|done|done].
    intros t t' Ht. apply Hx. etrans; [by eapply Hstep|done].
Qed.

Lemma for_each_or_at {A S} (R : relation S) `{!PreOrder R} (Q : S → Prop)
    (body : A → S → result (bool * S)) l acc s r x :
  (∀ y t b t', body y t = Done (b, t') → R t t') →
  (∀ t t', R t t' → Q t → Q t') →
  (∀ t b t', R s t → body x t = Done (b, t') → b = true ∧ Q t') →
  x ∈ l → for_each_or body l acc s = Done r → r.1 = true ∧ Q r.2.
Proof.
  intros Hstep Hkeep. revert acc s.
  induction l as [|y l IH]; intros acc s Hx Hin Hrun; [by apply elem_of_nil in Hin|].
  simpl in Hrun. apply bind_Done in Hrun as ([b s1] & Hy & Hrun).
  apply elem_of_cons in Hin as [->|Hin].
  - destruct (Hx s b s1) as [-> HQ]; [reflexivity|done|].
    rewrite orb_true_r in Hrun. split; [by eapply for_each_or_true|].
    apply (Hkeep s1); [|done].
    eapply (for_each_or_inv (R s1)); [|reflexivity|exact Hrun].
    intros z t b t' Ht Hz. etrans; [done|by eapply Hstep].
  - apply (IH (acc || b) s1); [|done|done].
    intros t b' t' Ht. apply Hx. etrans; [by eapply Hstep|done].
Qed.

Lemma bcast_sources_marks_sources fuel m s s' fp tsrc ts :
  bcast_sources demangle fuel m s = Done s' →
  (fp, tsrc) ∈ m_func2tsrc s → ts ∈ tsrc →
  sink_reachable m (md_sink s) ts →
  is_Some (md_taint s' !! i_id ts) ∧ fp ∈ m_taint_funcs s'.
Proof.
  unfold bcast_sources. intros Hrun Hin Hts Hreach.
  eapply (for_each_at taint_marks_grow
            (λ t, is_Some (md_taint t !! i_id ts) ∧ fp ∈ m_taint_funcs t));
    [| | |exact Hin|exact Hrun].
  - intros [fp' tsrc'] t t'. apply bcast_source_marks_grow.
  - intros t t' (_ & _ & Ht & Hf) [? ?]. split; [by apply Ht|by apply Hf].
  - intros t t' (Hsink & _) Hbody.
    apply bind_Done in Hbody as ([r t1] & Hsrc & Hbody).
    unfold taint_bcast_sink in Hsrc.
    apply (for_each_or_at taint_marks_grow (λ u, is_Some (md_taint u !! i_id ts))
             _ _ _ _ _ ts) in Hsrc as [Hr Ht1]; [| | | |done].
    + simpl in *. subst r. simplify_eq. split; [done|].
      simpl. unfold setvector_insert. case_bool_decide; [done|].
      apply elem_of_app. right. by left.
    + intros y u b u' Hy.
      apply bind_Done in Hy as ([r1 u1] & Hr1 & Hy).
      apply (is_sink_reachable_steps m taint_marks_grow _) in Hr1;
        [|apply taint_marks_grow_mark|done|intros; apply taint_marks_grow_insert].
      destruct r1; simplify_eq; [|done]. etrans; [done|]. apply taint_marks_grow_mark.
    + intros u u' (_ & _ & Hu & _). apply Hu.
    + intros u b u' (Hsink' & _) Hbody'.
      apply bind_Done in Hbody' as ([r1 u1] & Hr1 & Hbody').
      apply (is_sink_reachable_spec m (md_sink u) (md_taint u) [ts]) in Hr1 as [_ Hiff];
        [|by left; left|apply taint_justified_start].
      assert (r1 = true) as -> by (apply Hiff; congruence).
      simplify_eq. split; [done|]. simpl. by rewrite lookup_insert_eq.
Qed.

(** *** What a traversal has marked when it returns *)

Lemma for_each_or_elem {A S} (R : relation S) `{!PreOrder R} (Q : S → Prop)
    (body : A → S → result (bool * S)) l acc s r x :
  (∀ y t b t', body y t = Done (b, t') → R t t') →
  (∀ t t', R t t' → Q t → Q t') →
  (∀ t b t', R s t → body x t = Done (b, t') → Q t') →
  x ∈ l → for_each_or body l acc s = Done r → Q r.2.
Proof.
  intros Hstep Hkeep. revert acc s.
  induction l as [|y l IH]; intros acc s Hx Hin Hrun; [by apply elem_of_nil in Hin|].
  simpl in Hrun. apply bind_Done in Hrun as ([b s1] & Hy & Hrun).
  apply elem_of_cons in Hin as [->|Hin].
  - apply (Hkeep s1); [|by eapply (Hx s)].
    eapply (for_each_or_inv (R s1)); [|reflexivity|exact Hrun].
    intros z t b' t' Ht Hz. etrans; [done|by eapply Hstep].
  - apply (IH (acc || b) s1); [|done|done].
    intros t b' t' Ht. apply Hx. etrans; [by eapply Hstep|done].
Qed.

Lemma is_sink_reachable_marks_grow fuel m inst s b s' :
  is_sink_reachable demangle fuel m inst s = Done (b, s') → taint_marks_grow s s'.
Proof.
  apply (is_sink_reachable_steps m taint_marks_grow _);
    [apply taint_marks_grow_mark|done|intros; apply taint_marks_grow_insert].
Qed.

Ltac keep_mark :=
  repeat case_match; simplify_eq; simpl;
  first [done | apply lookup_insert_is_Some'; by right | apply lookup_insert_is_Some'; by left].

(** An instruction without [mkint.sink] for which the traversal returns true
    carries [mkint.taint] afterwards. *)
Lemma is_sink_reachable_marks_self fuel m inst s s' :
  is_sink_reachable demangle fuel m inst s = Done (true, s') →
  ¬ is_Some (md_sink s !! i_id inst) → is_Some (md_taint s' !! i_id inst).
Proof.
  destruct fuel as [|fuel]; [done|]. cbn [is_sink_reachable]. intros Hrun Hns.
  rewrite bool_decide_eq_false_2 in Hrun by done.
  destruct (i_kind inst) eqn:Hk.
  6: { destruct ptr; try (by simplify_eq).
       apply bind_Done in Hrun as ([b1 s1] & Husers & Hrun).
       destruct b1; simplify_eq. simpl. apply lookup_insert_is_Some'. by left. }
  6: { apply bind_Done in Hrun as ([b0 s0] & Hpre & Hrun).
       apply bind_Done in Hrun as ([b1 s1] & Husers & Hrun).
       destruct b1; [|by simplify_eq]. keep_mark. }
  all: apply bind_Done in Hrun as ([b0 s0] & Hpre & Hrun); simplify_eq.
  all: apply bind_Done in Hrun as ([b1 s1] & Husers & Hrun).
  all: destruct b1; simplify_eq; simpl; apply lookup_insert_is_Some'; by left.
Qed.

Lemma taint_bcast_sink_args_marks fuel m sinks i taint_source s r arg user :
  (∀ u t b t', md_sink t = sinks → walks_to m sinks u i →
     is_sink_reachable demangle fuel m u t = Done (b, t') → is_Some (md_taint t' !! i_id i)) →
  md_sink s = sinks →
  arg ∈ taint_source → user ∈ users m arg → walks_to m sinks user i →
  taint_bcast_sink_args (is_sink_reachable demangle fuel m) m taint_source s = Done r →
  is_Some (md_taint r.2 !! i_id i).
Proof.
  intros IH Hs Harg Huser Hwalk Hrun. unfold taint_bcast_sink_args in Hrun.
  assert (∀ y t b t',
            ('(r, s) ← is_sink_reachable demangle fuel m y t;
             if r : bool then Done (true, mark_taint y "" s) else Done (false, s)) = Done (b, t') →
            taint_marks_grow t t') as Hinner.
  { intros y t b t' Hy. apply bind_Done in Hy as ([r1 t1] & Hr1 & Hy).
    apply is_sink_reachable_marks_grow in Hr1.
    destruct r1; simplify_eq; [|done]. etrans; [done|]. apply taint_marks_grow_mark. }
  assert (∀ t t', taint_marks_grow t t' →
            is_Some (md_taint t !! i_id i) → is_Some (md_taint t' !! i_id i)) as Hkeep.
  { intros t t' (_ & _ & Ht & _). apply Ht. }
  eapply (for_each_or_elem taint_marks_grow (λ t, is_Some (md_taint t !! i_id i)))
    in Hrun; [exact Hrun| |done| |exact Harg].
  - intros y t b t' Hy.
    eapply (for_each_or_steps taint_marks_grow _) in Hy; [done|]. apply Hinner.
  - intros t b t' Ht Hbody. cbv beta in Hbody.
    eapply (for_each_or_elem taint_marks_grow (λ t, is_Some (md_taint t !! i_id i)))
      in Hbody; [exact Hbody|apply Hinner|done| |exact Huser].
    intros u bu u' Hu Hcall.
    apply bind_Done in Hcall as ([r1 u1] & Hr1 & Hcall).
    assert (is_Some (md_taint u1 !! i_id i)) as Hmarked.
    { eapply IH; [|done|done]. destruct Ht as (Ht1 & _), Hu as (Hu1 & _). congruence. }
    destruct r1; simplify_eq; [|done]. simpl. apply lookup_insert_is_Some'. by right.
Qed.

(** When a traversal from [inst] returns, every instruction without
    [mkint.sink] that the walk comes to and from which a sink can be reached
    carries [mkint.taint]. *)
Lemma is_sink_reachable_marks fuel m sinks i :
  ¬ is_Some (sinks !! i_id i) → sink_reachable m sinks i →
  ∀ inst s b s',
    md_sink s = sinks → walks_to m sinks inst i →
    is_sink_reachable demangle fuel m inst s = Done (b, s') →
    is_Some (md_taint s' !! i_id i).
Proof.
  intros Hns Hreach.
  induction fuel as [|fuel IH]; intros inst s b s' Hs Hwalk Hrun; [done|].
  apply rtc_inv in Hwalk as [->|(u & [Hnsink Hedge] & Hwalk)].
  { destruct (is_sink_reachable_spec m sinks (md_taint s) [i] (S fuel) i s b s' Hrun)
      as [_ Hiff]; [by left; left|subst sinks; apply taint_justified_start|].
    assert (b = true) as -> by (by apply Hiff).
    eapply is_sink_reachable_marks_self; [done|by rewrite Hs]. }
  cbn [is_sink_reachable] in Hrun.
  rewrite bool_decide_eq_false_2 in Hrun by (by rewrite Hs).
  assert (∀ t bx t', taint_marks_grow s t →
            is_sink_reachable demangle fuel m u t = Done (bx, t') →
            is_Some (md_taint t' !! i_id i)) as Hrec.
  { intros t bx t' (Hsink & _) Hu. eapply (IH u t); [congruence|done|done]. }
  assert (∀ t t', taint_marks_grow t t' →
            is_Some (md_taint t !! i_id i) → is_Some (md_taint t' !! i_id i)) as Hkeep.
  { intros t t' (_ & _ & Ht & _). apply Ht. }
  inversion Hedge as [val gv user Hk Hu Hne|user Hk Hu|callee args f arg user Hk Hf Hdecl Harg Hu];
    subst user.
  - (* a store to a global *)
    rewrite Hk in Hrun.
    apply bind_Done in Hrun as ([b1 s1] & Husers & Hrun).
    eapply (for_each_or_elem taint_marks_grow (λ t, is_Some (md_taint t !! i_id i)))
      in Husers; [| |done| |exact Hu].
    + simpl in Husers. destruct b1; simplify_eq; [|done].
      simpl. apply lookup_insert_is_Some'. by right.
    + intros y t bx t' Hy. case_bool_decide; [simplify_eq; reflexivity|].
      by eapply is_sink_reachable_marks_grow.
    + intros t bx t' Ht Hbody. rewrite bool_decide_eq_false_2 in Hbody by done.
      by eapply Hrec.
  - (* the users of the instruction *)
    assert (∃ b0 s0 b1 s1,
              taint_marks_grow s s0
              ∧ for_each_or (is_sink_reachable demangle fuel m)
                  (users m (VInst (i_id inst))) b0 s0 = Done (b1, s1)
              ∧ (is_Some (md_taint s1 !! i_id i) → is_Some (md_taint s' !! i_id i)))
      as (b0 & s0 & b1 & s1 & Hs0 & Husers & Hfinal).
    { destruct (i_kind inst) eqn:Hk'; try (by destruct (Hk val ptr)).
      6: { apply bind_Done in Hrun as ([b0 s0] & Hpre & Hrun).
           apply bind_Done in Hrun as ([b1 s1] & Husers & Hrun).
           exists b0, s0, b1, s1. split_and!; [|done|intros ?; destruct b1; keep_mark].
           destruct (getCalledFunction m callee) as [F|] eqn:HF; [|simplify_eq; reflexivity].
           destruct (negb (isDeclaration F)); [|simplify_eq; reflexivity].
           apply bind_Done in Hpre as ([r t] & Hargs & Hpre).
           apply (taint_bcast_sink_args_steps m taint_marks_grow _) in Hargs;
             [|apply taint_marks_grow_mark
              |intros; by eapply is_sink_reachable_marks_grow].
           destruct r; simplify_eq; [|done].
           etrans; [done|]. apply taint_marks_grow_insert. }
      all: apply bind_Done in Hrun as ([b0 s0] & Hpre & Hrun); simplify_eq.
      all: apply bind_Done in Hrun as ([b1 s1] & Husers & Hrun).
      all: exists false, s0, b1, s1; split_and!; [reflexivity|done|].
      all: intros ?; destruct b1; simplify_eq; [|done].
      all: simpl; apply lookup_insert_is_Some'; by right. }
    apply Hfinal.
    eapply (for_each_or_elem taint_marks_grow (λ t, is_Some (md_taint t !! i_id i)))
      in Husers; [done| |done| |exact Hu].
    + intros y t bx t'. apply is_sink_reachable_marks_grow.
    + intros t bx t' Ht Hbody. eapply Hrec; [|done]. by etrans.
  - (* the users of the arguments of the callee *)
    rewrite Hk in Hrun.
    apply bind_Done in Hrun as ([b0 s0] & Hpre & Hrun).
    apply bind_Done in Hrun as ([b1 s1] & Husers & Hrun).
    rewrite Hf, Hdecl in Hpre. simpl in Hpre.
    apply bind_Done in Hpre as ([r t] & Hargs & Hpre).
    eapply (taint_bcast_sink_args_marks fuel m sinks i) in Hargs; [|done|done|done|done|done].
    assert (is_Some (md_taint s0 !! i_id i)) as H0 by (destruct r; by simplify_eq).
    apply (for_each_or_steps taint_marks_grow _) in Husers;
      [|intros y t' bx t''; apply is_sink_reachable_marks_grow].
    apply (Hkeep _ _ Husers) in H0. simpl in H0.
    rewrite Hf in Hrun. destruct b1; keep_mark.
Qed.

(** *** The walk from a source, and from the arguments of a tainted function *)

Lemma taint_marks_grow_keeps i t t' :
  taint_marks_grow t t' → is_Some (md_taint t !! i_id i) → is_Some (md_taint t' !! i_id i).
Proof. intros (_ & _ & Ht & _). apply Ht. Qed.

Lemma bcast_sources_marks_walk fuel m s s' fp tsrc ts i :
  bcast_sources demangle fuel m s = Done s' →
  (fp, tsrc) ∈ m_func2tsrc s → ts ∈ tsrc →
  walks_to m (md_sink s) ts i →
  ¬ is_Some (md_sink s !! i_id i) → sink_reachable m (md_sink s) i →
  is_Some (md_taint s' !! i_id i).
Proof.
  unfold bcast_sources. intros Hrun Hin Hts Hwalk Hns Hreach.
  eapply (for_each_at taint_marks_grow (λ t, is_Some (md_taint t !! i_id i)))
    in Hrun; [exact Hrun| | | |exact Hin].
  - intros [fp' tsrc'] t t'. apply bcast_source_marks_grow.
  - intros t t'. apply taint_marks_grow_keeps.
  - intros t t' (Hsink & _) Hbody.
    apply bind_Done in Hbody as ([r t1] & Hsrc & Hbody).
    assert (is_Some (md_taint t1 !! i_id i)) as Ht1.
    { unfold taint_bcast_sink in Hsrc.
      eapply (for_each_or_elem taint_marks_grow (λ u, is_Some (md_taint u !! i_id i)))
        in Hsrc; [exact Hsrc| | | |exact Hts].
      - intros y u b u' Hy.
        apply bind_Done in Hy as ([r1 u1] & Hr1 & Hy).
        apply is_sink_reachable_marks_grow in Hr1.
        destruct r1; simplify_eq; [|done]. etrans; [done|]. apply taint_marks_grow_mark.
      - intros u u'. apply taint_marks_grow_keeps.
      - intros u b u' (Hsink' & _) Hbody'.
        apply bind_Done in Hbody' as ([r1 u1] & Hr1 & Hbody').
        eapply (is_sink_reachable_marks fuel m (md_sink s) i) in Hr1;
          [|done|done|congruence|done].
        destruct r1; simplify_eq; [|done]. simpl. apply lookup_insert_is_Some'. by right. }
    destruct r; by simplify_eq.
Qed.

Lemma bcast_user_marks_grow fuel m y t b t' :
  ('(r, s) ← is_sink_reachable demangle fuel m y t;
   if r : bool then Done (true, mark_taint y "" s) else Done (false, s)) = Done (b, t') →
  taint_marks_grow t t'.
Proof.
  intros Hy. apply bind_Done in Hy as ([r1 t1] & Hr1 & Hy).
  apply is_sink_reachable_marks_grow in Hr1.
  destruct r1; simplify_eq; [|done]. etrans; [done|]. apply taint_marks_grow_mark.
Qed.

(** A user of an argument from which a sink can be reached is marked by the
    broadcast, with or without [mkint.sink] of its own. *)
Lemma taint_bcast_sink_args_marks_user fuel m taint_source s r arg user :
  arg ∈ taint_source → user ∈ users m arg → sink_reachable m (md_sink s) user →
  taint_bcast_sink_args (is_sink_reachable demangle fuel m) m taint_source s = Done r →
  is_Some (md_taint r.2 !! i_id user).
Proof.
  intros Harg Huser Hreach Hrun. unfold taint_bcast_sink_args in Hrun.
  eapply (for_each_or_elem taint_marks_grow (λ t, is_Some (md_taint t !! i_id user)))
    in Hrun; [exact Hrun| | | |exact Harg].
  - intros y t b t' Hy.
    eapply (for_each_or_steps taint_marks_grow _) in Hy; [done|].
    intros ? ? ? ?. apply bcast_user_marks_grow.
  - intros t t'. apply taint_marks_grow_keeps.
  - intros t b t' Ht Hbody. cbv beta in Hbody.
    eapply (for_each_or_elem taint_marks_grow (λ t, is_Some (md_taint t !! i_id user)))
      in Hbody; [exact Hbody| | | |exact Huser].
    + intros ? ? ? ?. apply bcast_user_marks_grow.
    + intros u u'. apply taint_marks_grow_keeps.
    + intros u bu u' Hu Hcall.
      apply bind_Done in Hcall as ([r1 u1] & Hr1 & Hcall).
      apply (is_sink_reachable_spec m (md_sink u) (md_taint u) [user]) in Hr1
        as [_ Hiff]; [|by left; left|apply taint_justified_start].
      assert (r1 = true) as ->.
      { apply Hiff. destruct Ht as (Ht1 & _), Hu as (Hu1 & _). by rewrite Hu1, Ht1. }
      simplify_eq. simpl. apply lookup_insert_is_Some'. by left.
Qed.

Lemma taint_round_body_marks_grow fuel m f t t' :
  (if negb (is_taint_src demangle f) then
     match find_func m f with
     | Some F =>
       '(_, s) ← taint_bcast_sink_args (is_sink_reachable demangle fuel m) m (args_of F) t;
       Done s
     | None => Done t
     end
   else Done t) = Done t' →
  taint_marks_grow t t'.
Proof.
  intros Hbody.
  destruct (negb (is_taint_src demangle f)); [|simplify_eq; reflexivity].
  destruct (find_func m f); [|simplify_eq; reflexivity].
  apply bind_Done in Hbody as ([r t1] & Hargs & Hbody). simplify_eq.
  apply (taint_bcast_sink_args_steps m taint_marks_grow _) in Hargs;
    [done|apply taint_marks_grow_mark|intros; by eapply is_sink_reachable_marks_grow].
Qed.

Lemma taint_round_marks fuel m s s' f F arg user :
  taint_round demangle fuel m s = Done s' →
  f ∈ m_taint_funcs s → is_taint_src demangle f = false → find_func m f = Some F →
  arg ∈ args_of F → user ∈ users m arg →
  (sink_reachable m (md_sink s) user → is_Some (md_taint s' !! i_id user))
  ∧ (∀ i, walks_to m (md_sink s) user i →
          ¬ is_Some (md_sink s !! i_id i) → sink_reachable m (md_sink s) i →
          is_Some (md_taint s' !! i_id i)).
Proof.
  intros Hrun Hf Hsrc HF Harg Huser.
  assert (∀ i,
            (i = user ∧ sink_reachable m (md_sink s) user
             ∨ walks_to m (md_sink s) user i ∧ ¬ is_Some (md_sink s !! i_id i)
               ∧ sink_reachable m (md_sink s) i) →
            is_Some (md_taint s' !! i_id i)) as Hall.
  2: { split; [intros ?; apply Hall; by left|]. intros i ? ? ?. apply Hall. by right. }
  intros i Hi. unfold taint_round in Hrun.
  eapply (for_each_at taint_marks_grow (λ t, is_Some (md_taint t !! i_id i)))
    in Hrun; [exact Hrun| | | |exact Hf].
  - intros y t t'. apply taint_round_body_marks_grow.
  - intros t t'. apply taint_marks_grow_keeps.
  - intros t t' (Hsink & _) Hbody. cbv beta in Hbody.
    rewrite Hsrc, HF in Hbody. simpl in Hbody.
    apply bind_Done in Hbody as ([r t1] & Hargs & Hbody). simplify_eq.
    destruct Hi as [[-> Hreach]|(Hwalk & Hns & Hreach)].
    + eapply taint_bcast_sink_args_marks_user in Hargs; [done|done|done|by rewrite Hsink].
    + eapply (taint_bcast_sink_args_marks fuel m (md_sink s) i) in Hargs;
        [done| |done|done|done|done].
      intros u t0 b t0' Ht0 Hu.
      exact (is_sink_reachable_marks fuel m (md_sink s) i Hns Hreach u t0 b t0' Ht0 Hu).
Qed.

(** The last round of the do-while: it starts with the [m_taint_funcs] the
    loop ends with. *)
Lemma taint_loop_last_round rounds fuel m s s' :
  taint_loop demangle rounds fuel m s = Done s' →
  ∃ s0, taint_marks_grow s s0
        ∧ taint_round demangle fuel m s0 = Done s'
        ∧ m_taint_funcs s0 = m_taint_funcs s'.
Proof.
  revert s. induction rounds as [|rounds IH]; intros s Hrun; [done|].
  simpl in Hrun. apply bind_Done in Hrun as (s1 & Hround & Hrun).
  case_bool_decide as Hlen.
  - destruct (IH s1 Hrun) as (s0 & Hs0 & Hlast & Hfuncs).
    exists s0. split; [|done]. etrans; [|done].
    apply (taint_round_steps m taint_marks_grow _) in Hround;
      [done|apply taint_marks_grow_mark|done|intros; apply taint_marks_grow_insert].
  - simplify_eq. exists s. split; [reflexivity|]. split; [done|].
    apply taint_round_grows in Hround as [Hpre _].
    apply prefix_length_eq; [done|]. lia.
Qed.

(** *** Walks without a cycle *)

Lemma for_each_or_not_NoFuel {A S} (P : S → Prop) (body : A → S → result (bool * S))
    l acc s :
  (∀ x t, x ∈ l → P t → body x t ≠ NoFuel) →
  (∀ x t b t', x ∈ l → P t → body x t = Done (b, t') → P t') →
  P s → for_each_or body l acc s ≠ NoFuel.
Proof.
  revert acc s.
  induction l as [|x l IH]; intros acc s Hfuel Hkeep HP; simpl; [done|].
  destruct (body x s) as [[b s1]| |] eqn:Hx; simpl; [|done|].
  - apply IH.
    + intros y t Hy. apply Hfuel. by right.
    + intros y t b' t' Hy. apply Hkeep. by right.
    + eapply Hkeep; [by left|done|done].
  - by destruct (Hfuel x s (list_elem_of_here _ _) HP).
Qed.

Lemma get_sink_fns_not_NoFuel m inst : get_sink_fns demangle m inst ≠ NoFuel.
Proof.
  unfold get_sink_fns. apply for_each_not_NoFuel.
  intros user ret. by repeat case_match.
Qed.

Lemma taint_bcast_sink_args_not_NoFuel fuel m sinks taint_source s :
  (∀ arg user t, arg ∈ taint_source → user ∈ users m arg → md_sink t = sinks →
                 is_sink_reachable demangle fuel m user t ≠ NoFuel) →
  md_sink s = sinks →
  taint_bcast_sink_args (is_sink_reachable demangle fuel m) m taint_source s ≠ NoFuel.
Proof.
  intros Hreach Hs. unfold taint_bcast_sink_args.
  apply (for_each_or_not_NoFuel (λ t, md_sink t = sinks)); [| |done].
  - intros arg t Harg Ht.
    apply (for_each_or_not_NoFuel (λ t, md_sink t = sinks)); [| |done].
    + intros user u Huser Hu. apply bind_not_NoFuel; [by eapply Hreach|].
      intros [[] ?]; done.
    + intros user u b u' Huser Hu Hbody.
      apply bind_Done in Hbody as ([r1 u1] & Hr1 & Hbody).
      apply is_sink_reachable_marks_grow in Hr1 as (Hsink & _).
      destruct r1; simplify_eq; simpl; congruence.
  - intros arg t b t' Harg Ht Hbody.
    apply (for_each_or_steps taint_marks_grow _) in Hbody as (Hsink & _); [simpl in *; congruence|].
    intros user u b' u' Hu.
    apply bind_Done in Hu as ([r1 u1] & Hr1 & Hu).
    apply is_sink_reachable_marks_grow in Hr1.
    destruct r1; simplify_eq; [|done]. etrans; [done|]. apply taint_marks_grow_mark.
Qed.

Lemma is_sink_reachable_bounded m sinks n inst s :
  walk_bounded m sinks n inst → md_sink s = sinks →
  is_sink_reachable demangle n m inst s ≠ NoFuel.
Proof.
  revert inst s.
  induction n as [|n IH]; intros inst s Hwalk Hs; [by inversion Hwalk|].
  inversion Hwalk as [n' inst' Hedges]; subst n' inst'.
  cbn [is_sink_reachable].
  case_bool_decide as Hsink.
  { apply bind_not_NoFuel; [apply get_sink_fns_not_NoFuel|done]. }
  assert (¬ is_Some (sinks !! i_id inst)) as Hns by (by rewrite <- Hs).
  specialize (Hedges Hns).
  assert ((∀ val ptr, i_kind inst ≠ Store val ptr) →
          ∀ bx sx, md_sink sx = sinks →
            for_each_or (is_sink_reachable demangle n m) (users m (VInst (i_id inst))) bx sx
            ≠ NoFuel) as Husers.
  { intros Hk bx sx Hsx.
    apply (for_each_or_not_NoFuel (λ t, md_sink t = sinks)); [| |done].
    - intros user t Hu Ht. apply IH; [|done]. apply Hedges. by apply edge_user.
    - intros user t b t' Hu Ht Hbody.
      apply is_sink_reachable_marks_grow in Hbody as (Hsink' & _). congruence. }
  destruct (i_kind inst) eqn:Hk.
  6: { (* Store *)
    destruct ptr; try done.
    apply bind_not_NoFuel; [|intros [[] ?]; done].
    apply (for_each_or_not_NoFuel (λ t, md_sink t = sinks)); [| |done].
    - intros user t Hu Ht. case_bool_decide; [done|].
      apply IH; [|done]. apply Hedges. by eapply edge_global.
    - intros user t b t' Hu Ht Hbody. case_bool_decide; [by simplify_eq|].
      apply is_sink_reachable_marks_grow in Hbody as (Hsink' & _). congruence. }
  6: { (* Call *)
    assert (∀ val ptr, Call callee args ≠ Store val ptr) as Hns' by done.
    specialize (Husers Hns').
    destruct (getCalledFunction m callee) as [f|] eqn:Hf.
    2: { simpl. apply bind_not_NoFuel; [by apply Husers|]. intros [[] ?]; done. }
    destruct (isDeclaration f) eqn:Hdecl; simpl.
    { apply bind_not_NoFuel; [by apply Husers|]. intros [[] ?]; by repeat case_match. }
    destruct (taint_bcast_sink_args _ m (args_of f) s) as [[r t]| |] eqn:Hargs; simpl; [|done|].
    2: { eapply taint_bcast_sink_args_not_NoFuel in Hargs; [done| |done].
         intros arg user u Harg Hu Hsu. apply IH; [|done].
         apply Hedges. by eapply edge_callee. }
    assert (md_sink t = sinks) as Ht.
    { apply (taint_bcast_sink_args_steps m taint_marks_grow _) in Hargs as (Hsink' & _);
        [simpl in *; congruence|apply taint_marks_grow_mark|].
      intros. by eapply is_sink_reachable_marks_grow. }
    destruct r; simpl.
    - apply bind_not_NoFuel; [by apply Husers|]. intros [[] ?]; by repeat case_match.
    - apply bind_not_NoFuel; [by apply Husers|]. intros [[] ?]; by repeat case_match. }
  all: simpl; apply bind_not_NoFuel; [by apply Husers|]; intros [[] ?]; done.
Qed.

(** *** Back edges: what the worklist loop collects *)

Lemma push_succs_spec (bb : N) (succs stack seen : list N) :
  let r := foldl (push_succ bb) (stack, seen) succs in
  (∀ x, x ∈ r.2 ↔ x ∈ seen ∨ (x ∈ succs ∧ x ≠ bb))
  ∧ (∀ x, x ∈ r.1 ↔ x ∈ stack ∨ (x ∈ r.2 ∧ x ∉ seen)).
Proof.
  revert stack seen.
  induction succs as [|succ succs IH]; intros stack seen; simpl.
  { split; intros x.
    - split; [by left|]. intros [?|[[]%elem_of_nil _]]; done.
    - split; [by left|]. intros [?|[? ?]]; done. }
  destruct (bool_decide (succ ≠ bb) && negb (bool_decide (succ ∈ seen))) eqn:Hpush.
  - apply andb_true_iff in Hpush as [Hne%bool_decide_eq_true Hnew].
    apply negb_true_iff, bool_decide_eq_false in Hnew.
    assert (setvector_insert succ seen = seen ++ [succ]) as ->.
    { unfold setvector_insert. by rewrite bool_decide_eq_false_2. }
    destruct (IH (succ :: stack) (seen ++ [succ])) as [H1 H2].
    split; intros x.
    + rewrite H1, elem_of_app, list_elem_of_singleton, elem_of_cons. split.
      * intros [[?| ->]|[? ?]]; [by left|right; split; [by left|done]|].
        right. split; [by right|done].
      * intros [?|[[->|?] ?]]; [by left; left|by left; right|by right].
    + rewrite H2, elem_of_cons, elem_of_app, list_elem_of_singleton.
      split.
      * intros [[->|?]|[Hx Hn]]; [|by left|].
        -- right. split; [|done]. apply H1. left. apply elem_of_app. right. by left.
        -- right. split; [done|]. intros ?. apply Hn. by left.
      * intros [?|[Hx Hn]]; [by left; right|].
        destruct (decide (x = succ)) as [->|Hxs]; [by left; left|].
        right. split; [done|]. by intros [?|?].
  - destruct (IH stack seen) as [H1 H2].
    split; intros x; [|apply H2].
    rewrite H1, elem_of_cons. split; [intros [?|[? ?]]; [by left|right; split; [by right|done]]|].
    intros [?|[[->|?] Hne]]; [by left| |by right].
    left. apply andb_false_iff in Hpush as [Hp|Hp].
    + by apply bool_decide_eq_false in Hp.
    + by apply negb_false_iff, bool_decide_eq_true in Hp.
Qed.

Lemma cfg_edge_off_end F bb a x : tc (cfg_edge_off F bb) a x → x ≠ bb.
Proof. induction 1 as [a x [_ ?]|]; done. Qed.

Lemma cfg_edge_off_tc F bb x :
  tc (cfg_edge_off F bb) bb x ↔ x ≠ bb ∧ tc (cfg_edge F) bb x.
Proof.
  split.
  - intros Hx. split; [by eapply cfg_edge_off_end|].
    induction Hx as [a x [? _]|a y x [? _] _ IH]; [by apply tc_once|by eapply tc_l].
  - intros [Hne Hx].
    assert (∀ a, tc (cfg_edge F) a x →
                 tc (cfg_edge_off F bb) a x ∨ tc (cfg_edge_off F bb) bb x) as Hcut.
    { clear Hx. intros a Ha.
      induction Ha as [a x He|a y x He Hy IH].
      - left. by apply tc_once.
      - destruct (IH Hne) as [Hoff|Hoff]; [|by right].
        destruct (decide (y = bb)) as [->|Hy']; [by right|].
        left. by eapply tc_l. }
    by destruct (Hcut bb Hx).
Qed.

Section loop.
Context (F : function) (bb : N).

Local Abbreviation T := (flat_map successors (f_blocks F)).
Local Abbreviation visited seen := (λ x : N, x = bb ∨ x ∈ (seen : list N)).

Lemma closed_under_edges (seen : list N) x :
  (∀ a b, visited seen a → cfg_edge_off F bb a b → b ∈ seen) →
  tc (cfg_edge_off F bb) bb x → x ∈ seen.
Proof.
  intros Hclosed Hx.
  assert (∀ a z, rtc (cfg_edge_off F bb) a z → visited seen a → visited seen z) as Hrtc.
  { clear x Hx. intros a z Haz.
    induction Haz as [|a b c Hab _ IHr]; [done|].
    intros Ha. apply IHr. right. exact (Hclosed a b Ha Hab). }
  destruct (Hrtc bb x (tc_rtc _ _ Hx)) as [->|?]; [by left| |done].
  by apply cfg_edge_off_end in Hx.
Qed.

Lemma remote_succs_loop_spec fuel stack seen :
  NoDup seen → seen ⊆ T →
  (length stack + length T ≤ fuel + length seen)%nat →
  (∀ x, x ∈ seen → tc (cfg_edge_off F bb) bb x) →
  (∀ x, x ∈ stack → visited seen x) →
  (∀ x y, visited seen x → x ∉ stack → cfg_edge_off F bb x y → y ∈ seen) →
  let l := remote_succs_loop fuel F bb stack seen in
  NoDup l ∧ ∀ x, x ∈ l ↔ tc (cfg_edge_off F bb) bb x.
Proof.
  revert stack seen.
  induction fuel as [|fuel IH]; intros stack seen Hnd Hsub Hlen Hsound Hstack Hclosed.
  all: assert (stack = [] → NoDup seen ∧ ∀ x, x ∈ seen ↔ tc (cfg_edge_off F bb) bb x) as Hend
         by (intros ->; split; [done|]; intros x; split; [apply Hsound|];
             apply closed_under_edges; intros a b Ha; apply Hclosed; [done|];
             by intros ?%elem_of_nil).
  - assert (length seen ≤ length T)%nat.
    { apply submseteq_length. by apply NoDup_submseteq. }
    destruct stack; [|simpl in Hlen; lia]. by apply Hend.
  - destruct stack as [|cur_succ stack]; [by apply Hend|]. clear Hend.
    cbn [remote_succs_loop].
    set (succs := default [] (successors <$> find_block F cur_succ)).
    assert (succs ⊆ T) as HsuccsT.
    { unfold succs. destruct (find_block F cur_succ) as [b|] eqn:Hb;
        [|by intros x Hx; apply elem_of_nil in Hx].
      simpl. intros x Hx. apply list_elem_of_In, in_flat_map.
      exists b. split; [|by apply list_elem_of_In].
      unfold find_block in Hb. by apply find_some in Hb as [? _]. }
    assert (∀ y, cfg_edge F cur_succ y ↔ y ∈ succs) as Hedge.
    { intros y. unfold succs, cfg_edge. destruct (find_block F cur_succ) as [b|]; simpl.
      - split; [by intros (? & [= <-] & ?)|]. intros ?. by exists b.
      - split; [by intros (? & ? & _)|]. by intros ?%elem_of_nil. }
    pose proof (push_succs_measure bb T succs stack seen Hnd Hsub HsuccsT) as Hm.
    pose proof (push_succs_spec bb succs stack seen) as Hs.
    destruct (foldl _ (stack, seen) succs) as [stack' seen'].
    destruct Hm as (H1 & H2 & H3). destruct Hs as [Hseen' Hstack'].
    simpl in *.
    assert (rtc (cfg_edge_off F bb) bb cur_succ) as Hcur.
    { destruct (Hstack cur_succ) as [->|?]; [by left|done|]. by apply tc_rtc, Hsound. }
    apply IH; [done|done|lia| | |].
    + intros x [?|[Hx Hne]]%Hseen'; [by apply Hsound|].
      eapply tc_rtc_l; [exact Hcur|]. apply tc_once. split; [by apply Hedge|done].
    + intros x [Hx|[Hx _]]%Hstack'; [|by right].
      destruct (Hstack x) as [?|?]; [by right|by left|].
      right. apply Hseen'. by left.
    + intros x y Hx Hnot [He Hne].
      apply Hseen'.
      assert (visited seen x) as Hx'.
      { destruct Hx as [?|Hx]; [by left|].
        destruct (decide (x ∈ seen)); [by right|].
        destruct Hnot. apply Hstack'. by right. }
      destruct (decide (x = cur_succ)) as [->|Hxc].
      * right. split; [by apply Hedge|done].
      * left. apply (Hclosed x y); [done| |done].
        intros [?|Hin]%elem_of_cons; [done|]. apply Hnot, Hstack'. by left.
Qed.

End loop.

(** The set [backedge_analysis] computes for a block. *)
Lemma remote_succs_reachable F bb :
  let l := remote_succs_loop (S (length (flat_map successors (f_blocks F)))) F bb [bb] [] in
  NoDup l ∧ ∀ x, x ∈ l ↔ x ≠ bb ∧ tc (cfg_edge F) bb x.
Proof.
  intros l.
  destruct (remote_succs_loop_spec F bb (S (length (flat_map successors (f_blocks F)))) [bb] [])
    as [Hnd Hl].
  - apply NoDup_nil_2.
  - by intros x Hx%elem_of_nil.
  - simpl. lia.
  - by intros x Hx%elem_of_nil.
  - intros x ->%list_elem_of_singleton. by left.
  - intros x y [->|Hx%elem_of_nil] Hnot; [|done]. destruct Hnot. by left.
  - split; [done|]. intros x. by rewrite <- cfg_edge_off_tc.
Qed.

Lemma backedge_fold_lookup F fuel bs s bb :
  m_backedges
    (foldl (λ s b,
              match m_backedges s !! b_id b with
              | Some _ => s
              | None =>
                set_backedges
                  (<[b_id b := remote_succs_loop fuel F (b_id b) [b_id b] []]> (m_backedges s)) s
              end) s bs) !! bb =
    match m_backedges s !! bb with
    | Some l => Some l
    | None =>
      if bool_decide (bb ∈ b_id <$> bs) then Some (remote_succs_loop fuel F bb [bb] [])
      else None
    end.
Proof.
  revert s.
  induction bs as [|b bs IH]; intros s; cbn [foldl].
  { by destruct (m_backedges s !! bb). }
  rewrite IH, fmap_cons. clear IH.
  destruct (m_backedges s !! b_id b) as [l0|] eqn:Hb.
  - destruct (m_backedges s !! bb) as [l|] eqn:Hbb; [done|].
    assert (bb ≠ b_id b) by congruence.
    destruct (bool_decide (bb ∈ b_id <$> bs)) eqn:Hin.
    + rewrite bool_decide_eq_true_2; [done|]. right. by apply bool_decide_eq_true in Hin.
    + rewrite bool_decide_eq_false_2; [done|].
      apply bool_decide_eq_false in Hin. by intros [?|?]%elem_of_cons.
  - simpl. destruct (decide (bb = b_id b)) as [->|Hne].
    + rewrite lookup_insert_eq, Hb. rewrite bool_decide_eq_true_2; [done|]. by left.
    + rewrite lookup_insert_ne by done.
      destruct (m_backedges s !! bb) as [l|] eqn:Hbb; [done|].
      destruct (bool_decide (bb ∈ b_id <$> bs)) eqn:Hin.
      * rewrite bool_decide_eq_true_2; [done|]. right. by apply bool_decide_eq_true in Hin.
      * rewrite bool_decide_eq_false_2; [done|].
        apply bool_decide_eq_false in Hin. by intros [?|?]%elem_of_cons.
Qed.

Lemma backedge_analysis_lookup F s bb :
  m_backedges (backedge_analysis F s) !! bb =
    match m_backedges s !! bb with
    | Some l => Some l
    | None =>
      if bool_decide (bb ∈ b_id <$> f_blocks F)
      then Some (remote_succs_loop (S (length (flat_map successors (f_blocks F)))) F bb [bb] [])
      else None
    end.
Proof. apply backedge_fold_lookup. Qed.

(** *** What [get_taint_source] does to the uses of the arguments *)

Lemma elem_of_all_instructions m i :
  i ∈ all_instructions m ↔ ∃ F b, F ∈ m_funcs m ∧ b ∈ f_blocks F ∧ i ∈ b_insts b.
Proof.
  unfold all_instructions, instructions.
  rewrite list_elem_of_In, in_flat_map. split.
  - intros (F & HF & Hi). apply in_flat_map in Hi as (b & Hb & Hi).
    exists F, b. by rewrite !list_elem_of_In.
  - intros (F & b & HF & Hb & Hi). exists F. rewrite <- list_elem_of_In. split; [done|].
    apply in_flat_map. exists b. by rewrite <- !list_elem_of_In.
Qed.

Lemma elem_of_uses m v F i :
  (F, i) ∈ uses m v ↔ F ∈ m_funcs m ∧ i ∈ instructions F ∧ v ∈ operands (i_kind i).
Proof.
  unfold uses. rewrite list_elem_of_bind. split.
  - intros (F' & Hu & HF). apply list_elem_of_bind in Hu as (i' & Hu & Hi).
    apply list_elem_of_bind in Hu as (o & Hu & Ho).
    apply list_elem_of_singleton in Hu. simplify_eq.
    apply list_elem_of_filter in Ho as [-> Ho]. done.
  - intros (HF & Hi & Hv). exists F. split; [|done].
    apply list_elem_of_bind. exists i. split; [|done].
    apply list_elem_of_bind. exists v. split; [by left|].
    by apply list_elem_of_filter.
Qed.

Lemma use_empty_used m v : use_empty m v = false ↔ used m v.
Proof.
  unfold use_empty, used. split.
  - destruct (uses m v) as [|[F i] l] eqn:Hu; [done|]. intros _.
    assert ((F, i) ∈ uses m v) as (HF & Hi & Hv)%elem_of_uses by (rewrite Hu; left).
    exists i. split; [|done].
    apply list_elem_of_In, in_flat_map. exists F. by rewrite <- !list_elem_of_In.
  - intros (i & Hi & Hv).
    apply list_elem_of_In, in_flat_map in Hi as (F & HF & Hi).
    rewrite <- !list_elem_of_In in *.
    assert ((F, i) ∈ uses m v) as Hu by (by apply elem_of_uses).
    destruct (uses m v); [by apply elem_of_nil in Hu|done].
Qed.

Lemma use_empty_not_used m v : use_empty m v = true ↔ ¬ used m v.
Proof.
  rewrite <- use_empty_used. by destruct (use_empty m v).
Qed.

Lemma operands_subst_kind old new k :
  operands (subst_kind old new k) = subst_value old new <$> operands k.
Proof.
  destruct k; simpl; try done.
  - rewrite <- !list_fmap_compose. by apply list_fmap_ext.
  - by rewrite fmap_app.
  - by destruct v.
Qed.

Lemma all_instructions_getOrInsertFunction m name t i :
  i ∈ all_instructions (getOrInsertFunction m name t) ↔ i ∈ all_instructions m.
Proof.
  unfold getOrInsertFunction. destruct (find_func m name); [done|].
  rewrite !elem_of_all_instructions. simpl. split.
  - intros (F & b & [HF|HF%list_elem_of_singleton]%elem_of_app & Hb & Hi).
    + by exists F, b.
    + subst F. by apply elem_of_nil in Hb.
  - intros (F & b & HF & Hb & Hi). exists F, b. split; [|done]. apply elem_of_app. by left.
Qed.

Lemma elem_of_insert_behind_phis new l i :
  i ∈ insert_behind_phis new l ↔ i = new ∨ i ∈ l.
Proof.
  induction l as [|x l IH]; simpl.
  - rewrite list_elem_of_singleton. split; [by left|]. by intros [?|?%elem_of_nil].
  - destruct (isPhi x); rewrite !elem_of_cons; [rewrite IH|done].
    split; [intros [?|[?|?]]|intros [?|[?|?]]]; auto.
Qed.

Lemma all_instructions_insert_in_entry fname new m i :
  (i ∈ all_instructions (insert_in_entry fname new m) → i = new ∨ i ∈ all_instructions m)
  ∧ (i ∈ all_instructions m → i ∈ all_instructions (insert_in_entry fname new m)).
Proof.
  rewrite !elem_of_all_instructions. unfold insert_in_entry. simpl. split.
  - intros (F' & b & (F & -> & HF)%list_elem_of_fmap & Hb & Hi).
    case_bool_decide; [|right; by exists F, b].
    destruct (f_blocks F) as [|entry bs] eqn:Hbs; [right; by exists F, b|].
    simpl in Hb. apply elem_of_cons in Hb as [->|Hb].
    + simpl in Hi. apply elem_of_insert_behind_phis in Hi as [?|Hi]; [by left|].
      right. exists F, entry. rewrite Hbs. split_and!; [done|by left|done].
    + right. exists F, b. rewrite Hbs. split_and!; [done|by right|done].
  - intros (F & b & HF & Hb & Hi).
    destruct (decide (f_name F = fname)) as [Hn|Hn].
    2: { eexists _, b. split; [apply list_elem_of_fmap; by exists F|].
         by rewrite bool_decide_eq_false_2. }
    destruct (f_blocks F) as [|entry bs] eqn:Hbs; [by apply elem_of_nil in Hb|].
    apply elem_of_cons in Hb as [->|Hb].
    + eexists _, (MkBlock (b_id entry) (insert_behind_phis new (b_insts entry))).
      split; [apply list_elem_of_fmap; by exists F|].
      rewrite bool_decide_eq_true_2, Hbs by done. simpl. split; [by left|].
      apply elem_of_insert_behind_phis. by right.
    + eexists _, b. split; [apply list_elem_of_fmap; by exists F|].
      rewrite bool_decide_eq_true_2, Hbs by done. simpl. split; [by right|done].
Qed.

Lemma all_instructions_map_instructions g m i :
  i ∈ all_instructions (map_instructions g m) ↔ ∃ i0, i = g i0 ∧ i0 ∈ all_instructions m.
Proof.
  rewrite elem_of_all_instructions. unfold map_instructions. simpl. split.
  - intros (F' & b' & (F & -> & HF)%list_elem_of_fmap & Hb & Hi). simpl in Hb.
    apply list_elem_of_fmap in Hb as (b & -> & Hb). simpl in Hi.
    apply list_elem_of_fmap in Hi as (i0 & -> & Hi).
    exists i0. split; [done|]. apply elem_of_all_instructions. by exists F, b.
  - intros (i0 & -> & (F & b & HF & Hb & Hi)%elem_of_all_instructions).
    eexists _, _. split; [apply list_elem_of_fmap; by exists F|]. simpl.
    split; [apply list_elem_of_fmap; by exists b|]. simpl.
    apply list_elem_of_fmap. by exists i0.
Qed.

(** After [old->replaceAllUsesWith(new)] nothing uses [old], and what is
    neither [old] nor [new] is used as before. *)
Lemma used_replaceAllUsesWith old new m v :
  used (replaceAllUsesWith old new m) v ↔
    ∃ i o, i ∈ all_instructions m ∧ o ∈ operands (i_kind i) ∧ v = subst_value old new o.
Proof.
  unfold used, replaceAllUsesWith. split.
  - intros (i & (i0 & -> & Hi0)%all_instructions_map_instructions & Hv). simpl in Hv.
    rewrite operands_subst_kind in Hv. apply list_elem_of_fmap in Hv as (o & -> & Ho).
    by exists i0, o.
  - intros (i & o & Hi & Ho & ->). eexists. split.
    + apply all_instructions_map_instructions. by exists i.
    + simpl. rewrite operands_subst_kind. apply list_elem_of_fmap. by exists o.
Qed.

Lemma used_replaceAllUsesWith_old old new m : old ≠ new → ¬ used (replaceAllUsesWith old new m) old.
Proof.
  intros Hne (i & o & _ & _ & Ho)%used_replaceAllUsesWith.
  unfold subst_value in Ho. case_bool_decide; congruence.
Qed.

Lemma used_replaceAllUsesWith_other old new m v :
  v ≠ old → v ≠ new → used (replaceAllUsesWith old new m) v ↔ used m v.
Proof.
  intros Hold Hnew. rewrite used_replaceAllUsesWith. unfold used, subst_value. split.
  - intros (i & o & Hi & Ho & ->). case_bool_decide; [done|]. by exists i.
  - intros (i & Hi & Hv). exists i, v. split_and!; [done|done|].
    by rewrite bool_decide_eq_false_2.
Qed.

(** One step of the loop over the arguments, for an argument value [v]. *)
Lemma source_arg_used name ret m no t F' k r :
  r = source_arg name (ret, m) (no, t) →
  (used r.2 (VArg F' k) →  used m (VArg F' k))
  ∧ (((F', k) = (name, no) → isIntegerTy t = false) →
     used m (VArg F' k) → used r.2 (VArg F' k))
  ∧ (isIntegerTy t = true → ¬ used r.2 (VArg name no)).
Proof.
  intros ->. simpl. destruct t; try by (split_and!; [done|done|by intros [=]]).
  destruct (use_empty m (VArg name no)) eqn:Huse.
  { split_and!; [done|done|]. intros _. by apply use_empty_not_used. }
  cbn [snd].
  set (call_name := name +:+ ".mkint.arg" +:+ pretty no).
  set (m1 := getOrInsertFunction m call_name (TInt bits)).
  set (call_inst := MkInstruction (fresh_inst_id m1) (TInt bits) (Call (VFunc call_name) [])).
  assert (∀ i, i ∈ all_instructions (insert_in_entry name call_inst m1) →
                 VArg F' k ∈ operands (i_kind i) → used m (VArg F' k)) as Hback.
  { intros i [->|Hi]%all_instructions_insert_in_entry Hv.
    - simpl in Hv. apply list_elem_of_singleton in Hv. done.
    - exists i. split; [|done]. by apply all_instructions_getOrInsertFunction in Hi. }
  split_and!.
  - intros (i & o & Hi & Ho & Hv)%used_replaceAllUsesWith.
    unfold subst_value in Hv. case_bool_decide; [done|]. subst o. by eapply Hback.
  - intros Hne (i & Hi & Hv).
    apply used_replaceAllUsesWith_other; [intros [= -> ->]; by discriminate Hne|done|].
    exists i. split; [|done].
    by apply all_instructions_insert_in_entry, all_instructions_getOrInsertFunction.
  - intros _. by apply used_replaceAllUsesWith_old.
Qed.

Lemma source_args_used name l ret m F' k :
  let r := foldl (source_arg name) (ret, m) l in
  (used r.2 (VArg F' k) → used m (VArg F' k))
  ∧ ((∀ t, (k, t) ∈ l → F' = name → isIntegerTy t = false) →
     used m (VArg F' k) → used r.2 (VArg F' k))
  ∧ (∀ t, F' = name → (k, t) ∈ l → isIntegerTy t = true → ¬ used r.2 (VArg F' k)).
Proof.
  set (f := source_arg name).
  revert ret m.
  induction l as [|[no t] l IH]; intros ret m; cbn [foldl].
  { split_and!; [done|done|]. by intros t _ ?%elem_of_nil. }
  pose proof (source_arg_used name ret m no t F' k (f (ret, m) (no, t)) eq_refl)
    as (H1 & H2 & H3).
  destruct (f (ret, m) (no, t)) as [ret1 m1].
  destruct (IH ret1 m1) as (I1 & I2 & I3). simpl in *.
  split_and!.
  - intros Hu. by apply H1, I1.
  - intros Hl Hu. apply I2.
    + intros t' Ht'. apply (Hl t'). by right.
    + apply H2; [|done]. intros [= -> ->]. apply (Hl t); [by left|done].
  - intros t' -> [[= -> ->]|Hin]%elem_of_cons Hint.
    + intros Hu. by apply H3, I1.
    + by eapply I3.
Qed.


Lemma use_empty_iff m m' v v' :
  (used m v ↔ used m' v') → use_empty m v = use_empty m' v'.
Proof.
  rewrite <- !use_empty_used.
  destruct (use_empty m v), (use_empty m' v'); intros [H1 H2]; auto.
  symmetry. auto.
Qed.

Local Abbreviation arg_call name :=
  (λ p : nat * ty, Call (VFunc (name +:+ ".mkint.arg" +:+ pretty p.1)) []).

Local Abbreviation used_int_arg m name :=
  (λ p : nat * ty, isIntegerTy p.2 = true ∧ use_empty m (VArg name p.1) = false).

Lemma filter_used_int_arg_ext name m m' (l : list (nat * ty)) :
  (∀ no t, (no, t) ∈ l → use_empty m' (VArg name no) = use_empty m (VArg name no)) →
  filter (used_int_arg m' name) l = filter (used_int_arg m name) l.
Proof.
  induction l as [|[no t] l IH]; intros Hl; [done|].
  assert (use_empty m' (VArg name no) = use_empty m (VArg name no)) as Hh
    by (apply (Hl no t); left).
  rewrite !filter_cons. simpl. rewrite Hh.
  rewrite IH; [done|]. intros no' t' Hin. apply (Hl no' t'). by right.
Qed.

(** The calls the loop over the arguments returns. *)
Lemma source_args_calls name l ret m :
  NoDup l.*1 →
  i_kind <$> (foldl (source_arg name) (ret, m) l).1
  = (i_kind <$> ret) ++ (arg_call name <$> filter (used_int_arg m name) l).
Proof.
  set (f := source_arg name).
  revert ret m.
  induction l as [|[no t] l IH]; intros ret m Hnd; cbn [foldl].
  { simpl. by rewrite app_nil_r. }
  rewrite fmap_cons in Hnd. apply NoDup_cons in Hnd as [Hno Hnd].
  assert (filter (used_int_arg (f (ret, m) (no, t)).2 name) l = filter (used_int_arg m name) l)
    as Hfilter.
  { apply filter_used_int_arg_ext. intros no' t' Hin. apply use_empty_iff.
    destruct (source_arg_used name ret m no t name no' (f (ret, m) (no, t)) eq_refl)
      as (H1 & H2 & _).
    split; [done|]. apply H2. intros [= ->]. destruct Hno.
    apply list_elem_of_fmap. by exists (no, t'). }
  assert (i_kind <$> (f (ret, m) (no, t)).1
          = (i_kind <$> ret) ++ (arg_call name <$> filter (used_int_arg m name) [(no, t)]))
    as Hhead.
  { unfold f. rewrite filter_cons, filter_nil.
    destruct (decide _) as [[Hint Hu]|Hnot]; cbn [fst snd] in *.
    - destruct t; try discriminate. rewrite Hu. cbn [fst]. by rewrite fmap_app.
    - rewrite fmap_nil, app_nil_r. destruct t; try done.
      destruct (use_empty m (VArg name no)) eqn:Hu; [done|]. by destruct Hnot. }
  destruct (f (ret, m) (no, t)) as [ret1 m1]. simpl in Hfilter, Hhead.
  rewrite IH, Hfilter, Hhead by done.
  rewrite <- app_assoc, <- fmap_app. f_equal. f_equal.
  rewrite (filter_cons _ (no, t) l), filter_cons, filter_nil.
  by destruct (decide _).
Qed.

Lemma imap_pair_lookup {A} (l : list A) no t : (no, t) ∈ imap pair l ↔ l !! no = Some t.
Proof.
  rewrite elem_of_lookup_imap. split; [by intros (i & y & [= -> ->] & ?)|].
  intros ?. by exists no, t.
Qed.

Lemma imap_pair_NoDup {A} (l : list A) : NoDup (imap pair l).*1.
Proof.
  rewrite fmap_imap. 
  rewrite (imap_ext _ (λ n _, n) l) by done.
  rewrite imap_seq_0. rewrite list_fmap_id. apply NoDup_seq.
Qed.

(** *** Calls whose callee is no function *)

(** The function at position [p] holds an indirect call. *)
Local Abbreviation indirect_at m p :=
  (∃ F, m_funcs m !! p = Some F ∧ has_indirect_call F).

Lemma elem_of_instructions F i :
  i ∈ instructions F ↔ ∃ b, b ∈ f_blocks F ∧ i ∈ b_insts b.
Proof.
  unfold instructions. rewrite list_elem_of_In, in_flat_map.
  split; intros (b & Hb & Hi); exists b; by rewrite ?list_elem_of_In in *.
Qed.

Lemma indirect_at_getOrInsertFunction m name t p :
  indirect_at m p → indirect_at (getOrInsertFunction m name t) p.
Proof.
  intros (F & HF & Hind). unfold getOrInsertFunction.
  destruct (find_func m name); [by exists F|].
  exists F. split; [|done]. simpl. by apply lookup_app_l_Some.
Qed.

Lemma indirect_at_insert_in_entry fname new m p :
  indirect_at m p → indirect_at (insert_in_entry fname new m) p.
Proof.
  intros (F & HF & inst & Hi & Hind). unfold insert_in_entry. simpl.
  rewrite list_lookup_fmap, HF. simpl. eexists. split; [done|].
  exists inst. split; [|done].
  case_bool_decide; [|done].
  destruct (f_blocks F) as [|entry bs] eqn:Hbs; [done|].
  apply elem_of_instructions in Hi as (b & Hb & Hi). rewrite Hbs in Hb.
  apply elem_of_instructions. simpl.
  apply elem_of_cons in Hb as [->|Hb].
  - eexists. split; [by left|]. simpl. apply elem_of_insert_behind_phis. by right.
  - exists b. split; [by right|done].
Qed.

Lemma indirect_at_replaceAllUsesWith old id m p :
  indirect_at m p → indirect_at (replaceAllUsesWith old (VInst id) m) p.
Proof.
  intros (F & HF & inst & Hi & callee & args & Hk & Hind).
  unfold replaceAllUsesWith, map_instructions. simpl.
  rewrite list_lookup_fmap, HF. simpl. eexists. split; [done|].
  apply elem_of_instructions in Hi as (b & Hb & Hi).
  eexists. split.
  - apply elem_of_instructions. simpl. eexists. split.
    + apply list_elem_of_fmap. by exists b.
    + simpl. apply list_elem_of_fmap. by exists inst.
  - eexists _, _. simpl. rewrite Hk. simpl. split; [done|].
    intros f. unfold subst_value. case_bool_decide; [done|apply Hind].
Qed.

Lemma indirect_at_source_args name l ret m p :
  indirect_at m p → indirect_at (foldl (source_arg name) (ret, m) l).2 p.
Proof.
  set (f := source_arg name).
  revert ret m.
  induction l as [|[no t] l IH]; intros ret m Hind; cbn [foldl]; [done|].
  assert (indirect_at (f (ret, m) (no, t)).2 p) as Hstep.
  { unfold f. destruct t; try done.
    destruct (use_empty m (VArg name no)); [done|]. cbn [snd].
    by apply indirect_at_replaceAllUsesWith, indirect_at_insert_in_entry,
      indirect_at_getOrInsertFunction. }
  destruct (f (ret, m) (no, t)) as [ret1 m1]. by apply IH.
Qed.

Lemma indirect_at_get_taint_source F m p :
  indirect_at m p → indirect_at (get_taint_source demangle F m).2 p.
Proof.
  intros Hind. unfold get_taint_source.
  destruct (is_taint_src demangle (f_name F)); [|done].
  by apply indirect_at_source_args.
Qed.

Lemma for_each_Aborted {A S} (body : A → S → result S) l s x :
  (∀ y t, body y t ≠ NoFuel) → (∀ t, body x t = Aborted) → x ∈ l →
  for_each body l s = Aborted.
Proof.
  intros Hfuel Hx. revert s.
  induction l as [|y l IH]; intros s Hin; [by apply elem_of_nil in Hin|].
  simpl. apply elem_of_cons in Hin as [<-|Hin].
  - by rewrite Hx.
  - destruct (body y s) as [s1| |] eqn:Hy; simpl; [by apply IH|done|by destruct (Hfuel y s)].
Qed.

(** [mark_func_sinks] reads the name of the callee of every call. *)
Lemma mark_func_sinks_indirect m F s :
  has_indirect_call F → mark_func_sinks demangle m F s = Aborted.
Proof.
  intros (inst & Hi & callee & args & Hk & Hind).
  unfold mark_func_sinks, mark_sink_args.
  rewrite (for_each_Aborted _ _ _ inst); [done| | |done].
  - intros y t. case_match; try done. apply mark_call_sinks_not_NoFuel.
  - intros t. rewrite Hk. simpl.
    destruct callee; try done. by destruct (Hind f).
Qed.

Lemma mark_sources_indirect fuel pos m s p :
  (pos ≤ p)%nat → indirect_at m p →
  ∀ r, mark_sources demangle fuel pos m s ≠ Done r.
Proof.
  revert pos m s.
  induction fuel as [|fuel IH]; intros pos m s Hle Hind r; [done|].
  cbn [mark_sources].
  destruct (m_funcs m !! pos) as [F|] eqn:HF.
  2: { destruct Hind as (F' & HF' & _).
       apply lookup_ge_None in HF. apply lookup_lt_Some in HF'. lia. }
  pose proof (indirect_at_get_taint_source F m p Hind) as Hind1.
  destruct (get_taint_source demangle F m) as [taint_sources m1]. simpl in Hind1.
  destruct (decide (p = pos)) as [->|Hne].
  - destruct Hind1 as (F1 & HF1 & Hcall). rewrite HF1. simpl.
    by rewrite mark_func_sinks_indirect.
  - intros Hrun. apply bind_Done in Hrun as (s1 & _ & Hrun).
    eapply (IH (S pos)); [|exact Hind1|exact Hrun]. lia.
Qed.

(** *** Steps of the range phase *)

Section range_steps.

(** [ok] holds of the functions whose return range a step may write. *)
Context (R : relation state) (R_pre : PreOrder R) (ok : string → Prop).
Hypothesis R_range_info : ∀ x s, R s (set_func2range_info x s).
Hypothesis R_ret_range :
  ∀ fn x s, ok fn → R s (set_func2ret_range (<[fn := x]> (m_func2ret_range s)) s).
Hypothesis R_global : ∀ x s, R s (set_global2range x s).
Hypothesis R_branch :
  ∀ c b s, R s (set_impossible_branches (<[c := b]> (m_impossible_branches s)) s).
Hypothesis R_oob : ∀ g s, R s (set_gep_oob ({[g]} ∪ m_gep_oob s) s).

Lemma set_rng_at_steps F bb x s : R s (set_rng_at F bb x s).
Proof using R_range_info. apply R_range_info. Qed.

Lemma set_rng_steps F bb v r s : R s (set_rng F bb v r s).
Proof using R_range_info. apply R_range_info. Qed.

Lemma merge_cond_br_steps m F bb pred br_true cmp p lhs rhs s s' :
  merge_cond_br cr m F bb pred br_true cmp p lhs rhs s = Done s' → R s s'.
Proof using R_pre R_range_info R_branch.
  unfold merge_cond_br. intros Hrun.
  case_match; [done|]. inv_result.
  case_match; simplify_eq.
  - etrans; [|apply (R_branch _ _ (set_rng_at _ _ _ s))]. apply set_rng_at_steps.
  - apply set_rng_at_steps.
Qed.

Lemma merge_switch_steps m F bb cond d cases s s' :
  merge_switch cr m F bb cond d cases s = Done s' → R s s'.
Proof using R_range_info.
  unfold merge_switch. intros Hrun. inv_result. apply set_rng_steps.
Qed.

Lemma merge_rest_steps F bb pred narrowed s : R s (merge_rest cr F bb pred narrowed s).
Proof using R_range_info. apply set_rng_at_steps. Qed.

Lemma merge_pred_steps m F bb pred s s' :
  merge_pred cr m F bb pred s = Done s' → R s s'.
Proof using R_pre R_range_info R_branch.
  unfold merge_pred. intros Hrun.
  repeat case_match; inv_result; try reflexivity; try apply merge_rest_steps.
  - etrans; [by eapply merge_cond_br_steps|apply merge_rest_steps].
  - etrans; [by eapply merge_switch_steps|apply merge_rest_steps].
Qed.

Lemma load_range_steps m F bb inst addr new_range s r s' :
  load_range m F bb inst addr new_range s = Done (r, s') → R s s'.
Proof using R_pre R_oob.
  unfold load_range. intros Hrun.
  repeat case_match; inv_result; try reflexivity.
  repeat case_match; simplify_eq; [apply R_oob|reflexivity].
Qed.

Lemma visit_inst_steps m F bb inst s s' :
  ok (f_name F) → visit_inst cr m F bb inst s = Done s' → R s s'.
Proof using R_pre R_range_info R_ret_range R_global R_oob.
  unfold visit_inst. intros Hok Hrun.
  destruct (i_kind inst) eqn:Hk.
  7: { (* Call *)
    destruct (getCalledFunction m callee) as [f|]; [|simplify_eq; reflexivity].
    apply bind_Done in Hrun as (s1 & Hargs & Hrun).
    apply (for_each_steps R _) in Hargs.
    - etrans; [done|]. case_match; simplify_eq; [apply set_rng_steps|reflexivity].
    - intros [no t] u u' Hbody. repeat case_match; inv_result;
        first [apply set_rng_steps|apply set_rng_at_steps]. }
  6: { (* Store *)
    inv_result. etrans; [|apply set_rng_steps].
    case_match; try reflexivity. apply R_global. }
  11: { (* Ret *)
    repeat case_match; inv_result; try reflexivity. by apply R_ret_range. }
  all: case_match; [simplify_eq; reflexivity|].
  all: apply bind_Done in Hrun as ([new_range s1] & Hnew & Hrun); simplify_eq.
  all: etrans; [|apply set_rng_steps].
  5: { by eapply load_range_steps. }
  all: inv_result; try reflexivity.
  all: repeat case_match; inv_result; reflexivity.
Qed.

Lemma analyse_block_steps m F bb s s' :
  ok (f_name F) → analyse_block cr m F bb s = Done s' → R s s'.
Proof using R_pre R_range_info R_ret_range R_global R_branch R_oob.
  unfold analyse_block. intros Hok Hbody.
  apply bind_Done in Hbody as (t1 & Hmerge & Hvisit).
  etrans; [apply set_rng_at_steps|].
  etrans.
  - eapply (for_each_steps R _); [|exact Hmerge]. intros ? ? ?. apply merge_pred_steps.
  - eapply (for_each_steps R _); [|exact Hvisit]. intros ? ? ?. by apply visit_inst_steps.
Qed.

Lemma range_analysis_steps m F s s' :
  ok (f_name F) → range_analysis cr m F s = Done s' → R s s'.
Proof using R_pre R_range_info R_ret_range R_global R_branch R_oob.
  intros Hok. unfold range_analysis. apply (for_each_steps R _).
  intros bb t t'. by apply analyse_block_steps.
Qed.

Hypothesis ok_all : ∀ fn, ok fn.

Lemma range_round_steps m s s' :
  range_round cr m s = Done s' → R s s'.
Proof using R_pre R_range_info R_ret_range R_global R_branch R_oob ok_all.
  unfold range_round. apply (for_each_steps R _).
  intros F t t' Hbody. case_match; [by eapply range_analysis_steps|simplify_eq; reflexivity].
Qed.

Lemma range_loop_steps fuel m try_count passes s r :
  range_loop cr fuel m try_count passes s = Done r → R s r.2.
Proof using R_pre R_range_info R_ret_range R_global R_branch R_oob ok_all.
  revert try_count passes s.
  induction fuel as [|fuel IH]; intros t p s Hrun; [done|].
  simpl in Hrun. apply bind_Done in Hrun as (s1 & Hround & Hrun).
  apply range_round_steps in Hround.
  case_match; [by simplify_eq|].
  case_match; [by simplify_eq|].
  etrans; [done|]. by eapply IH.
Qed.

End range_steps.

(** *** The range phase leaves the taint phase alone *)

#[local] Instance same_taint_preorder : PreOrder same_taint.
Proof.
  split.
  - intros s. by split_and!.
  - intros s1 s2 s3 (?&?&?&?&?) (?&?&?&?&?). split_and!; congruence.
Qed.

Lemma foldl_same_taint {A} (g : state → A → state) l s :
  (∀ s x, same_taint s (g s x)) → same_taint s (foldl g s l).
Proof.
  intros Hg. revert s. induction l as [|x l IH]; intros s; simpl; [reflexivity|].
  etrans; [apply Hg|apply IH].
Qed.

Lemma backedge_analysis_same_taint F s : same_taint s (backedge_analysis F s).
Proof.
  unfold backedge_analysis. apply foldl_same_taint.
  intros t bb. by case_match.
Qed.

Lemma init_ranges_same_taint m s s' :
  init_ranges demangle m s = Done s' → same_taint s s'.
Proof.
  unfold init_ranges. intros Hrun.
  apply bind_Done in Hrun as (s1 & Hfuncs & Hglobals).
  etrans.
  - eapply (for_each_steps same_taint _); [|exact Hfuncs].
    intros F t t' Hbody. unfold init_function in Hbody.
    repeat case_match; simplify_eq; by split_and!.
  - eapply (for_each_steps same_taint _); [|exact Hglobals].
    intros GV t t' Hbody. unfold init_global, push_back_ranges in Hbody.
    repeat case_match; inv_result; split_and!; try done; repeat case_match; done.
Qed.

Lemma range_setup_same_taint m s s' :
  range_setup demangle m s = Done s' → same_taint s s'.
Proof.
  unfold range_setup. intros Hrun.
  apply init_ranges_same_taint in Hrun.
  etrans; [|exact Hrun].
  apply foldl_same_taint. intros t F. case_match; [reflexivity|].
  apply backedge_analysis_same_taint.
Qed.

Lemma mark_errors_same_taint s : same_taint s (mark_errors s).
Proof. rewrite (mark_errors_only_err s). by split_and!. Qed.

(** *** No finding is withdrawn *)

#[local] Instance findings_grow_preorder : PreOrder findings_grow.
Proof.
  split.
  - intros s. by split.
  - intros s1 s2 s3 [H1 H2] [H3 H4]. split; [auto|by etrans].
Qed.

Lemma findings_grow_branch c b s :
  findings_grow s (set_impossible_branches (<[c := b]> (m_impossible_branches s)) s).
Proof.
  split; [|done]. intros c' Hc'. simpl.
  apply lookup_insert_is_Some. destruct (decide (c = c')); auto.
Qed.

Lemma findings_grow_oob g s : findings_grow s (set_gep_oob ({[g]} ∪ m_gep_oob s) s).
Proof. split; [done|]. simpl. apply union_subseteq_r. Qed.

(** *** Globals that cannot be seeded *)

Lemma source_args_globals name l ret m :
  m_globals (foldl (source_arg name) (ret, m) l).2 = m_globals m.
Proof.
  set (f := source_arg name).
  revert ret m.
  induction l as [|[no t] l IH]; intros ret m; cbn [foldl]; [done|].
  assert (m_globals (f (ret, m) (no, t)).2 = m_globals m) as Hstep.
  { unfold f. destruct t; try done.
    destruct (use_empty m (VArg name no)); [done|]. cbn [snd]. simpl.
    unfold getOrInsertFunction. by destruct (find_func m _). }
  destruct (f (ret, m) (no, t)) as [ret1 m1]. rewrite IH. exact Hstep.
Qed.

Lemma get_taint_source_globals F m :
  m_globals (get_taint_source demangle F m).2 = m_globals m.
Proof.
  unfold get_taint_source. destruct (is_taint_src demangle (f_name F)); [|done].
  apply source_args_globals.
Qed.

Lemma mark_sources_globals fuel pos m s m' s' :
  mark_sources demangle fuel pos m s = Done (m', s') → m_globals m' = m_globals m.
Proof.
  revert pos m s.
  induction fuel as [|fuel IH]; intros pos m s Hrun; [done|].
  cbn [mark_sources] in Hrun.
  destruct (m_funcs m !! pos) as [F|]; [|by simplify_eq].
  pose proof (get_taint_source_globals F m) as Hg.
  destruct (get_taint_source demangle F m) as [taint_sources m1].
  apply bind_Done in Hrun as (s1 & _ & Hrun).
  apply IH in Hrun. by rewrite Hrun.
Qed.

Lemma taint_analysis_globals fuel m m' s' :
  taint_analysis demangle fuel m = Done (m', s') → m_globals m' = m_globals m.
Proof.
  unfold taint_analysis. intros Hrun.
  apply bind_Done in Hrun as ([m1 s1] & Hwalk & Hrun).
  apply bind_Done in Hrun as (s2 & _ & Hrun).
  apply bind_Done in Hrun as (s3 & _ & Hrun). simplify_eq.
  by eapply mark_sources_globals.
Qed.

Lemma init_function_Done F s : ∃ s', init_function demangle F s = Done s'.
Proof. unfold init_function. repeat case_match; eauto. Qed.

Lemma init_functions_Done l s : ∃ s', for_each (init_function demangle) l s = Done s'.
Proof.
  revert s. induction l as [|F l IH]; intros s; simpl; [eauto|].
  destruct (init_function_Done F s) as [s1 ->]. simpl. apply IH.
Qed.

Lemma data_array_None elts acc :
  None ∈ elts →
  for_each (λ e (new : list crange),
      match e with
      | Some (bits, init_val) => Done (new ++ [ConstantRange.ofAPInt bits init_val])
      | None => Aborted
      end) elts acc = Aborted.
Proof.
  intros Hin. apply (for_each_Aborted _ _ _ None); [|done|done].
  intros [[bits v]|] t; done.
Qed.

Lemma init_global_not_NoFuel GV s : init_global GV s ≠ NoFuel.
Proof.
  unfold init_global. repeat case_match; try done.
  apply bind_not_NoFuel; [|done].
  apply for_each_not_NoFuel. intros [[bits v]|] new; done.
Qed.

Lemma init_global_unsupported GV s :
  unsupported_initializer GV → init_global GV s = Aborted.
Proof.
  unfold unsupported_initializer, init_global.
  destruct (g_valty GV); try done; destruct (g_init GV) as [[]|]; try done.
  intros Hin. by rewrite data_array_None.
Qed.

Lemma init_ranges_unsupported m s GV :
  GV ∈ m_globals m → unsupported_initializer GV → init_ranges demangle m s = Aborted.
Proof.
  intros Hin Hbad. unfold init_ranges.
  destruct (init_functions_Done (m_funcs m) s) as [s1 ->]. simpl.
  apply (for_each_Aborted _ _ _ GV); [apply init_global_not_NoFuel| |done].
  intros t. by apply init_global_unsupported.
Qed.

(** *** The sink arguments of the calls *)

Lemma for_each_at_elem {A S} (R : relation S) `{!PreOrder R} (Q : S → Prop)
    (body : A → S → result S) l s s' x :
  (∀ y t t', y ∈ l → body y t = Done t' → R t t') →
  (∀ t t', R t t' → Q t → Q t') →
  (∀ t t', R s t → body x t = Done t' → Q t') →
  x ∈ l → for_each body l s = Done s' → R s s' ∧ Q s'.
Proof.
  intros Hstep Hkeep. revert s.
  induction l as [|y l IH]; intros s Hx Hin Hrun; [by apply elem_of_nil in Hin|].
  simpl in Hrun. apply bind_Done in Hrun as (s1 & Hy & Hrun).
  assert (R s s1) as Hs1 by (eapply Hstep; [by left|done]).
  assert (R s1 s') as Hrest.
  { eapply (for_each_inv (R s1)); [|reflexivity|exact Hrun].
    intros z t t' Hz Ht Hbody. etrans; [done|]. eapply Hstep; [by right|done]. }
  split; [by etrans|].
  apply elem_of_cons in Hin as [->|Hin].
  - apply (Hkeep s1); [done|]. by eapply (Hx s).
  - assert (∀ z t t', z ∈ l → body z t = Done t' → R t t') as Hstep'
      by (intros z t t' Hz; apply Hstep; by right).
    destruct (IH Hstep' s1) as [_ HQ]; [|done|done|done].
    intros t t' Ht. apply Hx. by etrans.
Qed.

#[local] Instance sink_marks_grow_preorder m F : PreOrder (sink_marks_grow demangle m F).
Proof.
  split.
  - intros s. split; [done|]. intros k name ?. by left.
  - intros s1 s2 s3 [H1 H2] [H3 H4]. split; [auto|].
    intros k name Hk. destruct (H4 k name Hk) as [Hk2|?]; [|by right]. by apply H2.
Qed.

Lemma MKINT_SINKS_NoDup : NoDup MKINT_SINKS.*1.
Proof. apply (bool_decide_unpack _). vm_compute. exact I. Qed.

(** The loop over the table finds the one entry of the callee, if there is
    one. *)
Lemma mark_call_sinks_spec m callee args sinks s s' :
  NoDup sinks.*1 → sinks ≠ [] →
  mark_call_sinks demangle m callee args sinks s = Done s' →
  ∃ f, getCalledFunction m callee = Some f
       ∧ (∀ idx, (demangle (f_name f), idx) ∈ sinks →
                 match getArgOperand callee args idx with
                 | Some (VInst k) => s' = mark_sink k (demangle (f_name f)) s
                 | Some _ => s' = s
                 | None => False
                 end)
       ∧ ((∀ idx, (demangle (f_name f), idx) ∉ sinks) → s' = s).
Proof.
  induction sinks as [|[name idx0] sinks IH]; intros Hnd Hne Hrun; [done|].
  cbn [mark_call_sinks] in Hrun.
  destruct (getCalledFunction m callee) as [f|] eqn:Hf; [|done].
  exists f. split; [done|].
  rewrite fmap_cons in Hnd. apply NoDup_cons in Hnd as [Hname Hnd]. simpl in Hname.
  case_bool_decide as Hmatch.
  - split.
    + intros idx [[= ->]|Hin]%elem_of_cons.
      * repeat case_match; by simplify_eq.
      * destruct Hname. rewrite <- Hmatch. apply list_elem_of_fmap. by exists (demangle (f_name f), idx).
    + intros Hnot. destruct (Hnot idx0). rewrite Hmatch. by left.
  - destruct sinks as [|e sinks'].
    { simpl in Hrun. simplify_eq. split; [|done].
      intros idx [[= ? ?]|[]%elem_of_nil]%elem_of_cons. done. }
    destruct (IH Hnd ltac:(done) Hrun) as (f' & Hf' & Hin & Hout). simplify_eq.
    split.
    + intros idx [[= ? ?]|Hin']%elem_of_cons; [done|]. by apply Hin.
    + intros Hnot. apply Hout. intros idx Hin'. apply (Hnot idx). by right.
Qed.

Lemma mark_sink_args_step m F call t t' :
  call ∈ instructions F →
  match i_kind call with
  | Call callee args => mark_call_sinks demangle m callee args MKINT_SINKS t
  | _ => Done t
  end = Done t' →
  sink_marks_grow demangle m F t t'.
Proof.
  intros Hin Hbody.
  destruct (i_kind call) eqn:Hk; simplify_eq; try reflexivity.
  apply mark_call_sinks_spec in Hbody as (f & Hf & Hin' & Hout);
    [|apply MKINT_SINKS_NoDup|done].
  destruct (decide (demangle (f_name f) ∈ MKINT_SINKS.*1)) as [Hs|Hs].
  - apply list_elem_of_fmap in Hs as ([name idx] & Hname & Hs). simpl in Hname. subst name.
    specialize (Hin' idx Hs).
    destruct (getArgOperand callee args idx) as [[]|] eqn:Harg; try done;
      subst t'; try reflexivity.
    split.
    + intros k Hk'. simpl. apply lookup_insert_is_Some'. by right.
    + intros k name. simpl. destruct (decide (id = k)) as [->|Hne].
      * rewrite lookup_insert_eq. intros [= <-]. right.
        by exists call, callee, args, f, idx.
      * rewrite lookup_insert_ne by done. by left.
  - rewrite Hout; [reflexivity|].
    intros idx Hidx. apply Hs. apply list_elem_of_fmap. by exists (demangle (f_name f), idx).
Qed.

(** *** Comparisons of values that are no integers *)

Lemma for_each_Aborted_inv {A S} (P : S → Prop) (body : A → S → result S) l s x :
  (∀ y t, body y t ≠ NoFuel) →
  (∀ y t t', P t → body y t = Done t' → P t') →
  (∀ t, P t → body x t = Aborted) →
  P s → x ∈ l → for_each body l s = Aborted.
Proof.
  intros Hfuel Hkeep Hx. revert s.
  induction l as [|y l IH]; intros s HP Hin; [by apply elem_of_nil in Hin|].
  simpl. apply elem_of_cons in Hin as [<-|Hin].
  - by rewrite Hx.
  - destruct (body y s) as [s1| |] eqn:Hy; simpl; [|done|by destruct (Hfuel y s)].
    apply IH; [by eapply Hkeep|done].
Qed.

#[local] Instance same_backedges_preorder :
  PreOrder (λ s s' : state, m_backedges s' = m_backedges s).
Proof. split; [done|]. intros s1 s2 s3 ? ?. congruence. Qed.

Lemma merge_pred_non_integers m F bb pred s :
  is_backedge s bb (b_id pred) = false → branches_on_non_integers m pred →
  merge_pred cr m F bb pred s = Aborted.
Proof.
  intros Hback (t & c & br_true & br_false & p & lhs & rhs & Ht & Hk & Hc & Hty).
  unfold merge_pred. rewrite Hback, Ht, Hk, Hc. simpl.
  unfold merge_cond_br.
  destruct (isIntegerTy (type_of m lhs)), (isIntegerTy (type_of m rhs)); done.
Qed.

Lemma analyse_block_non_integers m F bb pred s :
  pred ∈ predecessors F (b_id bb) →
  is_backedge s (b_id bb) (b_id pred) = false → branches_on_non_integers m pred →
  analyse_block cr m F bb s = Aborted.
Proof.
  intros Hpred Hback Hbr. unfold analyse_block.
  rewrite (for_each_Aborted_inv (λ t, m_backedges t = m_backedges s) _ _ _ pred); [done|..].
  - intros y t. apply merge_pred_not_NoFuel.
  - intros y t t' Ht Hy.
    apply (merge_pred_steps (λ s s' : state, m_backedges s' = m_backedges s) _) in Hy;
      [congruence|done..].
  - intros t Ht. apply merge_pred_non_integers; [|done].
    unfold is_backedge in *. by rewrite Ht.
  - done.
  - done.
Qed.

(** *** The return range of a function without a body *)

#[local] Instance same_ret_ranges_preorder : PreOrder same_ret_ranges.
Proof.
  split; [by split|]. intros s1 s2 s3 [? ?] [? ?]. split; congruence.
Qed.

#[local] Instance keeps_ret_range_preorder name : PreOrder (keeps_ret_range name).
Proof.
  split; [by split|]. intros s1 s2 s3 [? ?] [? ?]. split; congruence.
Qed.

Lemma mark_call_sinks_same_ret_ranges m callee args sinks s s' :
  mark_call_sinks demangle m callee args sinks s = Done s' → same_ret_ranges s s'.
Proof.
  induction sinks as [|[name idx] sinks IH]; simpl; intros Hrun; [by simplify_eq|].
  repeat case_match; simplify_eq; try (by split). by apply IH.
Qed.

Lemma mark_func_sinks_same_ret_ranges m F s s' :
  mark_func_sinks demangle m F s = Done s' → same_ret_ranges s s'.
Proof.
  unfold mark_func_sinks, mark_sink_args. intros Hrun.
  apply bind_Done in Hrun as (s1 & Hargs & Hrun).
  etrans.
  - eapply (for_each_steps same_ret_ranges _); [|exact Hargs].
    intros inst t t' Hbody. cbv beta in Hbody.
    destruct (i_kind inst); simplify_eq; try reflexivity.
    by eapply mark_call_sinks_same_ret_ranges.
  - assert (∀ l t, same_ret_ranges t
              (foldl (λ s inst, if isReturnInst inst
                                then mark_sink (i_id inst) "return" s else s) t l)) as Hfold.
    { induction l as [|x l IH]; intros t; simpl; [reflexivity|].
      etrans; [|apply IH]. by destruct (isReturnInst x); split. }
    repeat case_match; simplify_eq; try reflexivity. apply Hfold.
Qed.

Lemma mark_sources_same_ret_ranges fuel pos m s m' s' :
  mark_sources demangle fuel pos m s = Done (m', s') → same_ret_ranges s s'.
Proof.
  revert pos m s.
  induction fuel as [|fuel IH]; intros pos m s Hrun; [done|].
  cbn [mark_sources] in Hrun.
  destruct (m_funcs m !! pos) as [F|]; [|simplify_eq; reflexivity].
  destruct (get_taint_source demangle F m) as [taint_sources m1].
  apply bind_Done in Hrun as (s1 & Hsinks & Hrun).
  apply mark_func_sinks_same_ret_ranges in Hsinks. apply IH in Hrun.
  etrans; [done|]. etrans; [|done]. by destruct (is_taint_src demangle _); split.
Qed.

Lemma taint_analysis_same_ret_ranges fuel m m' s' :
  taint_analysis demangle fuel m = Done (m', s') → same_ret_ranges empty_state s'.
Proof.
  unfold taint_analysis. intros Hrun.
  apply bind_Done in Hrun as ([m1 s1] & Hwalk & Hrun).
  apply bind_Done in Hrun as (s2 & Hbcast & Hrun).
  apply bind_Done in Hrun as (s3 & Hloop & Hrun). simplify_eq.
  apply mark_sources_same_ret_ranges in Hwalk.
  etrans; [done|]. etrans.
  - unfold bcast_sources in Hbcast.
    eapply (for_each_steps same_ret_ranges _); [|exact Hbcast].
    intros [fp tsrc] t t' Hbody. cbv beta in Hbody.
    apply bind_Done in Hbody as ([r t1] & Hts & Hbody).
    apply (taint_bcast_sink_steps m' same_ret_ranges _) in Hts; [|by split..].
    destruct r; simplify_eq; [|done]. etrans; [done|]. by split.
  - clear Hbcast. revert s2 Hloop.
    generalize (S (length (m_funcs m'))) as rounds.
    induction rounds as [|rounds IH]; intros s2 Hloop; [done|].
    simpl in Hloop. apply bind_Done in Hloop as (t & Hround & Hloop).
    apply (taint_round_steps m' same_ret_ranges _) in Hround; [|by split..].
    etrans; [done|]. case_bool_decide; [by apply IH|simplify_eq; reflexivity].
Qed.

Lemma find_func_name m name F : find_func m name = Some F → f_name F = name.
Proof.
  unfold find_func. intros [_ H]%find_some. by apply bool_decide_eq_true in H.
Qed.

#[local] Instance init_keeps_preorder F : PreOrder (init_keeps F).
Proof.
  split; [intros s; by split_and!|].
  intros s1 s2 s3 (H1 & H2 & H3) (H4 & H5 & H6). split_and!; [congruence|auto|auto].
Qed.

Lemma init_function_keeps F G t t' :
  (f_name G = f_name F → isDeclaration G = true ∧ f_ret G = f_ret F) →
  init_function demangle G t = Done t' → init_keeps F t t'.
Proof.
  intros Hname Hbody. unfold init_function in Hbody.
  destruct (isIntegerTy (f_ret G) || bool_decide (f_name G ∈ m_taint_funcs t));
    [|simplify_eq; reflexivity].
  destruct (isDeclaration G) eqn:Hdecl; simplify_eq.
  - split_and!; [done|done|]. simpl. intros Hret.
    destruct (decide (f_name G = f_name F)) as [Heq|Hne].
    + destruct (Hname Heq) as [_ ->]. rewrite Heq. by rewrite lookup_insert_eq.
    + by rewrite lookup_insert_ne.
  - assert (f_name G ≠ f_name F) as Hne by (intros Heq; by destruct (Hname Heq)).
    split_and!.
    + by destruct (isIntegerTy (f_ret G)).
    + simpl. intros Hnot. unfold setvector_insert.
      destruct (isIntegerTy (f_ret G)); simpl; case_bool_decide; try done.
      all: intros [?|?%list_elem_of_singleton]%elem_of_app; done.
    + simpl. destruct (isIntegerTy (f_ret G)); simpl; [|done].
      by rewrite lookup_insert_ne.
Qed.

Lemma init_functions_declaration F l s s1 :
  for_each (init_function demangle) l s = Done s1 →
  F ∈ l → isDeclaration F = true →
  (∀ G, G ∈ l → f_name G = f_name F → isDeclaration G = true ∧ f_ret G = f_ret F) →
  isIntegerTy (f_ret F) = true ∨ f_name F ∈ m_taint_funcs s →
  init_keeps F s s1
  ∧ m_func2ret_range s1 !! f_name F
    = Some (ConstantRange.getFull (getIntegerBitWidth (f_ret F))).
Proof.
  intros Hrun Hin Hdecl Huniq Hcond.
  eapply (for_each_at_elem (init_keeps F)
            (λ t, m_func2ret_range t !! f_name F
                  = Some (ConstantRange.getFull (getIntegerBitWidth (f_ret F)))))
    in Hrun; [exact Hrun| | | |exact Hin].
  - intros G t t' HG. apply init_function_keeps. by apply Huniq.
  - intros t t' (_ & _ & Hret). apply Hret.
  - intros t t' (Htf & _) Hbody. unfold init_function in Hbody.
    rewrite Hdecl in Hbody.
    assert (isIntegerTy (f_ret F) || bool_decide (f_name F ∈ m_taint_funcs t) = true) as Hc.
    { destruct Hcond as [->|Hc]; [done|].
      rewrite (bool_decide_eq_true_2 (f_name F ∈ m_taint_funcs t)) by (by rewrite Htf).
      by destruct (isIntegerTy (f_ret F)). }
    rewrite Hc in Hbody. simplify_eq. simpl. by rewrite lookup_insert_eq.
Qed.

Lemma init_global_same_ret_ranges GV s s' :
  init_global GV s = Done s' → same_ret_ranges s s'.
Proof.
  unfold init_global, push_back_ranges. intros Hrun.
  repeat case_match; inv_result; try (by split); repeat case_match; by split.
Qed.

Lemma backedge_analysis_same_ret_ranges F s : same_ret_ranges s (backedge_analysis F s).
Proof.
  unfold backedge_analysis.
  generalize (f_blocks F) at 2 as bs. intros bs. revert s.
  induction bs as [|b bs IH]; intros s; simpl; [reflexivity|].
  etrans; [|apply IH]. by case_match; split.
Qed.

Lemma backedges_same_ret_ranges (l : list function) s :
  same_ret_ranges s (foldl (λ s F, if isDeclaration F then s else backedge_analysis F s) s l)
  ∧ m_taint_funcs (foldl (λ s F, if isDeclaration F then s else backedge_analysis F s) s l)
    = m_taint_funcs s.
Proof.
  revert s. induction l as [|G l IH]; intros s; simpl; [by split|].
  destruct (IH (if isDeclaration G then s else backedge_analysis G s)) as [[H1 H2] H3].
  assert (same_ret_ranges s (if isDeclaration G then s else backedge_analysis G s)
          ∧ m_taint_funcs (if isDeclaration G then s else backedge_analysis G s)
            = m_taint_funcs s) as [[H4 H5] H6].
  { destruct (isDeclaration G); [by split|].
    split; [apply backedge_analysis_same_ret_ranges|].
    apply backedge_analysis_same_taint. }
  split; [split|]; congruence.
Qed.

Lemma range_round_keeps_ret_range name m s s' :
  name ∉ m_range_analysis_funcs s →
  range_round cr m s = Done s' → keeps_ret_range name s s'.
Proof.
  intros Hnot Hrun. unfold range_round in Hrun.
  eapply (for_each_inv (keeps_ret_range name s)); [|reflexivity|exact Hrun].
  intros Fn t t' Hin Ht Hbody. cbv beta in Hbody. etrans; [done|].
  destruct (find_func m Fn) as [G|] eqn:HG; [|simplify_eq; reflexivity].
  apply find_func_name in HG.
  eapply (range_analysis_steps (keeps_ret_range name) _ (λ fn, fn ≠ name));
    [by split| |by split|by split|by split| |exact Hbody].
  - intros fn x u Hne. split; [|done]. simpl. by rewrite lookup_insert_ne.
  - intros Heq. apply Hnot. by rewrite <- Heq, HG.
Qed.

Lemma range_loop_keeps_ret_range name fuel m try_count passes s r :
  name ∉ m_range_analysis_funcs s →
  range_loop cr fuel m try_count passes s = Done r → keeps_ret_range name s r.2.
Proof.
  revert try_count passes s.
  induction fuel as [|fuel IH]; intros t p s Hnot Hrun; [done|].
  simpl in Hrun. apply bind_Done in Hrun as (s1 & Hround & Hrun).
  apply (range_round_keeps_ret_range name) in Hround; [|done].
  case_match; [by simplify_eq|].
  case_match; [by simplify_eq|].
  etrans; [done|]. eapply IH; [|done]. destruct Hround as [_ ->]. done.
Qed.

(** *** Which merges write the flag of a comparison *)

Lemma merge_pred_other_branch m F bb pred cmp s s' :
  merge_pred cr m F bb pred s = Done s' → ¬ branches_on pred cmp →
  m_impossible_branches s' !! cmp = m_impossible_branches s !! cmp.
Proof.
  intros Hrun Hother. unfold merge_pred in Hrun.
  destruct (is_backedge s bb (b_id pred)); [by simplify_eq|].
  destruct (getTerminator pred) as [t|] eqn:Ht; [|done].
  destruct (i_kind t) eqn:Hk; try (by inv_result).
  - (* conditional branch *)
    destruct cond as [| |c| | |]; try (by inv_result).
    destruct (i_kind <$> find_inst m c) as [[]|]; try (by inv_result).
    apply bind_Done in Hrun as (s1 & Hmerge & Hrun). simplify_eq.
    apply merge_cond_br_findings in Hmerge as (_ & _ & _ & [Hsame|Hset]).
    + change (m_impossible_branches (merge_rest cr ?F ?b ?p ?n ?s))
        with (m_impossible_branches s). by rewrite Hsame.
    + change (m_impossible_branches (merge_rest cr ?F ?b ?p ?n ?s))
        with (m_impossible_branches s). rewrite Hset.
      apply lookup_insert_ne. intros ->. apply Hother.
      do 3 eexists. split; [done|exact Hk].
  - (* switch *)
    case_match; [by simplify_eq|].
    apply bind_Done in Hrun as (s1 & Hmerge & Hrun). simplify_eq.
    apply merge_switch_same_findings in Hmerge as (Hsame & _).
    change (m_impossible_branches (merge_rest cr ?F ?b ?p ?n ?s))
      with (m_impossible_branches s). by rewrite Hsame.
Qed.

Lemma visit_inst_branches m F bb inst s s' :
  visit_inst cr m F bb inst s = Done s' → m_impossible_branches s' = m_impossible_branches s.
Proof.
  intros Hrun. apply visit_inst_oob in Hrun as [(H & _)|Hplaced]; [done|].
  by destruct Hplaced as (? & ? & ? & ? & ? & ? & _ & _ & _ & _ & _ & H & _).
Qed.

Lemma analyse_block_other_branch m F bb cmp s s' :
  analyse_block cr m F bb s = Done s' → ¬ merges_branch_on F cmp bb →
  m_impossible_branches s' !! cmp = m_impossible_branches s !! cmp.
Proof.
  unfold analyse_block. intros Hrun Hother.
  apply bind_Done in Hrun as (s1 & Hmerge & Hvisit).
  transitivity (m_impossible_branches s1 !! cmp).
  - eapply (for_each_inv (λ t, m_impossible_branches t !! cmp = m_impossible_branches s1 !! cmp));
      [|done|exact Hvisit].
    intros inst t t' _ Ht Hinst. apply visit_inst_branches in Hinst. by rewrite Hinst.
  - eapply (for_each_inv (λ t, m_impossible_branches t !! cmp = m_impossible_branches s !! cmp));
      [| |exact Hmerge]; [|done].
    intros pred t t' Hpred Ht Hp.
    rewrite <- Ht. eapply merge_pred_other_branch; [exact Hp|].
    intros Hon. apply Hother. by exists pred.
Qed.

Lemma blocks_other_branch m F bs cmp s s' :
  for_each (analyse_block cr m F) bs s = Done s' →
  (∀ b, b ∈ bs → ¬ merges_branch_on F cmp b) →
  m_impossible_branches s' !! cmp = m_impossible_branches s !! cmp.
Proof.
  intros Hrun Hother.
  eapply (for_each_inv (λ t, m_impossible_branches t !! cmp = m_impossible_branches s !! cmp));
    [|done|exact Hrun].
  intros b t t' Hb Ht Hrun'. rewrite <- Ht.
  eapply analyse_block_other_branch; [exact Hrun'|by apply Hother].
Qed.

Lemma for_each_app {A S} (body : A → S → result S) l1 l2 s :
  for_each body (l1 ++ l2) s = for_each body l1 s ≫= for_each body l2.
Proof.
  revert s. induction l1 as [|x l1 IH]; intros s; simpl; [done|].
  destruct (body x s) as [s1| |]; simpl; [apply IH|done..].
Qed.

(** Within one call of [range_analysis] the flag of [cmp] is the one the last
    block that merges an edge of a branch on [cmp] leaves. *)
Lemma range_analysis_last_merge m F pre bb post cmp s s1 s2 t :
  f_blocks F = pre ++ bb :: post →
  for_each (analyse_block cr m F) pre s = Done s1 →
  analyse_block cr m F bb s1 = Done s2 →
  (∀ b, b ∈ post → ¬ merges_branch_on F cmp b) →
  range_analysis cr m F s = Done t →
  m_impossible_branches t !! cmp = m_impossible_branches s2 !! cmp.
Proof.
  unfold range_analysis. intros -> Hpre Hbb Hpost Hrun.
  rewrite for_each_app, Hpre in Hrun. simpl in Hrun. rewrite Hbb in Hrun. simpl in Hrun.
  by eapply blocks_other_branch.
Qed.

(** C10.  A comparison has one flag in [m_impossible_branches] and carries
    at most one dead-branch error.  A record is an insertion at the key
    [cmp]: the merge over a conditional branch on [cmp] sets the flag of
    [cmp] to the side being merged exactly when one of the two ranges it
    leaves in the block is empty, whatever flag [cmp] had before and in
    whatever pass, and changes no flag otherwise.  Within one call of
    [range_analysis] the flag that is left is the one left by the last block
    that merges an edge of a branch on [cmp]: what the blocks before it
    recorded is overwritten.  Over the range loop a key stays a key.  Once
    the pass has run, a key carries the error its last flag names and not
    the other one, and an instruction that is no key carries neither. *)
Theorem one_dead_branch_error_per_comparison m F pre bb post cmp s s1 s2 t :
  f_blocks F = pre ++ bb :: post →
  for_each (analyse_block cr m F) pre s = Done s1 →
  analyse_block cr m F bb s1 = Done s2 →
  (∀ b, b ∈ post → ¬ merges_branch_on F cmp b) →
  range_analysis cr m F s = Done t →
  m_impossible_branches t !! cmp = m_impossible_branches s2 !! cmp
  ∧ (∀ fn b pred br_true p lhs rhs u lrng rrng,
       isIntegerTy (type_of m lhs) = true →
       isIntegerTy (type_of m rhs) = true →
       get_range_by_bb u fn lhs (BlockRef pred) = Done lrng →
       get_range_by_bb u fn rhs (BlockRef pred) = Done rrng →
       ∃ u' l r,
         merge_cond_br cr m fn b pred br_true cmp p lhs rhs u = Done u'
         ∧ rng_at u' fn (BlockRef b) !! lhs = Some l
         ∧ rng_at u' fn (BlockRef b) !! rhs = Some r
         ∧ m_impossible_branches u' =
             (if ConstantRange.isEmptySet l || ConstantRange.isEmptySet r
              then <[cmp := bool_decide (br_true = b)]> (m_impossible_branches u)
              else m_impossible_branches u))
  ∧ (∀ fuel m0 m' st,
       run cr demangle fuel m0 = Done (m', st) →
       match m_impossible_branches st !! cmp with
       | Some is_tbr =>
         md_err st !! cmp = Some (mkstr (dead_branch_err is_tbr))
         ∧ md_err st !! cmp ≠ Some (mkstr (dead_branch_err (negb is_tbr)))
       | None =>
         md_err st !! cmp ≠ Some (mkstr DEAD_TRUE_BR)
         ∧ md_err st !! cmp ≠ Some (mkstr DEAD_FALSE_BR)
       end)
  ∧ (∀ fuel try_count passes u r,
       range_loop cr fuel m try_count passes u = Done r →
       is_Some (m_impossible_branches u !! cmp) → is_Some (m_impossible_branches r.2 !! cmp)).
Proof.
  intros Hblocks Hpre Hbb Hpost Hrun. split_and!.
  - by eapply range_analysis_last_merge.
  - intros fn b pred br_true p lhs rhs u lrng rrng Hl Hr Hlrng Hrrng.
    destruct (merge_cond_br_ranges m fn b pred br_true cmp p lhs rhs u lrng rrng
                Hl Hr Hlrng Hrrng) as (u' & H1 & H2 & H3 & H4).
    by eexists u', _, _.
  - intros fuel m0 m' st Hrun'.
    rewrite (run_errors fuel m0 m' st cmp Hrun').
    destruct (m_impossible_branches st !! cmp) as [[]|]; [by split..|].
    case_decide; by split.
  - intros fuel try_count passes u r Hloop.
    assert (findings_grow u r.2) as [Hkeys _]; [|apply Hkeys].
    revert Hloop.
    by apply (range_loop_steps findings_grow _ (λ _, True));
      auto using findings_grow_branch, findings_grow_oob.
Qed.

(** *** Further properties of the pass *)

(** X2.  The range loop ends by itself within [max_try + 1] passes: a budget of
    129 rounds is never used up, the loop returns after the first pass that
    changes none of the three maps, and it never makes more than 129
    passes. *)
Theorem range_loop_ends_within_129_passes m s :
  range_loop cr (S (N.to_nat max_try)) m 0 0 s ≠ NoFuel
  ∧ (∀ fuel try_count passes s',
       range_round cr m s = Done s' →
       m_func2range_info s' = m_func2range_info s →
       m_global2range s' = m_global2range s →
       m_func2ret_range s' = m_func2ret_range s →
       range_loop cr (S fuel) m try_count passes s = Done (S passes, try_count, s'))
  ∧ (∀ fuel passes try_count s',
       range_loop cr fuel m 0 0 s = Done (passes, try_count, s') →
       (0 < passes ≤ 129)%nat).
Proof.
  split_and!.
  - apply range_loop_terminates; unfold max_try; lia.
  - intros. by apply range_loop_stops_when_stable.
  - intros fuel passes try_count s' Hrun.
    apply range_loop_passes in Hrun; unfold max_try in *; lia.
Qed.

(** X3.  The budget given to [run] bounds only the depth of
    [is_sink_reachable]:
    with a larger budget the pass returns what it returned, unless the
    smaller one was used up; the walk over the functions and the worklist of
    the back-edge analysis end within the bounds they are given. *)
Theorem pass_result_independent_of_budget fuel k m :
  refines (run cr demangle fuel m) (run cr demangle (fuel + k) m)
  ∧ (∀ s, mark_sources demangle
            (S (length (m_funcs m) + length (flat_map f_params (m_funcs m)))) 0 m s ≠ NoFuel)
  ∧ (∀ F bb j,
       let fuel := S (length (flat_map successors (f_blocks F))) in
       remote_succs_loop (fuel + j) F bb [bb] [] = remote_succs_loop fuel F bb [bb] []).
Proof.
  split_and!.
  - apply run_more_fuel.
  - apply mark_sources_terminates.
  - apply backedge_budget_suffices.
Qed.

(** X4.  What a run of the pass leaves in [mkint.err]: on a key of
    [m_impossible_branches] the dead-branch error of its flag, on a member of
    [m_gep_oob] [ERR(ARRAY_OOB)], and nothing on any other instruction; and
    no instruction is both. *)
Theorem errors_of_a_run fuel m m' s' c :
  run cr demangle fuel m = Done (m', s') →
  md_err s' !! c =
    match m_impossible_branches s' !! c with
    | Some is_tbr => Some (mkstr (dead_branch_err is_tbr))
    | None => if decide (c ∈ m_gep_oob s') then Some (mkstr ARRAY_OOB) else None
    end
  ∧ (is_Some (m_impossible_branches s' !! c) → c ∉ m_gep_oob s').
Proof.
  intros Hrun. split; [by apply (run_errors fuel m m')|].
  apply run_before_mark_errors in Hrun as (s2 & -> & Ht & _).
  destruct (mark_errors_findings s2) as [-> ->].
  by apply (findings_typed_disjoint m').
Qed.

(** X5.  The pass walks three containers in an order that depends on
    addresses:
    the [DenseMap] of a predecessor in the merge, and the [std::map] and the
    [std::set] of the findings in [mark_errors].  Whatever order the entries
    come in, the merge leaves the same ranges in the block and [mark_errors]
    leaves the same metadata. *)
Theorem walks_do_not_depend_on_order F bb pred narrowed_insts s :
  (∀ entries,
     entries ≡ₚ map_to_list (rng_at s F (BlockRef pred)) →
     merge_rest_walk cr F bb entries narrowed_insts s = merge_rest cr F bb pred narrowed_insts s)
  ∧ (∀ branches geps,
       branches ≡ₚ map_to_list (m_impossible_branches s) →
       geps ≡ₚ elements (m_gep_oob s) →
       mark_errors_walk branches geps s = mark_errors s).
Proof.
  split.
  - intros entries. apply merge_rest_walk_order.
  - intros branches geps. apply mark_errors_walk_order.
Qed.

(** X6.  Whenever [is_sink_reachable] returns, it returns true exactly when
    an instruction that carries [mkint.sink] can be reached from [inst] in
    the graph it walks; it has left the sinks as they are, it has put
    [mkint.taint] only on [inst] and on instructions of the module, from
    which a sink can be reached, and when it returns false it has changed
    nothing.  When no walk from [inst] has [n] edges, the recursion ends: no
    budget of [n] or more for its depth is used up, and every such budget
    gives the same result.  (Nothing is said here of a walk with a cycle;
    on [sum_module] the recursion does not end.) *)
Theorem is_sink_reachable_finds_the_sinks m inst s :
  (∀ fuel b s',
     is_sink_reachable demangle fuel m inst s = Done (b, s') →
     (b = true ↔ sink_reachable m (md_sink s) inst)
     ∧ md_sink s' = md_sink s
     ∧ (∀ k, is_Some (md_taint s' !! k) →
             is_Some (md_taint s !! k)
             ∨ ∃ i, i_id i = k ∧ (i = inst ∨ i ∈ all_instructions m)
                    ∧ sink_reachable m (md_sink s) i)
     ∧ (b = false → s' = s))
  ∧ (∀ n fuel,
       walk_bounded m (md_sink s) n inst → (n ≤ fuel)%nat →
       is_sink_reachable demangle fuel m inst s ≠ NoFuel
       ∧ is_sink_reachable demangle fuel m inst s = is_sink_reachable demangle n m inst s).
Proof.
  split.
  - intros fuel b s' Hrun.
    destruct (is_sink_reachable_spec m (md_sink s) (md_taint s) [inst] fuel inst s b s' Hrun)
      as [[Hs Ht] Hiff]; [by left; left|apply taint_justified_start|].
    split_and!; try done.
    + intros k Hk. destruct (Ht k Hk) as [?|(i & ? & [Hi%list_elem_of_singleton|Hi] & ?)];
        [by left|right; exists i; auto..].
    + intros ->. by eapply is_sink_reachable_false.
  - intros n fuel Hwalk Hle.
    assert (is_sink_reachable demangle n m inst s ≠ NoFuel) as Hfuel
      by (by eapply is_sink_reachable_bounded).
    replace fuel with (n + (fuel - n))%nat by lia.
    destruct (is_sink_reachable_more_fuel n (fuel - n) m inst s) as [?|Heq]; [done|].
    by rewrite <- Heq.
Qed.

(** X7.  When the taint phase of [run] has returned, every instruction that
    carries [mkint.taint] is a recorded taint source or an instruction of the
    module, and an instruction that carries [mkint.sink] can be reached from
    it. *)
Theorem tainted_instructions_reach_a_sink fuel m m' s' k :
  taint_analysis demangle fuel m = Done (m', s') →
  is_Some (md_taint s' !! k) →
  ∃ inst, i_id inst = k
          ∧ (inst ∈ concat (m_func2tsrc s').*2 ∨ inst ∈ all_instructions m')
          ∧ sink_reachable m' (md_sink s') inst.
Proof.
  intros Hrun Hk.
  apply taint_analysis_justified in Hrun as [_ Ht].
  destruct (Ht k Hk) as [Hbase|?]; [|done].
  rewrite lookup_empty in Hbase. by destruct Hbase.
Qed.

(** X8.  When the taint phase of [run] has returned, the walk from every
    recorded taint source has left its marks.  A source from which a sink
    can be reached carries [mkint.taint] and its function is in
    [m_taint_funcs]; and every instruction without [mkint.sink] the walk from
    the source comes to, and from which a sink can be reached, carries
    [mkint.taint]. *)
Theorem taint_covers_the_walk_from_a_source fuel m m' s' fp tsrc ts :
  taint_analysis demangle fuel m = Done (m', s') →
  (fp, tsrc) ∈ m_func2tsrc s' → ts ∈ tsrc →
  (sink_reachable m' (md_sink s') ts →
   is_Some (md_taint s' !! i_id ts) ∧ fp ∈ m_taint_funcs s')
  ∧ (∀ i, walks_to m' (md_sink s') ts i →
          ¬ is_Some (md_sink s' !! i_id i) → sink_reachable m' (md_sink s') i →
          is_Some (md_taint s' !! i_id i)).
Proof.
  unfold taint_analysis. intros Hrun Hin Hts.
  apply bind_Done in Hrun as ([m1 s1] & Hwalk & Hrun).
  apply bind_Done in Hrun as (s2 & Hbcast & Hrun).
  apply bind_Done in Hrun as (s3 & Hloop & Hrun). simplify_eq.
  destruct (bcast_sources_marks_grow _ _ _ _ Hbcast) as (Hsink2 & Hsrc2 & _).
  destruct (taint_loop_marks_grow _ _ _ _ _ Hloop) as (Hsink3 & Hsrc3 & Ht3 & Hf3).
  rewrite Hsrc3, Hsrc2 in Hin. rewrite Hsink3, Hsink2.
  split.
  - intros Hreach.
    destruct (bcast_sources_marks_sources _ _ _ _ _ _ _ Hbcast Hin Hts Hreach) as [? ?].
    split; [by apply Ht3|by apply Hf3].
  - intros i Hwalk' Hns Hreach. apply Ht3.
    by eapply bcast_sources_marks_walk.
Qed.

(** X9.  When the taint phase of [run] has returned, the arguments of every
    function in [m_taint_funcs] that has a body and is no taint source have
    been broadcast against the final [m_taint_funcs]: a user of such an
    argument from which a sink can be reached carries [mkint.taint], and so
    does every instruction without [mkint.sink] the walk from the user comes
    to and from which a sink can be reached. *)
Theorem taint_covers_the_arguments_of_tainted_functions fuel m m' s' f F arg user :
  taint_analysis demangle fuel m = Done (m', s') →
  f ∈ m_taint_funcs s' → is_taint_src demangle f = false → find_func m' f = Some F →
  arg ∈ args_of F → user ∈ users m' arg →
  (sink_reachable m' (md_sink s') user → is_Some (md_taint s' !! i_id user))
  ∧ (∀ i, walks_to m' (md_sink s') user i →
          ¬ is_Some (md_sink s' !! i_id i) → sink_reachable m' (md_sink s') i →
          is_Some (md_taint s' !! i_id i)).
Proof.
  unfold taint_analysis. intros Hrun Hf Hsrc HF Harg Huser.
  apply bind_Done in Hrun as ([m1 s1] & Hwalk & Hrun).
  apply bind_Done in Hrun as (s2 & Hbcast & Hrun).
  apply bind_Done in Hrun as (s3 & Hloop & Hrun). simplify_eq.
  apply taint_loop_last_round in Hloop as (s0 & _ & Hlast & Hfuncs).
  assert (md_sink s' = md_sink s0) as Hsink.
  { apply (taint_round_steps m' taint_marks_grow _) in Hlast;
      [apply Hlast|apply taint_marks_grow_mark|done|intros; apply taint_marks_grow_insert]. }
  rewrite Hsink. rewrite <- Hfuncs in Hf.
  by eapply taint_round_marks.
Qed.

(** X10.  [is_sink_reachable] returns when the walk has no cycle.  If no
    walk from [inst] has [n] edges, a budget of [n] for the depth of the
    recursion is not used up, and no larger budget changes the result. *)
Theorem is_sink_reachable_returns_without_a_cycle m n k inst s :
  walk_bounded m (md_sink s) n inst →
  is_sink_reachable demangle n m inst s ≠ NoFuel
  ∧ is_sink_reachable demangle (n + k) m inst s = is_sink_reachable demangle n m inst s.
Proof.
  intros Hwalk.
  assert (is_sink_reachable demangle n m inst s ≠ NoFuel) as Hfuel
    by (by eapply is_sink_reachable_bounded).
  split; [done|].
  by destruct (is_sink_reachable_more_fuel n k m inst s) as [?| ->].
Qed.

(** X11.  [backedge_analysis] keeps the sets that are there and records
    nothing for a block that is not of [F].  For a block [bb] of [F] that has
    no set yet it records, without repetition, the blocks other than [bb]
    that can be reached from [bb] along the edges of the control-flow graph:
    a block is never in its own set. *)
Theorem backedge_analysis_records_reachable_blocks F s bb :
  match m_backedges s !! bb with
  | Some l => m_backedges (backedge_analysis F s) !! bb = Some l
  | None =>
    if decide (bb ∈ b_id <$> f_blocks F) then
      ∃ l, m_backedges (backedge_analysis F s) !! bb = Some l
           ∧ NoDup l
           ∧ ∀ x, x ∈ l ↔ x ≠ bb ∧ tc (cfg_edge F) bb x
    else m_backedges (backedge_analysis F s) !! bb = None
  end.
Proof.
  rewrite backedge_analysis_lookup.
  destruct (m_backedges s !! bb); [done|].
  destruct (decide (bb ∈ b_id <$> f_blocks F)) as [Hin|Hin].
  - rewrite bool_decide_eq_true_2 by done.
    eexists. split; [done|]. apply remote_succs_reachable.
  - by rewrite bool_decide_eq_false_2.
Qed.

(** X12.  For a function that is no taint source [get_taint_source] returns
    no instruction and leaves the module as it is.  For a taint source it
    leaves no use of an integer argument behind, it changes for no other
    argument of the module whether that argument is used, and the
    instructions it returns are, in the order of the arguments, one call of
    [<name>.mkint.arg<no>] without operands for every integer argument that
    had a use. *)
Theorem get_taint_source_replaces_arguments F m :
  let name := f_name F in
  let r := get_taint_source demangle F m in
  if is_taint_src demangle name then
    (∀ no bits, f_params F !! no = Some (TInt bits) → use_empty r.2 (VArg name no) = true)
    ∧ (∀ F' no, (F' = name → ∀ bits, f_params F !! no ≠ Some (TInt bits)) →
                use_empty r.2 (VArg F' no) = use_empty m (VArg F' no))
    ∧ i_kind <$> r.1
      = (λ p : nat * ty, Call (VFunc (name +:+ ".mkint.arg" +:+ pretty p.1)) []) <$>
          filter (λ p : nat * ty, isIntegerTy p.2 = true ∧ use_empty m (VArg name p.1) = false)
                 (imap pair (f_params F))
  else r = ([], m).
Proof.
  intros name r. unfold r, get_taint_source. fold name.
  destruct (is_taint_src demangle name); [|done].
  split_and!.
  - intros no bits Hno. apply use_empty_not_used.
    destruct (source_args_used name (imap pair (f_params F)) [] m name no) as (_ & _ & H3).
    apply (H3 (TInt bits)); [done|by apply imap_pair_lookup|done].
  - intros F' no Hother. apply use_empty_iff.
    destruct (source_args_used name (imap pair (f_params F)) [] m F' no) as (H1 & H2 & _).
    split; [done|]. apply H2.
    intros t Hin%imap_pair_lookup HF'. specialize (Hother HF').
    destruct t; try done. by destruct (Hother bits).
  - rewrite source_args_calls by apply imap_pair_NoDup. done.
Qed.

(** X13.  [mark_func_sinks] reads the name of the callee of every call
    without a check for null.  On a module in which some function holds a
    call whose callee is no function, the walk of [run] over the functions
    does not get past that function: the pass stops there, before any taint
    is propagated and before any range is computed. *)
Theorem pass_stops_at_an_indirect_call fuel m F :
  F ∈ m_funcs m → has_indirect_call F →
  run cr demangle fuel m = Aborted.
Proof.
  intros [p Hp]%list_elem_of_lookup_1 Hind.
  unfold run, taint_analysis.
  pose proof (mark_sources_terminates m empty_state) as Hfuel.
  pose proof (mark_sources_indirect
                (S (length (m_funcs m) + length (flat_map f_params (m_funcs m))))
                0 m empty_state p) as Hdone.
  destruct (mark_sources _ _ _ _ _) as [r| |]; [|done|done].
  destruct (Hdone ltac:(lia) ltac:(by exists F) r). done.
Qed.

(** X14.  What the taint phase of [run] leaves is what the pass ends with:
    the set-up of the ranges, the range loop and [mark_errors] change neither
    the module nor [mkint.taint], [mkint.sink], the taint of a global,
    [m_func2tsrc] or [m_taint_funcs]. *)
Theorem range_phase_leaves_taint_alone fuel m m' s' :
  run cr demangle fuel m = Done (m', s') →
  ∃ s0, taint_analysis demangle fuel m = Done (m', s0) ∧ same_taint s0 s'.
Proof.
  unfold run. intros Hrun.
  apply bind_Done in Hrun as ([m0 s0] & Htaint & Hrun).
  apply bind_Done in Hrun as (s1 & Hsetup & Hrun).
  apply bind_Done in Hrun as ([[p t] s2] & Hloop & Hrun). simplify_eq.
  exists s0. split; [done|].
  etrans; [by eapply range_setup_same_taint|].
  etrans; [|apply mark_errors_same_taint].
  by apply (range_loop_steps same_taint _ (λ _, True)) in Hloop.
Qed.

(** X15.  No finding is withdrawn.  A pass of [range_analysis] over a
    function, and the range loop of [run] as a whole, keep every comparison
    that has an impossible branch among those that have one, and every gep
    that is out of bound in [m_gep_oob], whatever the later ranges are. *)
Theorem findings_are_never_withdrawn m :
  (∀ F s s', range_analysis cr m F s = Done s' → findings_grow s s')
  ∧ (∀ fuel try_count passes s r,
       range_loop cr fuel m try_count passes s = Done r → findings_grow s r.2).
Proof.
  split.
  - intros F s s'.
    by apply (range_analysis_steps findings_grow _ (λ _, True));
      auto using findings_grow_branch, findings_grow_oob.
  - intros fuel try_count passes s r.
    by apply (range_loop_steps findings_grow _ (λ _, True));
      auto using findings_grow_branch, findings_grow_oob.
Qed.

(** X16.  On a module with a global that [init_ranges] cannot seed (an
    integer global whose initializer is no [ConstantInt], or an array whose
    initializer is no [ConstantDataArray] of integers, as
    [zeroinitializer]), the pass goes through the taint phase and then
    stops in [init_ranges]: no range is computed and no error is marked. *)
Theorem pass_stops_at_an_unsupported_initializer fuel m GV :
  GV ∈ m_globals m → unsupported_initializer GV →
  run cr demangle fuel m = (taint_analysis demangle fuel m ≫= λ _, Aborted).
Proof.
  intros Hin Hbad. unfold run.
  destruct (taint_analysis demangle fuel m) as [[m' s0]| |] eqn:Htaint; [|done|done].
  simpl. apply taint_analysis_globals in Htaint.
  unfold range_setup. rewrite (init_ranges_unsupported m' _ GV); [done| |done].
  by rewrite Htaint.
Qed.

(** X17.  When the loop of [mark_func_sinks] over the calls of [F] returns,
    every call of [F] has a callee that is a function; [mkint.sink] still is
    on the instructions it was on; whatever is new in it is the name of a
    sink on the argument of a call of that sink in [F], at the position the
    table gives; and every such argument that is an instruction carries the
    name of a sink it is an argument of. *)
Theorem mark_sink_args_marks_the_sink_arguments m F s s' :
  mark_sink_args demangle m F s = Done s' →
  (∀ call callee args, call ∈ instructions F → i_kind call = Call callee args →
                       is_Some (getCalledFunction m callee))
  ∧ sink_marks_grow demangle m F s s'
  ∧ (∀ k name, sink_argument demangle m F name k →
               ∃ name', md_sink s' !! k = Some name' ∧ sink_argument demangle m F name' k).
Proof.
  unfold mark_sink_args. intros Hrun.
  assert (sink_marks_grow demangle m F s s') as Hgrow.
  { eapply (for_each_inv (sink_marks_grow demangle m F s)); [|reflexivity|exact Hrun].
    intros call t t' Hin Ht Hbody. etrans; [done|]. by eapply mark_sink_args_step. }
  split_and!; [|done|].
  - intros call callee args Hin Hk.
    eapply (for_each_at_elem (sink_marks_grow demangle m F)
              (λ _, is_Some (getCalledFunction m callee))) in Hrun as [_ ?];
      [done| | | |exact Hin].
    + intros y t t' Hy. by apply mark_sink_args_step.
    + done.
    + intros t t' _ Hbody. cbv beta in Hbody. rewrite Hk in Hbody.
      apply mark_call_sinks_spec in Hbody as (f & -> & _); [done|apply MKINT_SINKS_NoDup|done].
  - intros k name (call & callee & args & f & idx & Hin & Hk & Hf & Hname & Hidx & Harg).
    eapply (for_each_at_elem (sink_marks_grow demangle m F)
              (λ t, ∃ name', md_sink t !! k = Some name' ∧ sink_argument demangle m F name' k))
      in Hrun as [_ ?]; [done| | | |exact Hin].
    + intros y t t' Hy. by apply mark_sink_args_step.
    + intros t t' [Hkeys Hnew] (name' & Hk' & Hjust).
      destruct (Hkeys k) as [name'' Hk'']; [by rewrite Hk'|].
      exists name''. split; [done|].
      destruct (Hnew k name'' Hk'') as [Hold|?]; [|done]. by simplify_eq.
    + intros t t' _ Hbody. cbv beta in Hbody. rewrite Hk in Hbody.
      apply mark_call_sinks_spec in Hbody as (f' & Hf' & Hin' & _);
        [|apply MKINT_SINKS_NoDup|done].
      simplify_eq. specialize (Hin' idx Hidx). rewrite Harg in Hin'. subst t'.
      exists (demangle (f_name f)). split; [simpl; by rewrite lookup_insert_eq|].
      by exists call, callee, args, f, idx.
Qed.

(** X18.  [range_analysis] does not get past a comparison of values that are
    not both integers.  When a block of [F] has a predecessor that is no back
    edge and that branches on such a comparison, the merge of that
    predecessor reaches [MKINT_CHECK_ABORT], and the analysis of [F] stops
    in whatever state it is started. *)
Theorem range_analysis_stops_at_a_comparison_of_non_integers m F bb pred s :
  bb ∈ f_blocks F → pred ∈ predecessors F (b_id bb) →
  is_backedge s (b_id bb) (b_id pred) = false →
  branches_on_non_integers m pred →
  range_analysis cr m F s = Aborted.
Proof.
  intros Hbb Hpred Hback Hbr. unfold range_analysis.
  apply (for_each_Aborted_inv (λ t, m_backedges t = m_backedges s) _ _ _ bb); [| | |done|done].
  - intros y t. unfold analyse_block.
    apply bind_not_NoFuel.
    + apply for_each_not_NoFuel. intros. apply merge_pred_not_NoFuel.
    + intros. apply for_each_not_NoFuel. intros. apply visit_inst_not_NoFuel.
  - intros y t t' Ht Hy.
    apply (analyse_block_steps (λ s s' : state, m_backedges s' = m_backedges s) _ (λ _, True)) in Hy;
      [congruence|done..].
  - intros t Ht. eapply analyse_block_non_integers; [done| |done].
    unfold is_backedge in *. by rewrite Ht.
Qed.

(** X19.  A call of a function without a body is read as the full range
    throughout.  When [run] returns, a declaration that returns an integer or
    is in [m_taint_funcs] (the functions [get_taint_source] declares are
    among them) has the full set of its return width as its return range:
    [init_ranges] puts it there and no pass of the range loop writes it. *)
Theorem declarations_keep_the_full_return_range fuel m m' s' F :
  run cr demangle fuel m = Done (m', s') →
  F ∈ m_funcs m' → isDeclaration F = true →
  (∀ G, G ∈ m_funcs m' → f_name G = f_name F → isDeclaration G = true ∧ f_ret G = f_ret F) →
  isIntegerTy (f_ret F) = true ∨ f_name F ∈ m_taint_funcs s' →
  m_func2ret_range s' !! f_name F
  = Some (ConstantRange.getFull (getIntegerBitWidth (f_ret F))).
Proof.
  unfold run. intros Hrun HF Hdecl Huniq Hcond.
  apply bind_Done in Hrun as ([m0 s0] & Htaint & Hrun).
  apply bind_Done in Hrun as (s1 & Hsetup & Hrun).
  apply bind_Done in Hrun as ([[p t] s2] & Hloop & Hrun). simplify_eq.
  assert (m_func2ret_range (mark_errors s2) = m_func2ret_range s2
          ∧ m_taint_funcs (mark_errors s2) = m_taint_funcs s2) as [-> Htf2].
  { by rewrite (mark_errors_only_err s2). }
  rewrite Htf2 in Hcond.
  apply (range_loop_steps same_taint _ (λ _, True)) in Hloop as Htaint2; [|done..].
  simpl in Htaint2. destruct Htaint2 as (_ & _ & _ & _ & Htf1).
  rewrite Htf1 in Hcond.
  apply taint_analysis_same_ret_ranges in Htaint as [Hret0 Hfuncs0].
  unfold range_setup, init_ranges in Hsetup.
  apply bind_Done in Hsetup as (u & Hfuncs & Hglobals).
  set (sb := foldl (λ s F, if isDeclaration F then s else backedge_analysis F s) s0 (m_funcs m'))
    in *.
  destruct (backedges_same_ret_ranges (m_funcs m') s0) as [[Hretb Hfuncsb] Htfb].
  fold sb in Hretb, Hfuncsb, Htfb.
  assert (m_taint_funcs s1 = m_taint_funcs u) as Htfu.
  { eapply (for_each_steps same_taint _) in Hglobals; [apply Hglobals|].
    intros GV v v' Hbody. unfold init_global, push_back_ranges in Hbody.
    repeat case_match; inv_result; split_and!; try done; repeat case_match; done. }
  eapply init_functions_declaration in Hfuncs as [(Htfi & Hnot & _) Hfull];
    [|done|done|done|].
  2: { destruct Hcond as [?|Hc]; [by left|right].
       rewrite Htfu in Hc.
       eapply (for_each_steps same_taint _) in Hfuncs; [|
         intros G v v' Hbody; unfold init_function in Hbody;
         repeat case_match; simplify_eq; by split_and!].
       destruct Hfuncs as (_ & _ & _ & _ & Hx). by rewrite <- Hx. }
  assert (same_ret_ranges u s1) as [Hret1 Hfuncs1].
  { eapply (for_each_steps same_ret_ranges _); [|exact Hglobals].
    intros GV v v'. apply init_global_same_ret_ranges. }
  apply range_loop_keeps_ret_range with (name := f_name F) in Hloop as [Hkeep _].
  - simpl in Hkeep. by rewrite Hkeep, Hret1.
  - rewrite Hfuncs1. apply Hnot. rewrite Hfuncsb, Hfuncs0. by intros ?%elem_of_nil.
Qed.

End Properties.

(** * Closed examples *)

(** *** [sum_module]: a phi in a loop *)

Lemma sum_cycle fuel s :
  md_sink s = ∅ →
  is_sink_reachable LLVM.demangle fuel sum_module_rewritten sum_phi s = NoFuel
  ∧ is_sink_reachable LLVM.demangle fuel sum_module_rewritten sum_add s = NoFuel.
Proof.
  intros Hs. induction fuel as [|fuel [IHphi IHadd]]; [done|].
  split.
  - eapply is_sink_reachable_stuck_on_user; [by rewrite Hs|done|by vm_compute|exact IHadd].
  - eapply is_sink_reachable_stuck_on_user; [by rewrite Hs|done|by vm_compute|exact IHphi].
Qed.

Lemma sum_call fuel s :
  md_sink s = ∅ →
  is_sink_reachable LLVM.demangle fuel sum_module_rewritten sum_arg_call s = NoFuel.
Proof.
  intros Hs. destruct fuel as [|fuel]; [done|].
  eapply is_sink_reachable_stuck_on_user; [by rewrite Hs|done|by vm_compute|].
  by apply sum_cycle.
Qed.

Lemma sum_setup :
  mark_sources LLVM.demangle 3 0 sum_module empty_state
  = Done (sum_module_rewritten,
          set_func2tsrc [("sys_sum", [sum_arg_call]); ("sys_sum.mkint.arg0", [])] empty_state).
Proof. vm_compute. reflexivity. Qed.

(** C8.  On [sum_module] the traversal does not end.  [get_taint_source]
    replaces [%n] by the call [sum_arg_call]; from there [is_sink_reachable]
    visits the add, the phi, the add again, and so on: whatever budget it is
    given, it uses it up, at the phi, at the add and at the source, and so
    does the pass. *)
Theorem is_sink_reachable_diverges_on_loop_phi fuel :
  is_sink_reachable LLVM.demangle fuel sum_module_rewritten sum_phi empty_state = NoFuel
  ∧ is_sink_reachable LLVM.demangle fuel sum_module_rewritten sum_arg_call empty_state = NoFuel
  ∧ run LLVM.ops LLVM.demangle fuel sum_module = NoFuel.
Proof.
  split; [by apply sum_cycle|].
  split; [by apply sum_call|].
  unfold run, taint_analysis.
  change (S (length (m_funcs sum_module) + length (flat_map f_params (m_funcs sum_module))))
    with 3%nat.
  rewrite sum_setup.
  cbn [mbind result_bind].
  unfold bcast_sources. cbn [m_func2tsrc set_func2tsrc for_each mbind result_bind].
  unfold taint_bcast_sink. cbn [for_each_or mbind result_bind].
  by rewrite sum_call.
Qed.

(** *** [km_module]: a sink with a loop in its body *)

Lemma km_cycle fuel s :
  md_sink s = md_sink km_state →
  is_sink_reachable LLVM.demangle fuel km_module_rewritten km_phi s = NoFuel
  ∧ is_sink_reachable LLVM.demangle fuel km_module_rewritten km_add s = NoFuel.
Proof.
  intros Hs. induction fuel as [|fuel [IHphi IHadd]]; [done|].
  split.
  - eapply is_sink_reachable_stuck_on_user; [by rewrite Hs|done|by vm_compute|exact IHadd].
  - eapply is_sink_reachable_stuck_on_user; [by rewrite Hs|done|by vm_compute|exact IHphi].
Qed.

Lemma km_setup :
  mark_sources LLVM.demangle 5 0 km_module empty_state
  = Done (km_module_rewritten,
          set_func2tsrc [("sys_foo", [km_arg_call]); ("sys_foo.mkint.arg0", [])]
            (mark_sink 22 "kmalloc" empty_state)).
Proof. vm_compute. reflexivity. Qed.

Lemma km_bcast fuel :
  bcast_sources LLVM.demangle (S fuel) km_module_rewritten
    (set_func2tsrc [("sys_foo", [km_arg_call]); ("sys_foo.mkint.arg0", [])]
       (mark_sink 22 "kmalloc" empty_state))
  = Done km_state.
Proof. vm_compute. reflexivity. Qed.

Lemma km_taint_loop rounds fuel :
  taint_loop LLVM.demangle rounds fuel km_module_rewritten km_state = NoFuel.
Proof.
  destruct rounds as [|rounds]; [done|].
  cbn [taint_loop].
  assert (taint_round LLVM.demangle fuel km_module_rewritten km_state = NoFuel) as ->; [|done].
  unfold taint_round.
  change (m_taint_funcs km_state) with ["kmalloc"; "sys_foo"].
  cbn [for_each].
  change (is_taint_src LLVM.demangle "kmalloc") with false.
  change (find_func km_module_rewritten "kmalloc") with (Some km_kmalloc).
  cbn [negb].
  change (args_of km_kmalloc) with [VArg "kmalloc" 0].
  unfold taint_bcast_sink_args. cbn [for_each_or].
  change (users km_module_rewritten (VArg "kmalloc" 0)) with [km_phi].
  cbn [for_each_or].
  by rewrite (proj1 (km_cycle fuel km_state eq_refl)).
Qed.

(** C9.  On [km_module] the do-while loop of [run] does not end.  The walk
    before it returns: the call that stands for [%x] carries
    [SINK("kmalloc")], which puts [kmalloc] and then [sys_foo] in
    [m_taint_funcs].  The first round of the loop then broadcasts from the
    argument of [kmalloc] into its body, where [is_sink_reachable] goes round
    the phi without end: no bound on the rounds and no budget for the
    traversal lets the loop return, and so the pass does not return. *)
Theorem taint_loop_diverges_in_sink_body :
  (∀ fuel, bcast_sources LLVM.demangle (S fuel) km_module_rewritten
             (set_func2tsrc [("sys_foo", [km_arg_call]); ("sys_foo.mkint.arg0", [])]
                (mark_sink 22 "kmalloc" empty_state)) = Done km_state)
  ∧ (∀ rounds fuel,
       taint_loop LLVM.demangle rounds fuel km_module_rewritten km_state = NoFuel)
  ∧ (∀ fuel, run LLVM.ops LLVM.demangle fuel km_module = NoFuel).
Proof.
  split; [apply km_bcast|].
  split; [apply km_taint_loop|].
  intros fuel. unfold run, taint_analysis.
  change (S (length (m_funcs km_module) + length (flat_map f_params (m_funcs km_module))))
    with 5%nat.
  rewrite km_setup.
  cbn [mbind result_bind].
  destruct fuel as [|fuel]; [done|].
  rewrite km_bcast. cbn [mbind result_bind].
  by rewrite km_taint_loop.
Qed.

(** *** [chain_module]: a summary that travels one function per pass *)

(** C2.  The loop makes 129 passes where the cap is 128.  [chain_module 128]
    is a chain of 128 callers over a leaf, callers first.  The range of the
    leaf's return value enters [m_func2ret_range] in the first pass and moves
    up one caller per pass, so each of the first 129 passes changes a map.
    [try_count] is incremented after a pass and compared with
    [++try_count > max_try]: the loop gives up when the count reaches 129,
    after the 129th pass. *)
Theorem range_loop_makes_129_passes :
  ('(m, s) ← taint_analysis LLVM.demangle 1 (chain_module 128);
   s ← range_setup LLVM.demangle m s;
   '(passes, try_count, _) ← range_loop LLVM.ops 130 m 0 0 s;
   Done (passes, try_count))
  = Done (129%nat, 129%N).
Proof. vm_compute. reflexivity. Qed.

(** *** [switch_module]: a switch on a value that is no constant *)

(** C5.  The pass stops on [switch_module].  When [b2] merges its
    predecessor [b1], [merge_switch] asks for the range of [%x] in [b2]
    itself, which holds no range yet, and not in [b1], where [%x] has the
    full range: [get_range_by_bb] fires [MKINT_CHECK_ABORT].  It does so
    for every switch on an instruction for which the block being merged into
    holds no range, whatever the predecessor holds. *)
Theorem switch_merge_reads_the_merged_block fuel :
  get_range_by_bb
    (set_rng "f" (BlockRef 1) (VInst 10) (ConstantRange.getFull 32) empty_state)
    "f" (VInst 10) (BlockRef 1) = Done (ConstantRange.getFull 32)
  ∧ merge_switch LLVM.ops switch_module "f" 2 (VInst 10) 3 [(1, 2%N)]
      (set_rng "f" (BlockRef 1) (VInst 10) (ConstantRange.getFull 32) empty_state) = Aborted
  ∧ run LLVM.ops LLVM.demangle (S fuel) switch_module = Aborted
  ∧ (∀ cr m F bb x default_dest cases s,
       rng_at s F (BlockRef bb) !! VInst x = None →
       merge_switch cr m F bb (VInst x) default_dest cases s = Aborted).
Proof.
  split; [vm_compute; reflexivity|].
  split; [vm_compute; reflexivity|].
  split; [vm_compute; reflexivity|].
  intros cr m F bb x default_dest cases s Hnone.
  unfold merge_switch, get_range_by_bb. by rewrite Hnone.
Qed.

(** *** [array_module]: a read behind the end of an array *)

Lemma array_read_oob_witness :
  (∃ garr i0 idx ranges idx_rng,
     i_kind array_load = Load (VInst 10)
     ∧ i_kind <$> find_inst array_module 10 = Some (GetElementPtr (VGlobal garr) [i0; idx])
     ∧ m_garr2ranges array_state !! garr = Some ranges
     ∧ get_range_by_bb array_state (f_name array_f) idx (BlockRef 1) = Done idx_rng
     ∧ Z.of_nat (length ranges) ≤ ConstantRange.getUnsignedMax idx_rng)
  ∧ (∀ m0 s0 s1,
       init_ranges LLVM.demangle m0 s0 = Done s1 →
       m_garr2ranges s0 = ∅ → NoDup (g_name <$> m_globals m0) →
       garr_lengths (m_globals m0) s1)
  ∧ (∀ fuel m0 m1 st g,
       run LLVM.ops LLVM.demangle fuel m0 = Done (m1, st) →
       g ∈ m_gep_oob st → md_err st !! g = Some (mkstr ARRAY_OOB)).
Proof.
  apply (gep_oob_index_max_reaches_array_length LLVM.ops LLVM.demangle array_module array_f 1
           array_load array_state array_state_visited 10).
  - vm_compute. reflexivity.
  - apply (bool_decide_unpack (10%N ∈ m_gep_oob array_state_visited)). vm_compute. exact I.
  - apply (bool_decide_unpack (10%N ∉ m_gep_oob array_state)). vm_compute. exact I.
Defined.

(** The pass on [array_module]: the table holds the four elements of [@arr],
    and the gep that reads element 7 is reported. *)
Example array_read_reported :
  (m_garr2ranges <$> (snd <$> run LLVM.ops LLVM.demangle 1 array_module))
  = Done {[ "arr" := [ConstantRange.ofAPInt 32 1; ConstantRange.ofAPInt 32 2;
                      ConstantRange.ofAPInt 32 3; ConstantRange.ofAPInt 32 4] ]}
  ∧ (md_err <$> (snd <$> run LLVM.ops LLVM.demangle 1 array_module))
    = Done {[ 10%N := "array index out of bound" ]}.
Proof. split_and!; vm_compute; reflexivity. Qed.

(** *** [argidx_module]: a read within bounds that is reported *)

(** C4.  On [argidx_module] the pass reports a read that is within bounds.
    [@f] is analysed before its caller, so in the first pass [%i] still has
    the empty range it was seeded with; the unsigned maximum of the empty
    range is read as [2^64 - 1], which reaches the four elements of [@arr],
    and the gep (instruction 10) enters [m_gep_oob].  The call then gives
    [%i] the range of the value 1, the gep is never taken out again, and the
    pass ends with [ERR(ARRAY_OOB)] on a gep whose index has the unsigned
    maximum 1.  With the caller first in the module nothing is reported. *)
Theorem in_bounds_read_reported_out_of_bound :
  run LLVM.ops LLVM.demangle 1 argidx_module = Done (argidx_module, argidx_final)
  ∧ m_gep_oob argidx_final = {[ 10%N ]}
  ∧ md_err argidx_final = {[ 10%N := "array index out of bound" ]}
  ∧ i_kind <$> find_inst argidx_module 10
    = Some (GetElementPtr (VGlobal "arr") [VConstInt 64 0; VArg "f" 0])
  ∧ length <$> (m_garr2ranges argidx_final !! "arr") = Some 4%nat
  ∧ get_range_by_bb argidx_final "f" (VArg "f" 0) (BlockRef 1)
    = Done (ConstantRange.ofAPInt 64 1)
  ∧ ConstantRange.getUnsignedMax (ConstantRange.ofAPInt 64 1) = 1
  ∧ get_range_by_bb argidx_start "f" (VArg "f" 0) (BlockRef 1)
    = Done (ConstantRange.getEmpty 64)
  ∧ ConstantRange.getUnsignedMax (ConstantRange.getEmpty 64) = 2 ^ 64 - 1
  ∧ run LLVM.ops LLVM.demangle 1 argidx_module_caller_first
    = Done (argidx_module_caller_first, argidx_caller_first_final)
  ∧ m_gep_oob argidx_caller_first_final = ∅
  ∧ md_err argidx_caller_first_final = ∅.
Proof. split_and!; vm_compute; reflexivity. Qed.

(** *** [tw_module]: the pass run twice *)

(** C6.  On [tw_module] a second run of the pass reports a branch the first
    did not.  The first run puts a call in the place of [%a], taints [@G]
    through it and so analyses [@G], whose call gives [%y] the full range:
    no branch is found impossible.  In the module the first run leaves,
    [%a] has no use, so a second run finds no taint source, does not analyse
    [@G] (it returns no integer), and [%y] keeps the empty range it is
    seeded with: both outcomes of [%c] (instruction 10) are found impossible
    and the second run leaves an error the first did not.  The second run
    is taken on the module with the metadata of the first on it; it leaves
    the same error on the module without them. *)
Theorem second_run_reports_another_branch :
  run LLVM.ops LLVM.demangle 5 tw_module = Done (tw_module_rewritten, tw_first)
  ∧ run_on LLVM.ops LLVM.demangle tw_first 5 tw_module_rewritten
    = Done (tw_module_rewritten, tw_second)
  ∧ md_err tw_first = ∅
  ∧ md_err tw_second = {[ 10%N := "impossible false branch" ]}
  ∧ md_taint tw_first = {[ 52%N := "source"; 50%N := ""; 40%N := "" ]}
  ∧ md_taint tw_second = md_taint tw_first
  ∧ md_sink tw_second = md_sink tw_first
  ∧ m_func2tsrc tw_second = [("sys_foo", []); ("sys_foo.mkint.arg0", [])]
  ∧ bool_decide ("G" ∈ m_taint_funcs tw_first) = true
  ∧ m_taint_funcs tw_second = []
  ∧ m_range_analysis_funcs tw_first = ["sys_foo"; "G"; "h"]
  ∧ m_range_analysis_funcs tw_second = ["sys_foo"; "h"]
  ∧ get_range_by_bb tw_first "h" (VArg "h" 0) (BlockRef 1) = Done (ConstantRange.getFull 32)
  ∧ get_range_by_bb tw_second "h" (VArg "h" 0) (BlockRef 1) = Done (ConstantRange.getEmpty 32)
  ∧ (md_err <$> (snd <$> run LLVM.ops LLVM.demangle 5 tw_module_rewritten))
    = Done {[ 10%N := "impossible false branch" ]}.
Proof. split_and!; vm_compute; reflexivity. Qed.

(** *** [known_module]: the false edge of a comparison that is false *)

(** On the false edge the merge cuts the range of the right operand with
    the inverse predicate as it is, where the true edge takes the swapped
    predicate.  [%a] is 10 and [%b] is 3, so [icmp ult %a, %b] is false and
    the false edge is the one that is taken.  The pass cuts the range of
    [%b] by the values that are at least 10, finds it empty, and reports the
    false branch as impossible; cut by the values that are at most 10, the
    range of [%b] is what it was. *)
Example false_edge_cuts_right_operand_unswapped :
  run LLVM.ops LLVM.demangle 1 known_module = Done (known_module, known_final)
  ∧ get_range_by_bb known_final "f" (VInst 10) (BlockRef 1) = Done (ConstantRange.ofAPInt 32 10)
  ∧ get_range_by_bb known_final "f" (VInst 11) (BlockRef 1) = Done (ConstantRange.ofAPInt 32 3)
  ∧ m_impossible_branches known_at_b3 = {[ 12%N := true ]}
  ∧ rng_at known_at_b3 "f" (BlockRef 3) = ∅
  ∧ m_impossible_branches known_final = {[ 12%N := false ]}
  ∧ md_err known_final = {[ 12%N := "impossible false branch" ]}
  ∧ ConstantRange.intersectWith LLVM.ops (ConstantRange.ofAPInt 32 3)
      (cmpRegion LLVM.ops (getInversePredicate ICMP_ULT) (ConstantRange.ofAPInt 32 10))
    = ConstantRange.getEmpty 32
  ∧ ConstantRange.intersectWith LLVM.ops (ConstantRange.ofAPInt 32 3)
      (cmpRegion LLVM.ops (getSwappedPredicate (getInversePredicate ICMP_ULT))
         (ConstantRange.ofAPInt 32 10))
    = ConstantRange.ofAPInt 32 3.
Proof. split_and!; vm_compute; reflexivity. Qed.

Lemma true_edge_merge_witness :
  (∃ s' l' r',
     merge_cond_br LLVM.ops known_module "f" 2 1 2 12 ICMP_ULT (VInst 10) (VInst 11) known_at_b2 = Done s'
     ∧ rng_at s' "f" (BlockRef 2) !! VInst 10 = Some l'
     ∧ rng_at s' "f" (BlockRef 2) !! VInst 11 = Some r'
     ∧ m_impossible_branches s' =
         (if ConstantRange.isEmptySet l' || ConstantRange.isEmptySet r'
          then <[12%N := bool_decide (2%N = 2%N)]> (m_impossible_branches known_at_b2)
          else m_impossible_branches known_at_b2)
     ∧ (VInst 10 ≠ VInst 11 →
        l' = (if isConstantInt (VInst 10) then ConstantRange.ofAPInt 32 10
            else ConstantRange.unionWith LLVM.ops
                   (ConstantRange.intersectWith LLVM.ops (ConstantRange.ofAPInt 32 10)
                      (cmpRegion LLVM.ops
                         (if bool_decide (2%N = 2%N) then ICMP_ULT else getInversePredicate ICMP_ULT)
                         (ConstantRange.ofAPInt 32 3)))
                   (default (ConstantRange.getEmpty (getIntegerBitWidth (type_of known_module (VInst 10))))
                  (rng_at known_at_b2 "f" (BlockRef 2) !! VInst 10))))
     ∧ (VInst 10 = VInst 11 → l' = r')
     ∧ (isConstantInt (VInst 11) = true → r' = ConstantRange.ofAPInt 32 3)
     ∧ (bool_decide (2%N = 2%N) = true → isConstantInt (VInst 11) = false →
        r' = ConstantRange.unionWith LLVM.ops
               (ConstantRange.intersectWith LLVM.ops (ConstantRange.ofAPInt 32 3)
                  (cmpRegion LLVM.ops (getSwappedPredicate ICMP_ULT) (ConstantRange.ofAPInt 32 10)))
               (if decide (VInst 10 = VInst 11)
                then (if isConstantInt (VInst 10) then ConstantRange.ofAPInt 32 10
            else ConstantRange.unionWith LLVM.ops
                   (ConstantRange.intersectWith LLVM.ops (ConstantRange.ofAPInt 32 10)
                      (cmpRegion LLVM.ops
                         (if bool_decide (2%N = 2%N) then ICMP_ULT else getInversePredicate ICMP_ULT)
                         (ConstantRange.ofAPInt 32 3)))
                   (default (ConstantRange.getEmpty (getIntegerBitWidth (type_of known_module (VInst 10))))
                  (rng_at known_at_b2 "f" (BlockRef 2) !! VInst 10)))
                else (default (ConstantRange.getEmpty (getIntegerBitWidth (type_of known_module (VInst 11))))
                  (rng_at known_at_b2 "f" (BlockRef 2) !! VInst 11)))))
  ∧ (∀ fuel m0 m' st c is_tbr,
       run LLVM.ops LLVM.demangle fuel m0 = Done (m', st) →
       m_impossible_branches st !! c = Some is_tbr →
       md_err st !! c = Some (mkstr (dead_branch_err is_tbr))).
Proof.
  apply (dead_branch_recorded_when_merged_range_empty LLVM.ops LLVM.demangle known_module
           "f" 2 1 2 12 ICMP_ULT (VInst 10) (VInst 11) known_at_b2 (ConstantRange.ofAPInt 32 10) (ConstantRange.ofAPInt 32 3)).
  - reflexivity.
  - reflexivity.
  - vm_compute. reflexivity.
  - vm_compute. reflexivity.
Defined.

(** On the true edge of [known_module] both operands are cut to the empty
    range: no value below 3 is 10 and no value above 10 is 3. *)
Example true_edge_ranges :
  (λ s, (rng_at s "f" (BlockRef 2) !! VInst 10, rng_at s "f" (BlockRef 2) !! VInst 11,
         m_impossible_branches s))
    <$> merge_cond_br LLVM.ops known_module "f" 2 1 2 12 ICMP_ULT (VInst 10) (VInst 11) known_at_b2
  = Done (Some (ConstantRange.getEmpty 32), Some (ConstantRange.getEmpty 32), {[ 12%N := true ]}).
Proof. vm_compute. reflexivity. Qed.

(** *** [both_dead_module]: both outcomes found impossible *)

Lemma both_dead_run :
  run LLVM.ops LLVM.demangle 1 both_dead_module = Done (both_dead_module, both_dead_final).
Proof. vm_compute. reflexivity. Qed.

Lemma both_dead_witness :
  m_impossible_branches both_dead_pass !! 10%N = m_impossible_branches both_dead_after_b3 !! 10%N
  ∧ (∀ fn b pred br_true p lhs rhs u lrng rrng,
       isIntegerTy (type_of both_dead_module lhs) = true →
       isIntegerTy (type_of both_dead_module rhs) = true →
       get_range_by_bb u fn lhs (BlockRef pred) = Done lrng →
       get_range_by_bb u fn rhs (BlockRef pred) = Done rrng →
       ∃ u' l r,
         merge_cond_br LLVM.ops both_dead_module fn b pred br_true 10 p lhs rhs u = Done u'
         ∧ rng_at u' fn (BlockRef b) !! lhs = Some l
         ∧ rng_at u' fn (BlockRef b) !! rhs = Some r
         ∧ m_impossible_branches u' =
             (if ConstantRange.isEmptySet l || ConstantRange.isEmptySet r
              then <[10%N := bool_decide (br_true = b)]> (m_impossible_branches u)
              else m_impossible_branches u))
  ∧ (∀ fuel m0 m' st,
       run LLVM.ops LLVM.demangle fuel m0 = Done (m', st) →
       match m_impossible_branches st !! 10%N with
       | Some is_tbr =>
         md_err st !! 10%N = Some (mkstr (dead_branch_err is_tbr))
         ∧ md_err st !! 10%N ≠ Some (mkstr (dead_branch_err (negb is_tbr)))
       | None =>
         md_err st !! 10%N ≠ Some (mkstr DEAD_TRUE_BR)
         ∧ md_err st !! 10%N ≠ Some (mkstr DEAD_FALSE_BR)
       end)
  ∧ (∀ fuel try_count passes u r,
       range_loop LLVM.ops fuel both_dead_module try_count passes u = Done r →
       is_Some (m_impossible_branches u !! 10%N) →
       is_Some (m_impossible_branches r.2 !! 10%N)).
Proof.
  apply (one_dead_branch_error_per_comparison LLVM.ops LLVM.demangle both_dead_module
           both_dead_f [both_dead_b1; both_dead_b2] both_dead_b3 [] 10
           both_dead_start both_dead_at_b3 both_dead_after_b3 both_dead_pass).
  - reflexivity.
  - vm_compute. reflexivity.
  - vm_compute. reflexivity.
  - intros b Hb. by apply not_elem_of_nil in Hb.
  - vm_compute. reflexivity.
Defined.

(** In the first pass the true outcome is recorded when [b2] merges [b1], and
    the false one over it when [b3] does; the false one is what the pass
    reports. *)
Example both_dead_reports_the_false_branch :
  m_impossible_branches both_dead_start !! 10%N = None
  ∧ m_impossible_branches both_dead_at_b3 !! 10%N = Some true
  ∧ m_impossible_branches both_dead_after_b3 !! 10%N = Some false
  ∧ m_impossible_branches both_dead_pass !! 10%N = Some false
  ∧ m_impossible_branches both_dead_final !! 10%N = Some false
  ∧ md_err both_dead_final !! 10%N = Some "impossible false branch".
Proof. split_and!; vm_compute; reflexivity. Qed.

(** *** [fan_module]: a dead edge merged behind a live one *)

(** C3, the claim as it was stated, fails on [fan_module].  [%x] has the
    range of the values other than 0 in [b3]; cut by the region
    [icmp ult %x, 0] allows, which is empty, the refinement of [%x] on the
    true edge [b3 -> b4] is empty.  Yet the pass records nothing for [%c2]
    (instruction 30) and leaves no error on it.  When the edge is merged,
    [b4] already holds a range for [%x] from another edge, and the test is
    made on the union: this is so in the first pass, in which [b4] starts
    with no range, whether the predecessors of [b4] are walked as [b2], [b3],
    [b5] or as [b5], [b3], [b2], and in every later pass, in which [b4]
    holds the ranges of the pass before. *)
Lemma dead_edge_behind_live_edge_not_recorded :
  run LLVM.ops LLVM.demangle 1 fan_module = Done (fan_module, fan_final)
  ∧ get_range_by_bb fan_final "f" (VInst 10) (BlockRef 3) = Done (ConstantRange.Make 32 1 0)
  ∧ get_range_by_bb fan_final "f" (VConstInt 32 0) (BlockRef 3)
    = Done (ConstantRange.ofAPInt 32 0)
  ∧ ConstantRange.isEmptySet
      (ConstantRange.intersectWith LLVM.ops (ConstantRange.Make 32 1 0)
         (cmpRegion LLVM.ops ICMP_ULT (ConstantRange.ofAPInt 32 0))) = true
  ∧ m_impossible_branches fan_final = ∅
  ∧ md_err fan_final !! 30%N = None
  ∧ rng_at fan_before_b4 "f" (BlockRef 4) = ∅
  ∧ get_range_by_bb fan_before_b4 "f" (VInst 10) (BlockRef 3) = Done (ConstantRange.Make 32 1 0)
  ∧ (m_impossible_branches <$>
       for_each (merge_pred LLVM.ops fan_module "f" 4) [fan_b2; fan_b3; fan_b5] fan_before_b4)
    = Done ∅
  ∧ (m_impossible_branches <$>
       for_each (merge_pred LLVM.ops fan_module "f" 4) [fan_b5; fan_b3; fan_b2] fan_before_b4)
    = Done ∅
  ∧ (m_impossible_branches <$>
       for_each (merge_pred LLVM.ops fan_module "f" 4) [fan_b5; fan_b3; fan_b2] fan_final)
    = Done ∅.
Proof. split_and!; vm_compute; reflexivity. Qed.

(** Merged first, into a block that holds no range yet, the same edge is
    recorded: what the pass reports depends on the order in which the
    predecessors of a block are walked. *)
Example dead_edge_merged_first_is_recorded :
  (m_impossible_branches <$>
     for_each (merge_pred LLVM.ops fan_module "f" 4) [fan_b3; fan_b2; fan_b5] fan_before_b4)
  = Done {[ 30%N := true ]}.
Proof. vm_compute. reflexivity. Qed.

(** *** [ret_sink_module]: the returns of a source *)

Lemma source_returns_witness :
  ∃ s',
    mark_func_sinks LLVM.demangle ret_sink_module sys_bar empty_state = Done s'
    ∧ if is_taint_src LLVM.demangle (f_name sys_bar) && isIntegerTy (f_ret sys_bar)
         && existsb (λ u, negb (is_taint_src LLVM.demangle (f_name u.1)))
              (uses ret_sink_module (VFunc (f_name sys_bar)))
      then ∀ inst, inst ∈ instructions sys_bar → isReturnInst inst = true →
                   md_sink s' !! i_id inst = Some "return"
      else s' = empty_state.
Proof.
  apply (source_returns_are_sinks LLVM.demangle ret_sink_module sys_bar empty_state empty_state).
  vm_compute. reflexivity.
Defined.

(** *** Widths that differ *)

(** On [promote_module] the operands of the add reach [auto_promote] with
    32 and 64 bits, and leave it with 32 and 64 bits. *)
Example promote_module_widths :
  run LLVM.ops LLVM.demangle 1 promote_module = Done (promote_module, promote_final)
  ∧ get_range_by_bb promote_final "f" (VInst 12) (BlockRef 1) = Done (ConstantRange.getFull 32)
  ∧ get_range_by_bb promote_final "f" (VConstInt 64 1) (BlockRef 1)
    = Done (ConstantRange.ofAPInt 64 1)
  ∧ auto_promote LLVM.ops (ConstantRange.getFull 32) (ConstantRange.ofAPInt 64 1)
    = (ConstantRange.getFull 32, ConstantRange.ofAPInt 64 1).
Proof. split_and!; vm_compute; reflexivity. Qed.

(** An 8-bit and a 32-bit operand come back as they went in; zero extension
    to 32 bits would have changed the first. *)
Example auto_promote_8_beside_32 :
  let lhs := ConstantRange.ofAPInt 8 200 in
  let rhs := ConstantRange.ofAPInt 32 7 in
  auto_promote LLVM.ops lhs rhs = (lhs, rhs)
  ∧ ConstantRange.getBitWidth (auto_promote LLVM.ops lhs rhs).1 = 8%N
  ∧ ConstantRange.zextOrTrunc LLVM.ops lhs 32 = ConstantRange.Make 32 200 201.
Proof. split_and!; vm_compute; reflexivity. Qed.

(** *** Further properties, on the examples *)

Lemma errors_of_a_run_witness :
  md_err both_dead_final !! 10%N =
    match m_impossible_branches both_dead_final !! 10%N with
    | Some is_tbr => Some (mkstr (dead_branch_err is_tbr))
    | None => if decide (10%N ∈ m_gep_oob both_dead_final) then Some (mkstr ARRAY_OOB) else None
    end
  ∧ (is_Some (m_impossible_branches both_dead_final !! 10%N) → 10%N ∉ m_gep_oob both_dead_final).
Proof.
  apply (errors_of_a_run LLVM.ops LLVM.demangle 1 both_dead_module both_dead_module
           both_dead_final 10).
  vm_compute. reflexivity.
Defined.

(** *** [kz_module]: a source that reaches a sink *)

Lemma kz_arg_call_reaches_the_sink sinks :
  is_Some (sinks !! 10%N) → sink_reachable kz_module_rewritten sinks kz_arg_call.
Proof.
  intros Hsink. apply (sink_by_user _ _ kz_arg_call kz_mul).
  - intros val ptr. discriminate.
  - vm_compute. left.
  - by apply sink_here.
Qed.

Lemma kz_walk_bounded : walk_bounded kz_module_rewritten (md_sink kz_marked) 2 kz_arg_call.
Proof.
  apply walk_bounded_step. intros _ user Hedge.
  apply walk_bounded_step. intros Hns.
  inversion Hedge as [val gv u Hk|u Hk Hu|callee args f arg u Hk Hf Hdecl]; subst u.
  - discriminate Hk.
  - vm_compute in Hu. apply list_elem_of_singleton in Hu as ->.
    destruct Hns. exists "kzalloc". vm_compute. reflexivity.
  - injection Hk as <- <-. vm_compute in Hf. injection Hf as <-. discriminate Hdecl.
Qed.

Lemma is_sink_reachable_witness :
  ((true = true ↔ sink_reachable kz_module_rewritten (md_sink kz_marked) kz_arg_call)
   ∧ md_sink kz_reached = md_sink kz_marked
   ∧ (∀ k, is_Some (md_taint kz_reached !! k) →
           is_Some (md_taint kz_marked !! k)
           ∨ ∃ i, i_id i = k ∧ (i = kz_arg_call ∨ i ∈ all_instructions kz_module_rewritten)
                  ∧ sink_reachable kz_module_rewritten (md_sink kz_marked) i)
   ∧ (true = false → kz_reached = kz_marked))
  ∧ is_sink_reachable LLVM.demangle 7 kz_module_rewritten kz_arg_call kz_marked ≠ NoFuel
  ∧ is_sink_reachable LLVM.demangle 7 kz_module_rewritten kz_arg_call kz_marked
    = is_sink_reachable LLVM.demangle 2 kz_module_rewritten kz_arg_call kz_marked.
Proof.
  destruct (is_sink_reachable_finds_the_sinks LLVM.demangle kz_module_rewritten kz_arg_call
              kz_marked) as [Hresult Hreturns].
  split.
  - apply (Hresult 2%nat true kz_reached). vm_compute. reflexivity.
  - apply (Hreturns 2%nat 7%nat); [apply kz_walk_bounded|lia].
Defined.

Lemma tainted_instructions_witness :
  ∃ inst, i_id inst = 13%N
          ∧ (inst ∈ concat (m_func2tsrc kz_final).*2
             ∨ inst ∈ all_instructions kz_module_rewritten)
          ∧ sink_reachable kz_module_rewritten (md_sink kz_final) inst.
Proof.
  apply (tainted_instructions_reach_a_sink LLVM.demangle 2 kz_module kz_module_rewritten
           kz_final 13).
  - vm_compute. reflexivity.
  - exists "source". vm_compute. reflexivity.
Defined.

(** On [kz_module] the pass taints the call that stands for the argument and
    nothing else: the traversal returns at the multiplication, which carries
    the sink, before it marks anything there. *)
Example kz_module_taint :
  md_taint kz_final = {[ 13%N := "source" ]}
  ∧ md_sink kz_final = {[ 10%N := "kzalloc" ]}
  ∧ m_taint_funcs kz_final = ["kzalloc"; "sys_foo.mkint.arg0"; "sys_foo"].
Proof. split_and!; vm_compute; reflexivity. Qed.

Lemma taint_walk_witness :
  (sink_reachable kz_module_rewritten (md_sink kz_final) kz_arg_call →
   is_Some (md_taint kz_final !! i_id kz_arg_call) ∧ "sys_foo" ∈ m_taint_funcs kz_final)
  ∧ (∀ i, walks_to kz_module_rewritten (md_sink kz_final) kz_arg_call i →
          ¬ is_Some (md_sink kz_final !! i_id i) →
          sink_reachable kz_module_rewritten (md_sink kz_final) i →
          is_Some (md_taint kz_final !! i_id i)).
Proof.
  apply (taint_covers_the_walk_from_a_source LLVM.demangle 2 kz_module kz_module_rewritten
           kz_final "sys_foo" [kz_arg_call] kz_arg_call).
  - vm_compute. reflexivity.
  - vm_compute. left.
  - left.
Defined.

(** *** [hp_module]: a tainted function with a body *)

Lemma tainted_arguments_witness :
  (sink_reachable hp_module_rewritten (md_sink hp_final) hp_add →
   is_Some (md_taint hp_final !! i_id hp_add))
  ∧ (∀ i, walks_to hp_module_rewritten (md_sink hp_final) hp_add i →
          ¬ is_Some (md_sink hp_final !! i_id i) →
          sink_reachable hp_module_rewritten (md_sink hp_final) i →
          is_Some (md_taint hp_final !! i_id i)).
Proof.
  apply (taint_covers_the_arguments_of_tainted_functions LLVM.demangle 3 hp_module
           hp_module_rewritten hp_final "helper" hp_helper (VArg "helper" 0) hp_add).
  - vm_compute. reflexivity.
  - vm_compute. right. left.
  - vm_compute. reflexivity.
  - vm_compute. reflexivity.
  - vm_compute. left.
  - vm_compute. left.
Defined.

(** On [hp_module] the addition in [helper] carries both [mkint.sink] and
    [mkint.taint]: it is a user of an argument of a tainted function. *)
Example hp_module_taint :
  md_taint hp_final = {[ 10%N := ""; 20%N := ""; 22%N := "source" ]}
  ∧ md_sink hp_final = {[ 10%N := "kmalloc" ]}
  ∧ m_taint_funcs hp_final = ["kmalloc"; "helper"; "sys_foo.mkint.arg0"; "sys_foo"].
Proof. split_and!; vm_compute; reflexivity. Qed.

Lemma walk_without_cycle_witness :
  is_sink_reachable LLVM.demangle 2 kz_module_rewritten kz_arg_call kz_marked ≠ NoFuel
  ∧ is_sink_reachable LLVM.demangle (2 + 5) kz_module_rewritten kz_arg_call kz_marked
    = is_sink_reachable LLVM.demangle 2 kz_module_rewritten kz_arg_call kz_marked.
Proof.
  apply (is_sink_reachable_returns_without_a_cycle LLVM.demangle kz_module_rewritten 2 5
           kz_arg_call kz_marked).
  apply kz_walk_bounded.
Defined.

(** *** [icall_module]: a call through a pointer *)

Lemma indirect_call_witness : run LLVM.ops LLVM.demangle 1 icall_module = Aborted.
Proof.
  apply (pass_stops_at_an_indirect_call LLVM.ops LLVM.demangle 1 icall_module icall_f).
  - left.
  - exists icall. split; [left|].
    exists (VArg "apply" 0), []. split; [reflexivity|]. intros f. discriminate.
Defined.

Lemma range_phase_witness :
  ∃ s0, taint_analysis LLVM.demangle 2 kz_module = Done (kz_module_rewritten, s0)
        ∧ same_taint s0 kz_run_final.
Proof.
  apply (range_phase_leaves_taint_alone LLVM.ops LLVM.demangle 2 kz_module).
  vm_compute. reflexivity.
Defined.

(** *** [zeros_module]: an initializer that is no data array *)

Lemma unsupported_initializer_witness :
  run LLVM.ops LLVM.demangle 1 zeros_module
  = (taint_analysis LLVM.demangle 1 zeros_module ≫= λ _, Aborted).
Proof.
  apply (pass_stops_at_an_unsupported_initializer LLVM.ops LLVM.demangle 1 zeros_module
           (MkGlobal "zeros" (TArray 4 i32) 0 (Some InitOther))).
  - left.
  - exact I.
Defined.

Example zeros_module_stops : run LLVM.ops LLVM.demangle 1 zeros_module = Aborted.
Proof. vm_compute. reflexivity. Qed.

Lemma sink_arguments_witness :
  (∀ call callee args, call ∈ instructions kz_foo_rewritten → i_kind call = Call callee args →
                       is_Some (getCalledFunction kz_module_rewritten callee))
  ∧ sink_marks_grow LLVM.demangle kz_module_rewritten kz_foo_rewritten empty_state kz_marked
  ∧ (∀ k name, sink_argument LLVM.demangle kz_module_rewritten kz_foo_rewritten name k →
               ∃ name', md_sink kz_marked !! k = Some name'
                        ∧ sink_argument LLVM.demangle kz_module_rewritten kz_foo_rewritten name' k).
Proof.
  apply (mark_sink_args_marks_the_sink_arguments LLVM.demangle kz_module_rewritten
           kz_foo_rewritten empty_state kz_marked).
  vm_compute. reflexivity.
Defined.

(** *** [nullcheck_module]: a comparison of a pointer *)

Lemma non_integer_comparison_witness :
  range_analysis LLVM.ops nullcheck_module nullcheck_f empty_state = Aborted.
Proof.
  apply (range_analysis_stops_at_a_comparison_of_non_integers LLVM.ops nullcheck_module
           nullcheck_f nullcheck_b2 nullcheck_b1 empty_state).
  - right. left.
  - vm_compute. left.
  - reflexivity.
  - exists (MkInstruction 11 TVoid (CondBr (VInst 10) 2 3)), 10%N, 2%N, 3%N, ICMP_EQ,
      (VArg "f" 0), (VOther None 0).
    split_and!; vm_compute; reflexivity.
Defined.

Example nullcheck_module_stops : run LLVM.ops LLVM.demangle 1 nullcheck_module = Aborted.
Proof. vm_compute. reflexivity. Qed.

Lemma declaration_range_witness :
  m_func2ret_range kz_run_final !! "sys_foo.mkint.arg0" = Some (ConstantRange.getFull 32).
Proof.
  apply (declarations_keep_the_full_return_range LLVM.ops LLVM.demangle 2 kz_module
           kz_module_rewritten kz_run_final (MkFunction "sys_foo.mkint.arg0" i32 [] [])).
  - vm_compute. reflexivity.
  - right. right. left.
  - reflexivity.
  - intros G HG Hname. apply list_elem_of_In in HG. simpl in HG.
    destruct HG as [<-|[<-|[<-|[]]]]; try discriminate Hname. split; reflexivity.
  - left. reflexivity.
Defined.
